(** * Block-reference documentation generator and CFE workflow

    A shallow embedding of

    - the block-reference generator script (the functions [getTruthyKeys],
      [processObjWithInnerKeys], [augmentSupports], [readBlockJSON],
      [getFiles] and the top level, which reads the files, splices the
      generated text into the documentation file and writes it back),
    - the two extraction scripts and the jobs of the code-freeze-exception
      workflow, whose commands are taken to succeed, and
    - the state and the handlers of the coupon form.

    JavaScript strings are modelled as lists of characters, parsed JSON as an
    inductive type of values (numbers by their decimal form, objects by their
    properties in the order of [Object.keys]), thrown exceptions as an error
    result, and the regular expressions of both programs by a small
    backtracking matcher that follows the priority order of the JavaScript
    matcher (greedy and lazy quantifiers, leftmost start position). *)

From Stdlib Require Import String Ascii DecimalString.
From Stdlib Require Import List Bool Arith ZArith Lia Sorted Permutation.
Import ListNotations.

Local Open Scope list_scope.
Local Open Scope char_scope.
Local Set Warnings "-register-all".

(** ** Strings *)

(** A JavaScript string, as the sequence of its code units.  The model keeps
    to code units below 256, which covers every constant of the two programs. *)
Definition str := list ascii.

(** A string literal of the source. *)
Definition lit (s : string) : str := list_ascii_of_string s.
Arguments lit : simpl never.

Definition str_eqb (a b : str) : bool :=
  if list_eq_dec ascii_dec a b then true else false.


(** [strip_prefix p s] is [Some r] when [s = p ++ r]. *)
Fixpoint strip_prefix (p s : str) : option str :=
  match p with
  | [] => Some s
  | a :: p' =>
      match s with
      | [] => None
      | b :: s' => if Ascii.eqb a b then strip_prefix p' s' else None
      end
  end.

(** [String.prototype.startsWith]. *)
Definition startsWith (s p : str) : bool :=
  match strip_prefix p s with Some _ => true | None => false end.

(** Comparison of two strings by code units, the order of the default
    [Array.prototype.sort] comparator: [str_ltb a b] is [a < b]. *)
Fixpoint str_ltb (a b : str) : bool :=
  match a, b with
  | _, [] => false
  | [], _ :: _ => true
  | x :: a', y :: b' =>
      if (nat_of_ascii x <? nat_of_ascii y)%nat then true
      else if (nat_of_ascii y <? nat_of_ascii x)%nat then false
      else str_ltb a' b'
  end.

(** A decimal digit, [[0-9]] in a regular expression. *)
Definition digit (c : ascii) : bool :=
  ((48 <=? nat_of_ascii c) && (nat_of_ascii c <=? 57))%nat.

(** [Array.prototype.join] on an array of strings. *)
Fixpoint join (sep : str) (l : list str) : str :=
  match l with
  | [] => []
  | [x] => x
  | x :: l' => x ++ sep ++ join sep l'
  end.


(** ** JavaScript values *)

(** A number, by the decimal form that Number::toString prints: zero (of
    either sign), an infinity (the JSON text [1e999] parses to one), or the
    number [0.d1...dk * 10^n], negated when [negative], where [d1...dk] are
    the decimal digits of [digits] without its trailing zeros.  JSON text has
    no NaN. *)
Inductive jsnumber : Type :=
| Zero
| Infinity (negative : bool)
| Finite (negative : bool) (digits : positive) (n : Z).

(** The values a parsed [.json] file is made of, and [undefined], which a
    read of an absent property gives.  An object lists its own properties in
    the order [Object.keys] enumerates them.  An array carries, next to its
    elements, the named properties assigned to it: none after parsing, and
    the script assigns no other than [background] and [text], so that no
    method of an array is ever shadowed. *)
Inductive value : Type :=
| VUndefined
| VNull
| VBool (b : bool)
| VNumber (n : jsnumber)
| VString (s : str)
| VArray (elems : list value) (named : list (str * value))
| VObject (own : list (str * value)).

(** A thrown exception. *)
Inductive error : Type :=
| TypeError.

Inductive result (A : Type) : Type :=
| Ok (a : A)
| Throw (e : error).
Arguments Ok {A} a.
Arguments Throw {A} e.

Definition bind {A B : Type} (r : result A) (k : A -> result B) : result B :=
  match r with
  | Ok a => k a
  | Throw e => Throw e
  end.

Notation "x <- r ;; k" := (bind r (fun x => k))
  (at level 61, r at next level, right associativity).

(** The results of [typeof]. *)
Inductive jstype : Type :=
| TyUndefined | TyObject | TyBoolean | TyNumber | TyString.

Definition typeof (v : value) : jstype :=
  match v with
  | VUndefined => TyUndefined
  | VNull => TyObject
  | VBool _ => TyBoolean
  | VNumber _ => TyNumber
  | VString _ => TyString
  | VArray _ _ => TyObject
  | VObject _ => TyObject
  end.

Definition jstype_eqb (a b : jstype) : bool :=
  match a, b with
  | TyUndefined, TyUndefined | TyObject, TyObject | TyBoolean, TyBoolean
  | TyNumber, TyNumber | TyString, TyString => true
  | _, _ => false
  end.

(** ToBoolean. *)
Definition truthy (v : value) : bool :=
  match v with
  | VUndefined | VNull => false
  | VBool b => b
  | VNumber Zero => false
  | VNumber _ => true
  | VString s => match s with [] => false | _ => true end
  | VArray _ _ | VObject _ => true
  end.

Definition isArray (v : value) : bool :=
  match v with VArray _ _ => true | _ => false end.

Definition nat_to_str (n : nat) : str :=
  lit (NilZero.string_of_uint (Nat.to_uint n)).

Definition N_to_str (n : N) : str :=
  lit (NilZero.string_of_uint (N.to_uint n)).

Fixpoint drop_zeros (s : str) : str :=
  match s with
  | c :: s' => if Ascii.eqb c "0" then drop_zeros s' else s
  | [] => []
  end.

(** The decimal digits of [digits], without its trailing zeros. *)
Definition significand (digits : positive) : str :=
  rev (drop_zeros (rev (lit (NilEmpty.string_of_uint (Pos.to_uint digits))))).

Definition zeros (n : nat) : str := repeat "0" n.

(** Number::toString in base ten.  With [k] digits [s] and the exponent
    [n]: the digits and [n - k] zeros when [k <= n <= 21]; the digits with a
    point after the first [n] when [0 < n <= 21]; [0.], [-n] zeros and the
    digits when [-6 < n <= 0]; otherwise the exponent form, with the sign of
    [n - 1] written out. *)
Definition Number_toString (x : jsnumber) : str :=
  match x with
  | Zero => lit "0"
  | Infinity negative => (if negative then lit "-" else []) ++ lit "Infinity"
  | Finite negative digits n =>
      let s := significand digits in
      let k := Z.of_nat (length s) in
      (if negative then lit "-" else []) ++
      if ((k <=? n) && (n <=? 21))%Z then s ++ zeros (Z.to_nat (n - k))
      else if ((0 <? n) && (n <=? 21))%Z then
        firstn (Z.to_nat n) s ++ lit "." ++ skipn (Z.to_nat n) s
      else if ((-6 <? n) && (n <=? 0))%Z then
        lit "0." ++ zeros (Z.to_nat (- n)) ++ s
      else
        let e := (n - 1)%Z in
        let exponent :=
          (if (e <? 0)%Z then lit "-" else lit "+") ++ N_to_str (Z.to_N (Z.abs e)) in
        match s with
        | [] => []
        | [d] => [d] ++ lit "e" ++ exponent
        | d :: ds => [d] ++ lit "." ++ ds ++ lit "e" ++ exponent
        end
  end.

(** ** Properties *)

Fixpoint lookup (k : str) (ps : list (str * value)) : option value :=
  match ps with
  | [] => None
  | (k', v) :: ps' => if str_eqb k k' then Some v else lookup k ps'
  end.

(** ** Conversion to a string *)

Fixpoint mapM {A B : Type} (f : A -> result B) (l : list A) : result (list B) :=
  match l with
  | [] => Ok []
  | a :: l' =>
      b <- f a ;;
      bs <- mapM f l' ;;
      Ok (b :: bs)
  end.

(** ToString.  An object that has a key [toString] of its own throws: the
    value of the key is not a function and [valueOf] gives the object back;
    any other object is [[object Object]].  An array is its elements joined
    with a comma, [null] and [undefined] elements giving the empty string. *)
Fixpoint toString (v : value) : result str :=
  match v with
  | VUndefined => Ok (lit "undefined")
  | VNull => Ok (lit "null")
  | VBool true => Ok (lit "true")
  | VBool false => Ok (lit "false")
  | VNumber n => Ok (Number_toString n)
  | VString s => Ok s
  | VArray elems _ =>
      texts <- (fix each (l : list value) : result (list str) :=
                  match l with
                  | [] => Ok []
                  | e :: l' =>
                      t <- match e with
                           | VUndefined | VNull => Ok []
                           | _ => toString e
                           end ;;
                      ts <- each l' ;;
                      Ok (t :: ts)
                  end) elems ;;
      Ok (join (lit ",") texts)
  | VObject own =>
      match lookup (lit "toString") own with
      | Some _ => Throw TypeError
      | None => Ok (lit "[object Object]")
      end
  end.

(** The text an element contributes to [Array.prototype.join]. *)
Definition join_text (e : value) : result str :=
  match e with
  | VUndefined | VNull => Ok []
  | _ => toString e
  end.

(** [Array.prototype.join]. *)
Definition Array_join (sep : str) (elems : list value) : result str :=
  texts <- mapM join_text elems ;;
  Ok (join sep texts).

Fixpoint index_entries (i : nat) (elems : list value) : list (str * value) :=
  match elems with
  | [] => []
  | e :: elems' => (nat_to_str i, e) :: index_entries (S i) elems'
  end.

(** The own enumerable string-keyed properties of a value that is not [null]
    or [undefined], in the order of [Object.keys]: the indices of an array or
    of a string first, then the named properties. *)
Definition own_entries (v : value) : list (str * value) :=
  match v with
  | VObject own => own
  | VArray elems named => index_entries 0 elems ++ named
  | VString s => index_entries 0 (map (fun c => VString [c]) s)
  | _ => []
  end.

(** [Object.keys(v)]: a TypeError on [null] and [undefined]. *)
Definition Object_keys (v : value) : result (list str) :=
  match v with
  | VUndefined | VNull => Throw TypeError
  | _ => Ok (map fst (own_entries v))
  end.

(** The value of property [k] of a value that is not [null] or [undefined],
    for a name that no prototype defines: the own property, or [undefined]. *)
Definition prop (v : value) (k : str) : value :=
  match lookup k (own_entries v) with
  | Some x => x
  | None => VUndefined
  end.

(** [v[k]] and [v.k]: a TypeError on [null] and [undefined]. *)
Definition get (v : value) (k : str) : result value :=
  match v with
  | VUndefined | VNull => Throw TypeError
  | _ => Ok (prop v k)
  end.

(** [k in v] for a property name that no prototype defines; a TypeError when
    [v] is not an object. *)
Definition has (k : str) (v : value) : result bool :=
  match v with
  | VObject _ | VArray _ _ =>
      Ok (match lookup k (own_entries v) with Some _ => true | None => false end)
  | _ => Throw TypeError
  end.

Fixpoint replace_entry (k : str) (x : value) (ps : list (str * value))
  : list (str * value) :=
  match ps with
  | [] => [(k, x)]
  | (k', v) :: ps' =>
      if str_eqb k k' then (k', x) :: ps' else (k', v) :: replace_entry k x ps'
  end.

(** [v.k = x] on an object or an array, for a name [k] that is not an index:
    an existing property keeps its place, a new one is enumerated last. *)
Definition set (v : value) (k : str) (x : value) : value :=
  match v with
  | VObject own => VObject (replace_entry k x own)
  | VArray elems named => VArray elems (replace_entry k x named)
  | _ => v
  end.

(** ** Sorting *)

(** [Array.prototype.sort] without a comparator is stable; [lt x y] says that
    the comparator puts [x] strictly before [y]. *)
Section Sort.
Context {A : Type} (lt : A -> A -> bool).

Fixpoint insert (x : A) (l : list A) : list A :=
  match l with
  | [] => [x]
  | y :: l' => if lt y x then y :: insert x l' else x :: y :: l'
  end.

Fixpoint sort (l : list A) : list A :=
  match l with
  | [] => []
  | x :: l' => insert x (sort l')
  end.
End Sort.

(** The default comparator: [undefined] goes last, everything else is
    compared through ToString. *)
Definition value_ltb (x y : value) : bool :=
  match x, y with
  | VUndefined, _ => false
  | _, VUndefined => true
  | _, _ =>
      match toString x, toString y with
      | Ok a, Ok b => str_ltb a b
      | _, _ => false
      end
  end.

Definition defined (v : value) : bool :=
  match v with VUndefined => false | _ => true end.

(** [Array.prototype.sort] without a comparator.  The comparator is called
    on pairs of elements other than [undefined], so that with two or more of
    them each one is converted to a string, and a conversion that throws
    ends the sort. *)
Definition Array_sort (elems : list value) : result (list value) :=
  match filter defined elems with
  | [] | [_] => Ok (sort value_ltb elems)
  | compared => _ <- mapM toString compared ;; Ok (sort value_ltb elems)
  end.

(** ** The order of the keys of a parsed object *)

(** The array index that a property name stands for, if any: the name is
    the decimal form, without a sign and without leading zeros, of an integer
    below [2^32 - 1]. *)
Definition array_index (k : str) : option N :=
  match k with
  | [] => None
  | c :: k' =>
      if forallb digit k &&
         (negb (Ascii.eqb c "0") || match k' with [] => true | _ => false end)
      then
        let i := fold_left (fun n d => n * 10 + (N.of_nat (nat_of_ascii d) - 48))%N
                   k 0%N in
        if (i <? 4294967295)%N then Some i else None
      else None
  end.

Definition is_index (kv : str * value) : bool :=
  match array_index (fst kv) with Some _ => true | None => false end.

Definition index_ltb (a b : str * value) : bool :=
  match array_index (fst a), array_index (fst b) with
  | Some i, Some j => (i <? j)%N
  | _, _ => false
  end.

(** The properties of the object that [JSON.parse] makes of the members of
    an object text, as [Object.keys] enumerates them.  Each member creates
    its property or, when the name is there already, replaces the value where
    it stands; the enumeration then gives the names that are array indices
    first, in ascending numeric order, and the other names in the order of
    their creation. *)
Definition JSON_object (members : list (str * value)) : list (str * value) :=
  let created :=
    fold_left (fun own kv => replace_entry (fst kv) (snd kv) own) members [] in
  sort index_ltb (filter is_index created) ++
  filter (fun kv => negb (is_index kv)) created.

(** ** The generator *)

Definition START_TOKEN : str := lit "<!-- START Autogenerated - DO NOT EDIT -->".
Definition END_TOKEN : str := lit "<!-- END Autogenerated - DO NOT EDIT -->".

Arguments START_TOKEN : simpl never.
Arguments END_TOKEN : simpl never.

Definition strike (key : str) : str := lit "~~" ++ key ++ lit "~~".

(** [getTruthyKeys]: the keys of [obj], without the experimental ones, a key
    with a falsy value wrapped in [~~].  [Object.keys] has thrown already when
    [obj] is [null] or [undefined], so the reads of [obj[key]] do not. *)
Definition getTruthyKeys (obj : value) : result (list str) :=
  keys <- Object_keys obj ;;
  Ok (map (fun key => if truthy (prop obj key) then key else strike key)
        (filter (fun key => negb (startsWith key (lit "__exp"))) keys)).

(** One turn of the [forEach] of [processObjWithInnerKeys]: what is pushed
    for [key]. *)
Definition innerKeysEntry (obj : value) (key : str) : result str :=
  match prop obj key with
  | VArray elems _ =>
      sorted <- Array_sort elems ;;
      joined <- Array_join (lit ", ") sorted ;;
      Ok (key ++ lit " (" ++ joined ++ lit ")")
  | v =>
      if jstype_eqb (typeof v) TyObject then
        innerKeys <- getTruthyKeys v ;;
        Ok (key ++ lit " (" ++ join (lit ", ") (sort str_ltb innerKeys) ++ lit ")")
      else Ok key
  end.

Fixpoint innerKeysLoop (obj : value) (kvs : list str) : result (list str) :=
  match kvs with
  | [] => Ok []
  | key :: kvs' =>
      e <- innerKeysEntry obj key ;;
      rtn <- innerKeysLoop obj kvs' ;;
      Ok (e :: rtn)
  end.

(** [processObjWithInnerKeys].  The source sorts an array value in place;
    the loop reads it again only to sort and join it, so the order it is left
    in is not observed.  A conversion to a string that throws ends the
    loop. *)
Definition processObjWithInnerKeys (obj : value) : result (list str) :=
  kvs <- getTruthyKeys obj ;;
  innerKeysLoop obj kvs.

(** The two [if]s inside [augmentSupports]: [color] is [supports.color]; the
    result is that object after the assignment, if any. *)
Definition defaultColorKey (color : value) (k : str) : result value :=
  if jstype_eqb (typeof color) TyObject then
    present <- has k color ;;
    if negb present then Ok (set color k (VBool true)) else Ok color
  else Ok color.

(** [augmentSupports].  The source assigns into the object [supports.color]
    and returns [supports]; here the updated object is put back under
    [color], in its place. *)
Definition augmentSupports (supports : value) : result value :=
  if truthy supports then
    hasColor <- has (lit "color") supports ;;
    if hasColor then
      let color := prop supports (lit "color") in
      color1 <- defaultColorKey color (lit "background") ;;
      color2 <- defaultColorKey color1 (lit "text") ;;
      Ok (set supports (lit "color") color2)
    else Ok supports
  else Ok supports.

(** [a || b]. *)
Definition or_else (a b : value) : value := if truthy a then a else b.

Definition strings (l : list str) : value := VArray (map VString l) [].

Definition NL : str := [ascii_of_nat 10].
Definition TAB : str := [ascii_of_nat 9].

(** [${ list || list.sort().join( ', ' ) }]: the right operand is
    evaluated only when the left one is falsy, which an array never is. *)
Definition list_text (l : value) : result str :=
  if truthy l then toString l
  else
    match l with
    | VArray elems _ =>
        sorted <- Array_sort elems ;;
        Array_join (lit ", ") sorted
    | _ => Throw TypeError
    end.

(** The template literal of [readBlockJSON]: its substitutions are
    converted to strings from left to right. *)
Definition template (blockjson supportsList attributes : value) : result str :=
  title <- toString (prop blockjson (lit "title")) ;;
  name <- toString (prop blockjson (lit "name")) ;;
  description <-
    toString (or_else (prop blockjson (lit "description")) (VString [])) ;;
  name' <- toString (prop blockjson (lit "name")) ;;
  category <- toString (or_else (prop blockjson (lit "category")) (VString [])) ;;
  ancestor <- toString (or_else (prop blockjson (lit "ancestor")) (VString [])) ;;
  parent <- toString (or_else (prop blockjson (lit "parent")) (VString [])) ;;
  supports <- list_text supportsList ;;
  attrs <- list_text attributes ;;
  Ok (NL ++ lit "## " ++ title ++ lit " - " ++ name ++ NL ++
      NL ++
      description ++ NL ++
      NL ++
      lit "-" ++ TAB ++ lit "**Name:** " ++ name' ++ NL ++
      lit "-" ++ TAB ++ lit "**Category:** " ++ category ++ NL ++
      lit "-   **Ancestor:** " ++ ancestor ++ NL ++
      lit "-   **Parent:** " ++ parent ++ NL ++
      lit "-" ++ TAB ++ lit "**Supports:** " ++ supports ++ NL ++
      lit "-" ++ TAB ++ lit "**Attributes:** " ++ attrs ++ NL).

(** [readBlockJSON], on the parsed content of the file. *)
Definition readBlockJSON (blockjson : value) : result str :=
  name <- get blockjson (lit "name") ;;
  if jstype_eqb (typeof name) TyUndefined then Ok []
  else
    supportsList <-
      (if negb (jstype_eqb (typeof (prop blockjson (lit "supports"))) TyUndefined)
       then
         supportsAugmented <- augmentSupports (prop blockjson (lit "supports")) ;;
         if truthy supportsAugmented
         then processObjWithInnerKeys supportsAugmented
         else Ok []
       else Ok []) ;;
    attributes <-
      (if negb (jstype_eqb (typeof (prop blockjson (lit "attributes"))) TyUndefined)
       then getTruthyKeys (prop blockjson (lit "attributes"))
       else Ok []) ;;
    template blockjson (strings supportsList) (strings attributes).

(** The [forEach] over the files: [autogen += markup]. *)
Fixpoint generate (files : list value) : result str :=
  match files with
  | [] => Ok []
  | file :: files' =>
      markup <- readBlockJSON file ;;
      rest <- generate files' ;;
      Ok (markup ++ rest)
  end.

(** ** Regular expressions *)

(** The regular expressions of the two programs are sequences of literal
    text, [c*] and [c*?] over a character class [c], and [c+].  A class is
    its membership test. *)
Inductive atom : Type :=
| Lit (s : str)
| Star (greedy : bool) (c : ascii -> bool)
| Plus (c : ascii -> bool).

Definition regex := list atom.

(** A match of a sequence of atoms: the text each atom consumed, and the
    text left over. *)
Definition submatch : Type := (list str * str)%type.

Definition piece (p : str) (m : option submatch) : option submatch :=
  match m with
  | Some (ps, rest) => Some (p :: ps, rest)
  | None => None
  end.

Definition push (a : ascii) (m : option submatch) : option submatch :=
  match m with
  | Some (p :: ps, rest) => Some ((a :: p) :: ps, rest)
  | _ => None
  end.

Definition first_of (m1 m2 : option submatch) : option submatch :=
  match m1 with
  | Some x => Some x
  | None => m2
  end.

(** The quantifier, with the rest of the pattern as its continuation [k]:
    a greedy one tries to take one more character before it tries [k], a
    lazy one tries [k] first. *)
Fixpoint star (greedy : bool) (c : ascii -> bool)
    (k : str -> option submatch) (s : str) : option submatch :=
  match s with
  | a :: s' =>
      if c a then
        if greedy then first_of (push a (star greedy c k s')) (piece [] (k s))
        else first_of (piece [] (k s)) (push a (star greedy c k s'))
      else piece [] (k s)
  | [] => piece [] (k s)
  end.

(** The backtracking matcher at the start of [s]: the first match in the
    priority order. *)
Fixpoint rmatch (r : regex) (s : str) : option submatch :=
  match r with
  | [] => Some ([], s)
  | Lit l :: r' =>
      match strip_prefix l s with
      | Some s' => piece l (rmatch r' s')
      | None => None
      end
  | Star greedy c :: r' => star greedy c (rmatch r') s
  | Plus c :: r' =>
      match s with
      | a :: s' => if c a then push a (star true c (rmatch r') s') else None
      | [] => None
      end
  end.

(** [RegExp.prototype.exec] for a pattern without the global or sticky flag:
    the match at the leftmost position that has one, as the text before it,
    the pieces of the match, and the text after it. *)
Fixpoint exec (r : regex) (s : str) : option (str * list str * str) :=
  match rmatch r s with
  | Some (ps, rest) => Some ([], ps, rest)
  | None =>
      match s with
      | [] => None
      | a :: s' =>
          match exec r s' with
          | Some (pre, ps, rest) => Some (a :: pre, ps, rest)
          | None => None
          end
      end
  end.

(** GetSubstitution for a pattern without capture groups: [$$], [$&], [$`]
    and [$'] are replaced, every other [$] stands for itself. *)
Fixpoint getSubstitution (matched before after replacement : str) : str :=
  match replacement with
  | [] => []
  | a :: t =>
      if Ascii.eqb a "$" then
        match t with
        | c :: t' =>
            if Ascii.eqb c "$" then "$" :: getSubstitution matched before after t'
            else if Ascii.eqb c "&" then
              matched ++ getSubstitution matched before after t'
            else if Ascii.eqb c "`" then
              before ++ getSubstitution matched before after t'
            else if Ascii.eqb c "'" then
              after ++ getSubstitution matched before after t'
            else a :: getSubstitution matched before after t
        | [] => [a]
        end
      else a :: getSubstitution matched before after t
  end.

(** [String.prototype.replace] with such a pattern and a replacement string:
    the first match is replaced, a text without a match is returned as it is. *)
Definition String_replace (s : str) (r : regex) (replacement : str) : str :=
  match exec r s with
  | Some (pre, ps, rest) =>
      pre ++ getSubstitution (concat ps) pre rest replacement ++ rest
  | None => s
  end.

(** [[^]]: every character. *)
Definition any_char (_ : ascii) : bool := true.

(** [new RegExp( START_TOKEN + '[^]*' + END_TOKEN )]: no character of the
    two tokens is special in a pattern. *)
Definition TOKEN_PATTERN : regex :=
  [Lit START_TOKEN; Star true any_char; Lit END_TOKEN].

(** The last two statements before the write: the delimiters are added back
    and the marked region of the document is replaced. *)
Definition splice (docsContent autogen : str) : str :=
  let autogen := START_TOKEN ++ NL ++ autogen ++ NL ++ END_TOKEN in
  String_replace docsContent TOKEN_PATTERN autogen.

(** The script between its reads and its write: [files] are the parsed
    descriptor files in the order of discovery, [docsContent] the
    documentation file as read; the result is the text to write back.  The
    reads and the write themselves are in [main]. *)
Definition run (files : list value) (docsContent : str) : result str :=
  autogen <- generate files ;;
  Ok (splice docsContent autogen).

(** ** What the matcher finds *)

(** The texts an atom matches. *)
Definition accepts (a : atom) (p : str) : Prop :=
  match a with
  | Lit l => p = l
  | Star _ c => forallb c p = true
  | Plus c => p <> [] /\ forallb c p = true
  end.

(** [s] has a match of [r]: it is some text, then one accepted piece for
    each atom, then some text. *)
Definition has_match (r : regex) (s : str) : Prop :=
  exists pre ps rest, s = pre ++ concat ps ++ rest /\ Forall2 accepts r ps.

(** ** Occurrences of a text *)

(** The positions at which [pat] occurs in [s], in increasing order,
    counted from [i]. *)
Fixpoint occurrences_from (pat s : str) (i : nat) : list nat :=
  (if startsWith s pat then [i] else []) ++
  match s with
  | [] => []
  | _ :: s' => occurrences_from pat s' (S i)
  end.

Definition occurrences (pat s : str) : list nat := occurrences_from pat s 0.


(** ** The code-freeze-exception workflow *)

(** [[a-zA-Z0-9_\-]]. *)
Definition name_char (c : ascii) : bool :=
  ((97 <=? nat_of_ascii c) && (nat_of_ascii c <=? 122))%nat ||
  ((65 <=? nat_of_ascii c) && (nat_of_ascii c <=? 90))%nat ||
  digit c || Ascii.eqb c "_" || Ascii.eqb c "-".

(** The text of a capture group that spans the [n] atoms from atom [i]. *)
Definition capture (i n : nat) (ps : list str) : str :=
  concat (firstn n (skipn i ps)).

Definition RELEASE_QUESTION : str := lit "Which release does this request apply to?".
Definition PR_QUESTION : str := lit "Which PR needs to be included?".
Arguments RELEASE_QUESTION : simpl never.
Arguments PR_QUESTION : simpl never.

(** [/Which release does this request apply to\?.*?\n([0-9]+\.[0-9]+)/s]:
    with the [s] flag the dot is every character; group 1 is atoms 3 to 5. *)
Definition releaseRegex : regex :=
  [Lit RELEASE_QUESTION; Star false any_char; Lit NL;
   Plus digit; Lit (lit "."); Plus digit].

(** [/Which PR needs to be included\?.*?\n(https:\/\/github\.com\/[a-zA-Z0-9_\-]+\/[a-zA-Z0-9_\-]+\/pull\/([0-9]+))/s]:
    group 1 is atoms 3 to 8, group 2 is atom 8. *)
Definition prRegex : regex :=
  [Lit PR_QUESTION; Star false any_char; Lit NL;
   Lit (lit "https://github.com/"); Plus name_char; Lit (lit "/");
   Plus name_char; Lit (lit "/pull/"); Plus digit].

(** What a script step ends with: [core.setOutput], [core.setFailed], or an
    exception that the script does not catch, which the action reports as an
    unhandled error and fails the step with. *)
Inductive step_result : Type :=
| SetOutput (name value : str)
| SetFailed (message : str)
| Unhandled (e : error).

Definition NO_RELEASE : str :=
  lit "No valid release number found after the 'Which release does this request apply to?' section. Aborting.".
Definition NO_PR : str :=
  lit "No valid PR found after the 'Which PR' section. Aborting.".

(** The script of step [extract-release], on [event.issue.body], which is
    the text of the issue, or [null] ([None]) for an issue without text:
    [body.match] then throws. *)
Definition extract_release (body : option str) : step_result :=
  match body with
  | None => Unhandled TypeError
  | Some body =>
      match exec releaseRegex body with
      | Some (_, ps, _) =>
          let releaseNumber := capture 3 3 ps in
          if truthy (VString releaseNumber)
          then SetOutput (lit "RELEASE_NUMBER") releaseNumber
          else SetFailed NO_RELEASE
      | None => SetFailed NO_RELEASE
      end
  end.

(** The script of step [extract-pr]. *)
Definition extract_pr (body : option str) : step_result :=
  match body with
  | None => Unhandled TypeError
  | Some body =>
      match exec prRegex body with
      | Some (_, ps, _) =>
          let prNumber := capture 8 1 ps in
          if truthy (VString prNumber)
          then SetOutput (lit "PR_NUMBER") prNumber
          else SetFailed NO_PR
      | None => SetFailed NO_PR
      end
  end.

(** The upper-case form of an ASCII letter. *)
Definition upper (c : ascii) : ascii :=
  if ((97 <=? nat_of_ascii c) && (nat_of_ascii c <=? 122))%nat
  then ascii_of_nat (nat_of_ascii c - 32)
  else c.

(** [a == b] in an expression of the workflow, on two strings: the
    comparison ignores case.  The right operand is always a literal of ASCII
    characters here; a letter outside ASCII has no ASCII character as its
    other case, so folding the ASCII letters decides the same. *)
Definition expr_eq (a b : str) : bool :=
  str_eqb (map upper a) (map upper b).

(** The part of [github.event] the workflow reads; the body of an issue
    without text is [null]. *)
Record event : Type := {
  label_name : str;
  issue_body : option str;
  issue_title : str;
  issue_html_url : str;
  repository_owner : str;
  repository_name : str
}.

(** The commands the jobs run. *)
Inductive action : Type :=
| PrAddLabel (repo pr label : str)        (* gh pr edit pr --add-label label --repo repo *)
| IssueMilestone (issue milestone : str)  (* gh issue edit issue --milestone milestone *)
| IssueComment (issue body : str)         (* gh issue comment issue --body body *)
| NotifySlack (text : str).

(** How a job ends: [Failure] with the message of [core.setFailed],
    [Errored] on an exception that a script did not catch. *)
Inductive conclusion : Type :=
| Success
| Failure (message : str)
| Errored (e : error)
| Skipped.

Record job : Type := {
  job_conclusion : conclusion;
  job_actions : list action;
  job_outputs : list (str * str)
}.

(** Job [prep]. *)
Definition prep (ev : event) : job :=
  if expr_eq (label_name ev) (lit "CFE Approved")
     || expr_eq (label_name ev) (lit "CFE Rejected")
  then
    match extract_release (issue_body ev) with
    | SetOutput _ releaseNumber =>
        {| job_conclusion := Success; job_actions := [];
           job_outputs := [(lit "release_number", releaseNumber)] |}
    | SetFailed message =>
        {| job_conclusion := Failure message; job_actions := [];
           job_outputs := [] |}
    | Unhandled e =>
        {| job_conclusion := Errored e; job_actions := [];
           job_outputs := [] |}
    end
  else {| job_conclusion := Skipped; job_actions := []; job_outputs := [] |}.

Definition output (j : job) (name : str) : str :=
  match find (fun kv => str_eqb name (fst kv)) (job_outputs j) with
  | Some kv => snd kv
  | None => []
  end.

(** Job [cfe-approved]: it needs [prep], so it is skipped unless [prep]
    succeeded; a failed step ends the job before the steps after it. *)
Definition cfe_approved (ev : event) : job :=
  if expr_eq (label_name ev) (lit "CFE Approved") then
    match job_conclusion (prep ev) with
    | Success =>
        match extract_pr (issue_body ev) with
        | SetOutput _ prNumber =>
            let MILESTONE := output (prep ev) (lit "release_number") ++ lit ".0" in
            {| job_conclusion := Success;
               job_actions :=
                 [ PrAddLabel
                     (repository_owner ev ++ lit "/" ++ repository_name ev)
                     prNumber (lit "cherry pick to trunk");
                   IssueMilestone (issue_html_url ev) MILESTONE;
                   IssueComment (issue_html_url ev)
                     (lit "This request has been approved. Please merge the PR to release branch.");
                   NotifySlack
                     (lit ":white_check_mark: CFE request approved: " ++
                      issue_title ev ++ NL ++ issue_html_url ev ++ NL) ];
               job_outputs := [] |}
        | SetFailed message =>
            {| job_conclusion := Failure message; job_actions := [];
               job_outputs := [] |}
        | Unhandled e =>
            {| job_conclusion := Errored e; job_actions := [];
               job_outputs := [] |}
        end
    | _ => {| job_conclusion := Skipped; job_actions := []; job_outputs := [] |}
    end
  else {| job_conclusion := Skipped; job_actions := []; job_outputs := [] |}.

(** The conclusion of the run over the two jobs: a failed job fails it. *)
Definition run_conclusion (ev : event) : conclusion :=
  match job_conclusion (prep ev) with
  | Failure message => Failure message
  | Errored e => Errored e
  | _ => job_conclusion (cfe_approved ev)
  end.

(** ** Notions used in the statements *)

(** [s] has a start token and, somewhere after it, an end token. *)
Definition marked (s : str) : Prop :=
  exists pre mid suf, s = pre ++ START_TOKEN ++ mid ++ END_TOKEN ++ suf.

(** [e] does not start with the experimental prefix. *)
Definition not_experimental (e : str) : Prop :=
  startsWith e (lit "__exp") = false.

(** [e] starts with the text [p]. *)
Definition has_prefix (p e : str) : Prop := exists rest, e = p ++ rest.

(** The truthy-key list as the specification words it, over entries in a
    given order: an entry whose key starts with [__exp] gives nothing,
    another one gives its key when its value is truthy and the key between
    two [~~] when it is falsy. *)
Definition truthy_key_list (entries : list (str * value)) : list str :=
  flat_map (fun kv =>
              if str_eqb (firstn 5 (fst kv)) (lit "__exp") then []
              else if truthy (snd kv) then [fst kv]
              else [lit "~~" ++ fst kv ++ lit "~~"])
    entries.

(** One or more digits. *)
Definition number (d : str) : Prop := d <> [] /\ forallb digit d = true.

(** One or more characters of an owner or repository name. *)
Definition name (d : str) : Prop := d <> [] /\ forallb name_char d = true.

(** The question about the release, and on a later line, at its start,
    [MAJOR.MINOR]. *)
Definition release_pattern (body : str) : Prop :=
  exists pre x major minor rest,
    body = pre ++ RELEASE_QUESTION ++ x ++ NL ++
           major ++ lit "." ++ minor ++ rest /\
    number major /\ number minor.

(** The question about the pull request, and on a later line, at its start,
    the address of a pull request on GitHub. *)
Definition pr_pattern (body : str) : Prop :=
  exists pre x owner repo n rest,
    body = pre ++ PR_QUESTION ++ x ++ NL ++
           lit "https://github.com/" ++ owner ++ lit "/" ++ repo ++
           lit "/pull/" ++ n ++ rest /\
    name owner /\ name repo /\ number n.

(** The pattern of the release number as the specification words it: the
    question and, on a later line, [MAJOR.MINOR], wherever on that line. *)
Definition release_wording (body : str) : Prop :=
  exists pre x y major minor rest,
    body = pre ++ RELEASE_QUESTION ++ x ++ NL ++ y ++
           major ++ lit "." ++ minor ++ rest /\
    number major /\ number minor.

(** The pattern of the pull request as the specification words it: the
    question, followed by the address of a pull request. *)
Definition pr_wording (body : str) : Prop :=
  exists pre x owner repo n rest,
    body = pre ++ PR_QUESTION ++ x ++
           lit "https://github.com/" ++ owner ++ lit "/" ++ repo ++
           lit "/pull/" ++ n ++ rest /\
    name owner /\ name repo /\ number n.

(** The properties [ps], with [k] bound to [true] at the end when [ps] has
    no [k]. *)
Definition withDefault (k : str) (ps : list (str * value)) : list (str * value) :=
  match lookup k ps with
  | Some _ => ps
  | None => ps ++ [(k, VBool true)]
  end.

(** An object or an array: what the [in] operator accepts on its right. *)
Definition isObject (v : value) : bool :=
  match v with
  | VObject _ | VArray _ _ => true
  | _ => false
  end.

(** A property name that does not start with a digit, so is not an index. *)
Definition named_key (k : str) : bool :=
  match k with
  | c :: _ => negb (digit c)
  | [] => true
  end.

(** [a <= b] in the order of the default sort. *)
Definition str_leb (a b : str) : bool := negb (str_ltb b a).

(** ** The walk over the directory *)

(** An entry of a directory: a file, or a directory with its own entries in
    the order [readdirSync] lists them. *)
Inductive fsnode : Type :=
| FsFile (name : str)
| FsDir (name : str) (entries : list fsnode).

(** [filePath.replace( /\\/g, '/' )]: every backslash becomes a slash. *)
Definition slashes (filePath : str) : str :=
  map (fun c => if Ascii.eqb c "\" then "/" else c) filePath.

Section Walk.
(** [path.join] and [path.extname] of the runtime. *)
Variable path_join : str -> str -> str.
Variable path_extname : str -> str.

(** One turn of the [forEach] of [getFiles], for the entry [file] of [dir];
    [filesArray] is the array that all the calls push to. *)
Fixpoint getFilesEntry (dir : str) (file : fsnode) (filesArray : list str)
    (fileExtension : str) : list str :=
  let filePath := path_join dir (match file with
                                 | FsFile name => name
                                 | FsDir name _ => name
                                 end) in
  match file with
  | FsDir _ entries =>
      (fix forEach (entries : list fsnode) (filesArray : list str) : list str :=
         match entries with
         | [] => filesArray
         | e :: entries' =>
             forEach entries' (getFilesEntry filePath e filesArray fileExtension)
         end) entries filesArray
  | FsFile name =>
      if str_eqb (path_extname name) fileExtension
      then filesArray ++ [slashes filePath]
      else filesArray
  end.

(** [getFiles( dir, filesArray, fileExtension )], where [entries] is what
    [dir] contains. *)
Definition getFiles (dir : str) (entries : list fsnode) (filesArray : list str)
    (fileExtension : str) : list str :=
  fold_left (fun filesArray file => getFilesEntry dir file filesArray fileExtension)
    entries filesArray.

(** [file_at dir e d name]: the entry [e] of directory [dir] is the file
    [name] of [d = dir], or a directory that has the file [name] in its
    directory [d], at any depth. *)
Inductive file_at : str -> fsnode -> str -> str -> Prop :=
| at_file (dir name : str) : file_at dir (FsFile name) dir name
| at_dir (dir sub : str) (entries : list fsnode) (e : fsnode) (d name : str) :
    In e entries -> file_at (path_join dir sub) e d name ->
    file_at dir (FsDir sub entries) d name.
End Walk.

(** ** The script *)

(** What the script finds on disk: the entries of the blocks directory
    ([None] when [readdirSync] or [statSync] throws during the walk), what
    [require] gives for a path ([None] when the file cannot be read or does
    not parse), the text of the documentation file ([None] when
    [readFileSync] throws) and whether [writeFileSync] can write that file.
    A directory lists a name once, so that each file is required once. *)
Record disk : Type := {
  blocks : option (list fsnode);
  required : str -> option value;
  docs : option str;
  docs_writable : bool
}.

(** The exceptions that end a run before the write. *)
Inductive failure : Type :=
| WalkFailed
| RequireFailed (file : str)
| Thrown (e : error)
| ReadFailed
| WriteFailed.

(** The [forEach] over the paths: [require] and [readBlockJSON] file by
    file, [autogen += markup]. *)
Fixpoint forEachFile (d : disk) (files : list str) (autogen : str)
  : failure + str :=
  match files with
  | [] => inr autogen
  | file :: files' =>
      match required d file with
      | None => inl (RequireFailed file)
      | Some blockjson =>
          match readBlockJSON blockjson with
          | Throw e => inl (Thrown e)
          | Ok markup => forEachFile d files' (autogen ++ markup)
          end
      end
  end.

Section Script.
Variable path_join : str -> str -> str.
Variable path_extname : str -> str.
(** The path of the blocks directory, resolved from that of the script. *)
Variable BLOCK_LIBRARY_DIR : str.

(** The top level of the script: the text written to the documentation
    file, or the exception that ended the run, in which case nothing is
    written. *)
Definition main (d : disk) : failure + str :=
  match blocks d with
  | None => inl WalkFailed
  | Some entries =>
      let files :=
        getFiles path_join path_extname BLOCK_LIBRARY_DIR entries [] (lit ".json") in
      match forEachFile d files [] with
      | inl e => inl e
      | inr autogen =>
          match docs d with
          | None => inl ReadFailed
          | Some docsContent =>
              let docsContent := splice docsContent autogen in
              if docs_writable d then inr docsContent else inl WriteFailed
          end
      end
  end.
End Script.

(** ** The other jobs of the workflow *)

(** The commands of the jobs: those of [action], and the one that closes
    the issue. *)
Inductive command : Type :=
| Gh (a : action)
| IssueClose (issue comment : str).   (* gh issue close --comment comment issue *)

(** Job [cfe-created]; its only step continues on error. *)
Definition cfe_created (ev : event) : conclusion * list command :=
  if expr_eq (label_name ev) (lit "code freeze exception") then
    (Success,
     [Gh (NotifySlack (lit ":arrow_right: New CFE request: " ++
                       issue_title ev ++ NL ++ issue_html_url ev ++ NL))])
  else (Skipped, []).

(** Job [cfe-rejected]: it needs [prep]. *)
Definition cfe_rejected (ev : event) : conclusion * list command :=
  if expr_eq (label_name ev) (lit "CFE Rejected") then
    match job_conclusion (prep ev) with
    | Success =>
        let MILESTONE := output (prep ev) (lit "release_number") ++ lit ".0" in
        (Success,
         [Gh (IssueMilestone (issue_html_url ev) MILESTONE);
          IssueClose
            (issue_html_url ev ++ lit ". Please switch the base to trunk and merge.")
            (lit "Closing issue as CFE is rejected - " ++ issue_html_url ev);
          Gh (NotifySlack (lit ":x: CFE request rejected: " ++
                           issue_title ev ++ NL ++ issue_html_url ev ++ NL))])
    | _ => (Skipped, [])
    end
  else (Skipped, []).

(** The commands of a whole run, job by job. *)
Definition run_commands (ev : event) : list command :=
  snd (cfe_created ev) ++ map Gh (job_actions (cfe_approved ev)) ++
  snd (cfe_rejected ev).

(** ** The coupon form *)

(** The props of [TotalsCoupon] that the component reads; [hasOnSubmit] says
    whether [onSubmit] is given. *)
Record TotalsCouponProps : Type := {
  isLoading : bool;
  displayCouponForm : bool;
  hasOnSubmit : bool
}.

(** The two pieces of state of the component. *)
Record coupon_state : Type := {
  couponValue : str;
  isCouponFormHidden : bool
}.

(** The initial values given to [useState]. *)
Definition coupon_initial (props : TotalsCouponProps) : coupon_state :=
  {| couponValue := []; isCouponFormHidden := negb (displayCouponForm props) |}.

Definition setCouponValue (v : str) (s : coupon_state) : coupon_state :=
  {| couponValue := v; isCouponFormHidden := isCouponFormHidden s |}.

Definition setIsCouponFormHidden (b : bool) (s : coupon_state) : coupon_state :=
  {| couponValue := couponValue s; isCouponFormHidden := b |}.

(** [classnames( base, { 'screen-reader-text': isCouponFormHidden } )]. *)
Definition formWrapperClass (s : coupon_state) : str :=
  lit "wc-block-components-totals-coupon__content" ++
  (if isCouponFormHidden s then lit " screen-reader-text" else []).

(** What is rendered: the link, or the form with the class of its wrapper,
    the value of the input and the [disabled] of the button. *)
Inductive coupon_view : Type :=
| CouponLink
| CouponForm (wrapperClass value : str) (disabled : bool).

Definition coupon_render (props : TotalsCouponProps) (s : coupon_state)
  : coupon_view :=
  if isCouponFormHidden s then CouponLink
  else CouponForm (formWrapperClass s) (couponValue s)
         (isLoading props || match couponValue s with [] => true | _ => false end).

(** What happens to the component: a click on the link, a change of the
    input, a click on the button, and the promise of [onSubmit] resolving
    with [result]. *)
Inductive coupon_event : Type :=
| AnchorClick
| Change (newCouponValue : str)
| SubmitClick
| Resolved (result : bool).

(** The handlers. *)
Definition coupon_step (props : TotalsCouponProps) (s : coupon_state)
    (e : coupon_event) : coupon_state :=
  match e with
  | AnchorClick => setIsCouponFormHidden false s
  | Change newCouponValue => setCouponValue newCouponValue s
  | SubmitClick =>
      if hasOnSubmit props then s
      else setIsCouponFormHidden true (setCouponValue [] s)
  | Resolved result =>
      if result then setIsCouponFormHidden true (setCouponValue [] s) else s
  end.

(** An event can come from what is rendered: the click on the link from the
    link, a change and a click on the button from the form, the click only
    when the button is not disabled.  A promise can resolve at any time. *)
Definition coupon_enabled (props : TotalsCouponProps) (s : coupon_state)
    (e : coupon_event) : bool :=
  match e, coupon_render props s with
  | AnchorClick, CouponLink => true
  | Change _, CouponForm _ _ _ => true
  | SubmitClick, CouponForm _ _ disabled => negb disabled
  | Resolved _, _ => true
  | _, _ => false
  end.

(** The states the component can be in when it was mounted with [props]:
    each event comes from a render with the props of that moment,
    [current]. *)
Inductive coupon_reachable (props : TotalsCouponProps) : coupon_state -> Prop :=
| reach_initial : coupon_reachable props (coupon_initial props)
| reach_step (current : TotalsCouponProps) (s : coupon_state) (e : coupon_event) :
    coupon_reachable props s -> coupon_enabled current s e = true ->
    coupon_reachable props (coupon_step current s e).

(** ** Text without [$] *)

(** No character of [s] is [$]. *)
Definition plain (s : str) : bool :=
  forallb (fun c => negb (Ascii.eqb c "$")) s.

(** No string and no property name inside [v] has a [$]. *)
Fixpoint plain_value (v : value) : bool :=
  match v with
  | VString s => plain s
  | VArray elems named =>
      forallb plain_value elems &&
      forallb (fun kv => match kv with
                         | (k, x) => plain k && plain_value x
                         end) named
  | VObject own =>
      forallb (fun kv => match kv with
                         | (k, x) => plain k && plain_value x
                         end) own
  | _ => true
  end.

(** A property whose name and value have no [$]. *)
Definition plain_entry (kv : str * value) : Prop :=
  plain (fst kv) = true /\ plain_value (snd kv) = true.
(** * Properties *)

(** ** Strings *)

Lemma str_eqb_eq (a b : str) : str_eqb a b = true <-> a = b.
Proof.
  unfold str_eqb. destruct (list_eq_dec ascii_dec a b); split; congruence.
Qed.

Lemma str_eqb_refl (a : str) : str_eqb a a = true.
Proof. now apply str_eqb_eq. Qed.

Lemma str_eqb_neq (a b : str) : str_eqb a b = false <-> a <> b.
Proof.
  unfold str_eqb. destruct (list_eq_dec ascii_dec a b); split; congruence.
Qed.

Lemma strip_prefix_app (p r : str) : strip_prefix p (p ++ r) = Some r.
Proof.
  induction p as [|a p IH]; simpl; [reflexivity|].
  now rewrite Ascii.eqb_refl.
Qed.

Lemma strip_prefix_some (p s r : str) :
  strip_prefix p s = Some r -> s = p ++ r.
Proof.
  revert s. induction p as [|a p IH]; simpl; intros s H.
  - congruence.
  - destruct s as [|b s]; [discriminate|].
    destruct (Ascii.eqb a b) eqn:E; [|discriminate].
    apply Ascii.eqb_eq in E. subst b. f_equal. now apply IH.
Qed.

Lemma startsWith_app (p r : str) : startsWith (p ++ r) p = true.
Proof. unfold startsWith. now rewrite strip_prefix_app. Qed.

Lemma startsWith_true (s p : str) :
  startsWith s p = true <-> exists r, s = p ++ r.
Proof.
  unfold startsWith. split.
  - destruct (strip_prefix p s) eqn:E; [|discriminate].
    intros _. exists s0. now apply strip_prefix_some.
  - intros [r ->]. now rewrite strip_prefix_app.
Qed.

(** ** The matcher *)

Lemma piece_some p m ps rest :
  piece p m = Some (ps, rest) ->
  exists ps', ps = p :: ps' /\ m = Some (ps', rest).
Proof.
  destruct m as [[ps0 rest0]|]; simpl; [|discriminate].
  intros H. injection H as <- <-. now exists ps0.
Qed.

Lemma push_some a m ps rest :
  push a m = Some (ps, rest) ->
  exists p ps', ps = (a :: p) :: ps' /\ m = Some (p :: ps', rest).
Proof.
  destruct m as [[[|p ps0] rest0]|]; simpl; try discriminate.
  intros H. injection H as <- <-. now exists p, ps0.
Qed.

Lemma first_of_some m1 m2 x :
  first_of m1 m2 = Some x -> m1 = Some x \/ (m1 = None /\ m2 = Some x).
Proof. destruct m1; simpl; intros H; [left|right]; auto. Qed.

Section StarFacts.
Variables (greedy : bool) (c : ascii -> bool) (k : str -> option submatch).

Lemma star_sound s ps rest :
  star greedy c k s = Some (ps, rest) ->
  exists p ps' t,
    ps = p :: ps' /\ forallb c p = true /\ s = p ++ t /\
    k t = Some (ps', rest).
Proof.
  revert ps rest. induction s as [|a s IH]; intros ps rest H; simpl in H.
  - apply piece_some in H as (ps' & -> & Hk).
    now exists [], ps', [].
  - assert (Hstop : forall ps rest, piece [] (k (a :: s)) = Some (ps, rest) ->
              exists p ps' t, ps = p :: ps' /\ forallb c p = true /\
                a :: s = p ++ t /\ k t = Some (ps', rest)).
    { intros ps0 rest0 H0. apply piece_some in H0 as (ps' & -> & Hk).
      now exists [], ps', (a :: s). }
    assert (Hmore : c a = true -> forall ps rest,
              push a (star greedy c k s) = Some (ps, rest) ->
              exists p ps' t, ps = p :: ps' /\ forallb c p = true /\
                a :: s = p ++ t /\ k t = Some (ps', rest)).
    { intros Hc ps0 rest0 H0. apply push_some in H0 as (p & ps' & -> & Hs).
      apply IH in Hs as (p1 & ps1 & t & E & Hall & -> & Hk).
      injection E as <- <-.
      exists (a :: p), ps', t. simpl. rewrite Hc, Hall. auto. }
    destruct (c a) eqn:Hc; [|now apply Hstop].
    destruct greedy; apply first_of_some in H as [H|[_ H]]; auto.
Qed.

Lemma star_complete p t :
  forallb c p = true -> k t <> None -> star greedy c k (p ++ t) <> None.
Proof.
  intros Hall Hk.
  assert (Hzero : forall u, k u <> None -> star greedy c k u <> None).
  { intros u Hu. destruct (k u) as [[ps rest]|] eqn:E; [|congruence].
    destruct u as [|a u]; simpl; rewrite ?E; simpl; try discriminate.
    destruct (c a); [|discriminate].
    destruct greedy; simpl; [|discriminate].
    destruct (push a (star true c k u)); discriminate. }
  induction p as [|a p IH]; simpl app; [now apply Hzero|].
  simpl in Hall. apply andb_prop in Hall as [Hc Hall].
  specialize (IH Hall). simpl. rewrite Hc.
  destruct (star greedy c k (p ++ t)) as [[ps rest]|] eqn:E; [|congruence].
  apply star_sound in E as E'. destruct E' as (p1 & ps1 & t1 & -> & _).
  simpl. destruct greedy; simpl; [discriminate|].
  destruct (piece [] (k (a :: p ++ t))); discriminate.
Qed.
End StarFacts.

Lemma rmatch_sound r : forall s ps rest,
  rmatch r s = Some (ps, rest) ->
  s = concat ps ++ rest /\ Forall2 accepts r ps.
Proof.
  induction r as [|a r IH]; intros s ps rest H; simpl in H.
  - injection H as <- <-. split; [reflexivity|constructor].
  - destruct a as [l|g c|c].
    + destruct (strip_prefix l s) as [s'|] eqn:E; [|discriminate].
      apply strip_prefix_some in E. subst s.
      apply piece_some in H as (ps' & -> & H). apply IH in H as [-> H].
      split; [simpl; now rewrite app_assoc|]. now constructor.
    + apply star_sound in H as (p & ps' & t & -> & Hall & -> & H).
      apply IH in H as [-> H].
      split; [simpl; now rewrite app_assoc|]. now constructor.
    + destruct s as [|x s]; [discriminate|].
      destruct (c x) eqn:Hc; [|discriminate].
      apply push_some in H as (p & ps' & -> & H).
      apply star_sound in H as (p1 & ps1 & t & E & Hall & -> & H).
      injection E as <- <-. apply IH in H as [-> H].
      split; [simpl; now rewrite app_assoc|].
      constructor; [|assumption]. simpl. rewrite Hc, Hall.
      split; [discriminate|reflexivity].
Qed.

Lemma rmatch_complete r : forall ps rest,
  Forall2 accepts r ps -> rmatch r (concat ps ++ rest) <> None.
Proof.
  induction r as [|a r IH]; intros ps rest H; inversion H; subst; simpl.
  - discriminate.
  - rename y into p, l' into ps'. rewrite <- app_assoc.
    specialize (IH ps' rest H4).
    destruct a as [l|g c|c]; simpl in H2.
    + subst p. rewrite strip_prefix_app.
      destruct (rmatch r (concat ps' ++ rest)) as [[? ?]|]; simpl; congruence.
    + now apply star_complete.
    + destruct H2 as [Hne Hall]. destruct p as [|x p]; [congruence|].
      simpl in Hall. apply andb_prop in Hall as [Hc Hall]. simpl. rewrite Hc.
      pose proof (star_complete true c (rmatch r) p _ Hall IH) as Hs.
      destruct (star true c (rmatch r) (p ++ concat ps' ++ rest))
        as [[qs rest']|] eqn:E; [|congruence].
      apply star_sound in E as (p1 & ps1 & t1 & -> & _). discriminate.
Qed.

Lemma exec_sound r : forall s pre ps rest,
  exec r s = Some (pre, ps, rest) ->
  s = pre ++ concat ps ++ rest /\ Forall2 accepts r ps.
Proof.
  induction s as [|a s IH]; intros pre ps rest H; simpl in H.
  - destruct (rmatch r []) as [[ps0 rest0]|] eqn:E; [|discriminate].
    injection H as <- <- <-. now apply rmatch_sound in E.
  - destruct (rmatch r (a :: s)) as [[ps0 rest0]|] eqn:E.
    + injection H as <- <- <-. now apply rmatch_sound in E.
    + destruct (exec r s) as [[[pre0 ps0] rest0]|] eqn:E'; [|discriminate].
      injection H as <- <- <-. destruct (IH _ _ _ eq_refl) as [-> HF].
      split; [reflexivity|assumption].
Qed.

(** The match starts at the leftmost position that has one. *)
Lemma exec_leftmost r : forall s pre ps rest,
  exec r s = Some (pre, ps, rest) ->
  forall p1 p2, pre = p1 ++ p2 -> p2 <> [] ->
  rmatch r (p2 ++ concat ps ++ rest) = None.
Proof.
  induction s as [|a s IH]; intros pre ps rest H p1 p2 Hp Hne; simpl in H.
  - destruct (rmatch r []) as [[ps0 rest0]|] eqn:E; [|discriminate].
    injection H as <- <- <-. destruct p1, p2; simpl in Hp; congruence.
  - destruct (rmatch r (a :: s)) as [[ps0 rest0]|] eqn:E.
    + injection H as <- <- <-. destruct p1, p2; simpl in Hp; congruence.
    + destruct (exec r s) as [[[pre0 ps0] rest0]|] eqn:E'; [|discriminate].
      injection H as <- <- <-.
      apply exec_sound in E' as Hs. destruct Hs as [Hs _].
      destruct p1 as [|b p1]; simpl in Hp.
      * subst p2. simpl. now rewrite <- Hs.
      * injection Hp as _ Hp. now apply (IH _ _ _ eq_refl p1 p2).
Qed.

Lemma exec_complete r pre s :
  rmatch r s <> None -> exec r (pre ++ s) <> None.
Proof.
  intros H. induction pre as [|a pre IH]; simpl.
  - destruct s as [|b s]; simpl;
      destruct (rmatch r _) as [[? ?]|]; congruence.
  - destruct (rmatch r (a :: pre ++ s)) as [[? ?]|]; [discriminate|].
    destruct (exec r (pre ++ s)) as [[[? ?] ?]|]; congruence.
Qed.

(** [exec] finds a match exactly when the text has one. *)
Lemma exec_some_iff r s : exec r s <> None <-> has_match r s.
Proof.
  split.
  - destruct (exec r s) as [[[pre ps] rest]|] eqn:E; [|congruence].
    intros _. apply exec_sound in E as [-> H]. now exists pre, ps, rest.
  - intros (pre & ps & rest & -> & H).
    apply exec_complete. now apply rmatch_complete.
Qed.

Section Quantifiers.
Variables (c : ascii -> bool) (k : str -> option submatch).

(** A greedy quantifier takes the longest run after which the rest of the
    pattern matches. *)
Lemma star_greedy_longest s p ps rest :
  star true c k s = Some (p :: ps, rest) ->
  forall p2 t2, s = p2 ++ t2 -> forallb c p2 = true -> k t2 <> None ->
  length p2 <= length p.
Proof.
  revert p ps rest. induction s as [|a s IH]; intros p ps rest H p2 t2 Hs Hall Hk.
  - destruct p2; [simpl; lia|discriminate].
  - destruct p2 as [|b p2]; [simpl; lia|].
    simpl in Hs. injection Hs as <- ->.
    simpl in Hall. apply andb_prop in Hall as [Hc Hall].
    simpl in H. rewrite Hc in H.
    pose proof (star_complete true c k p2 t2 Hall Hk) as Hne.
    destruct (star true c k (p2 ++ t2)) as [[qs rest']|] eqn:E; [|congruence].
    apply star_sound in E as E'. destruct E' as (q & qs' & t & -> & _).
    simpl in H. injection H as <- <- <-.
    simpl. apply le_n_S. eapply IH; eauto.
Qed.

(** A lazy quantifier takes the shortest one. *)
Lemma star_lazy_shortest s p ps rest :
  star false c k s = Some (p :: ps, rest) ->
  forall p2 t2, s = p2 ++ t2 -> k t2 <> None -> length p <= length p2.
Proof.
  revert p ps rest. induction s as [|a s IH]; intros p ps rest H p2 t2 Hs Hk.
  - simpl in H. apply piece_some in H as (? & E & _). injection E as -> _.
    simpl; lia.
  - simpl in H.
    assert (Hstop : piece [] (k (a :: s)) = Some (p :: ps, rest) ->
              length p <= length p2).
    { intros H0. apply piece_some in H0 as (? & E & _). injection E as -> _.
      simpl; lia. }
    destruct (c a) eqn:Hc; [|now apply Hstop].
    apply first_of_some in H as [H|[Hnone H]]; [now apply Hstop|].
    destruct p2 as [|b p2].
    + simpl in Hs. subst t2.
      destruct (k (a :: s)) as [[? ?]|]; [discriminate|congruence].
    + simpl in Hs. injection Hs as <- ->.
      apply push_some in H as (q & qs & E & H). injection E as -> ->.
      simpl. apply le_n_S. eapply IH; eauto.
Qed.
End Quantifiers.

(** ** Occurrences of a text *)

Lemma In_occurrences_from pat : forall s i n,
  In n (occurrences_from pat s i) <->
  exists pre rest, s = pre ++ pat ++ rest /\ n = i + length pre.
Proof.
  induction s as [|a s IH]; intros i n; simpl; rewrite in_app_iff.
  - split.
    + intros [H|[]]. destruct (startsWith [] pat) eqn:E; [|destruct H].
      destruct H as [<-|[]]. apply startsWith_true in E as [r E].
      exists [], r. simpl. split; [assumption|lia].
    + intros (pre & rest & E & ->). left.
      destruct pre; [|discriminate]. simpl in E.
      symmetry in E. apply app_eq_nil in E as [-> ->].
      left. simpl. lia.
  - split.
    + intros [H|H].
      * destruct (startsWith (a :: s) pat) eqn:E; [|destruct H].
        destruct H as [<-|[]]. apply startsWith_true in E as [r E].
        exists [], r. simpl. split; [assumption|lia].
      * apply IH in H as (pre & rest & -> & ->).
        exists (a :: pre), rest. simpl. split; [reflexivity|lia].
    + intros (pre & rest & E & ->). destruct pre as [|b pre]; simpl in E.
      * left. rewrite E, startsWith_app. left. simpl. lia.
      * right. injection E as <- ->. apply IH.
        exists pre, rest. split; [reflexivity|simpl; lia].
Qed.

Lemma In_occurrences pat s n :
  In n (occurrences pat s) <->
  exists pre rest, s = pre ++ pat ++ rest /\ length pre = n.
Proof.
  unfold occurrences. rewrite In_occurrences_from.
  split; intros (pre & rest & E & H); exists pre, rest; split; auto; simpl in *; lia.
Qed.

Lemma occurrences_from_sorted pat : forall s i,
  StronglySorted lt (occurrences_from pat s i).
Proof.
  induction s as [|a s IH]; intros i; simpl.
  - destruct (startsWith [] pat); simpl; repeat constructor.
  - assert (Hlt : Forall (lt i) (occurrences_from pat s (S i))).
    { apply Forall_forall. intros n Hn.
      apply In_occurrences_from in Hn as (pre & rest & _ & ->). lia. }
    destruct (startsWith (a :: s) pat); simpl; [constructor|]; auto.
Qed.

Lemma occurrences_first pat s i rest n :
  occurrences pat s = i :: rest -> In n (occurrences pat s) -> i <= n.
Proof.
  intros E Hn. pose proof (occurrences_from_sorted pat s 0) as Hs.
  fold (occurrences pat s) in Hs. rewrite E in Hs, Hn.
  inversion Hs as [|? ? _ Hall]; subst.
  destruct Hn as [<-|Hn]; [lia|].
  rewrite Forall_forall in Hall. apply Hall in Hn. lia.
Qed.

Lemma StronglySorted_last (l : list nat) j n :
  StronglySorted lt (l ++ [j]) -> In n (l ++ [j]) -> n <= j.
Proof.
  induction l as [|a l IH]; simpl; intros Hs Hn.
  - destruct Hn as [<-|[]]. lia.
  - inversion Hs as [|? ? Hs' Hall]; subst. destruct Hn as [<-|Hn].
    + rewrite Forall_forall in Hall.
      assert (a < j) by (apply Hall, in_or_app; right; now left). lia.
    + now apply IH.
Qed.

Lemma occurrences_last pat s init j n :
  occurrences pat s = init ++ [j] -> In n (occurrences pat s) -> n <= j.
Proof.
  intros E Hn. pose proof (occurrences_from_sorted pat s 0) as Hs.
  fold (occurrences pat s) in Hs. rewrite E in Hs, Hn.
  eapply StronglySorted_last; eauto.
Qed.

(** ** The marked region *)

Lemma app_eq_split {A} (l1 l2 l3 l4 : list A) :
  l1 ++ l2 = l3 ++ l4 -> length l1 <= length l3 ->
  exists m, l3 = l1 ++ m /\ l2 = m ++ l4.
Proof.
  revert l3. induction l1 as [|a l1 IH]; intros l3 E Hlen; simpl in *.
  - now exists l3.
  - destruct l3 as [|b l3]; simpl in *; [lia|].
    injection E as <- E. apply IH in E as (m & -> & ->); [|lia].
    now exists m.
Qed.

Lemma app_eq_length {A} (l1 l2 l3 l4 : list A) :
  l1 ++ l2 = l3 ++ l4 -> length l1 = length l3 -> l1 = l3 /\ l2 = l4.
Proof.
  intros E Hlen. apply app_eq_split in E as (m & E1 & E2); [|lia].
  assert (m = []) as ->.
  { apply (f_equal (@length A)) in E1. rewrite length_app in E1.
    destruct m; simpl in *; [reflexivity|lia]. }
  rewrite app_nil_r in E1. now subst.
Qed.

Lemma exec_inv r : forall s pre ps rest,
  exec r s = Some (pre, ps, rest) ->
  exists s', s = pre ++ s' /\ rmatch r s' = Some (ps, rest).
Proof.
  induction s as [|a s IH]; intros pre ps rest H; simpl in H.
  - destruct (rmatch r []) as [[ps0 rest0]|] eqn:E; [|discriminate].
    injection H as <- <- <-. now exists [].
  - destruct (rmatch r (a :: s)) as [[ps0 rest0]|] eqn:E.
    + injection H as <- <- <-. now exists (a :: s).
    + destruct (exec r s) as [[[pre0 ps0] rest0]|] eqn:E'; [|discriminate].
      injection H as <- <- <-. destruct (IH _ _ _ eq_refl) as (s' & -> & H).
      now exists s'.
Qed.

Lemma accepts_TOKEN_PATTERN ps :
  Forall2 accepts TOKEN_PATTERN ps ->
  exists mid, ps = [START_TOKEN; mid; END_TOKEN].
Proof.
  intros H. inversion H as [|? p1 ? ps1 H1 H']; subst.
  inversion H' as [|? p2 ? ps2 H2 H'']; subst.
  inversion H'' as [|? p3 ? ps3 H3 H''']; subst.
  inversion H'''; subst. simpl in H1, H3. subst. now exists p2.
Qed.

Lemma TOKEN_PATTERN_matches mid suf :
  rmatch TOKEN_PATTERN (START_TOKEN ++ mid ++ END_TOKEN ++ suf) <> None.
Proof.
  replace (START_TOKEN ++ mid ++ END_TOKEN ++ suf)
    with (concat [START_TOKEN; mid; END_TOKEN] ++ suf)
    by (cbn [concat]; now rewrite app_nil_r, <- !app_assoc).
  apply rmatch_complete. repeat constructor. simpl.
  apply forallb_forall. reflexivity.
Qed.

(** The pattern matches from the first start token to the last end token. *)
Lemma exec_TOKEN_PATTERN (pre mid suf : str) :
  let doc := pre ++ START_TOKEN ++ mid ++ END_TOKEN ++ suf in
  (forall n, In n (occurrences START_TOKEN doc) -> length pre <= n) ->
  (forall n, In n (occurrences END_TOKEN doc) ->
             n <= length (pre ++ START_TOKEN ++ mid)) ->
  exec TOKEN_PATTERN doc = Some (pre, [START_TOKEN; mid; END_TOKEN], suf).
Proof.
  intros doc Hfirst Hlast.
  destruct (exec TOKEN_PATTERN doc) as [[[pre' ps] rest']|] eqn:E.
  2:{ exfalso. revert E. apply exec_complete, TOKEN_PATTERN_matches. }
  pose proof (exec_leftmost _ _ _ _ _ E) as Hleft.
  apply exec_inv in E as (s' & Hdoc & Hm).
  apply rmatch_sound in Hm as Hs. destruct Hs as [-> Hacc].
  apply accepts_TOKEN_PATTERN in Hacc as [mid' ->].
  cbn [concat] in *. rewrite app_nil_r in *. rewrite <- !app_assoc in *.
  (* the start of the match *)
  assert (Hge : length pre <= length pre').
  { apply Hfirst, In_occurrences. now exists pre', (mid' ++ END_TOKEN ++ rest'). }
  assert (Hpre : pre' = pre).
  { unfold doc in Hdoc. apply app_eq_split in Hdoc as (p2 & Hp & Hrest); [|lia].
    destruct p2 as [|b p2]; [now rewrite app_nil_r in Hp|].
    exfalso. apply (TOKEN_PATTERN_matches mid suf). rewrite Hrest.
    apply (Hleft pre (b :: p2)); [assumption|discriminate]. }
  subst pre'. unfold doc in Hdoc. apply app_inv_head in Hdoc.
  apply app_inv_head in Hdoc.
  (* the end of the match *)
  assert (Hle : length mid' <= length mid).
  { assert (H : length (pre ++ START_TOKEN ++ mid')
                <= length (pre ++ START_TOKEN ++ mid)).
    { apply Hlast, In_occurrences. exists (pre ++ START_TOKEN ++ mid'), rest'.
      split; [|reflexivity]. unfold doc. rewrite Hdoc, <- !app_assoc. reflexivity. }
    rewrite !length_app in H. lia. }
  assert (Hlong : length mid <= length mid').
  { unfold TOKEN_PATTERN in Hm. cbn [rmatch] in Hm.
    rewrite strip_prefix_app in Hm.
    apply piece_some in Hm as (ps' & E & Hm). injection E as <-.
    eapply star_greedy_longest; [exact Hm|symmetry; exact Hdoc|..].
    - apply forallb_forall. reflexivity.
    - cbn [rmatch]. rewrite strip_prefix_app. discriminate. }
  apply app_eq_length in Hdoc as [-> Hdoc]; [|lia].
  apply app_inv_head in Hdoc. now subst.
Qed.

(** The start token does not overlap an end token that begins after it. *)
Lemma tokens_do_not_overlap (s : str) (i j : nat) :
  In i (occurrences START_TOKEN s) -> In j (occurrences END_TOKEN s) ->
  i < j -> i + length START_TOKEN <= j.
Proof.
  intros Hi Hj Hlt.
  apply In_occurrences in Hi as (pre & r1 & E1 & <-).
  apply In_occurrences in Hj as (pre2 & r2 & E2 & <-).
  destruct (le_lt_dec (length pre + length START_TOKEN) (length pre2)) as [|Hov];
    [assumption|exfalso].
  assert (H1 : forall d, nth_error s (length pre + d)
                         = nth_error (START_TOKEN ++ r1) d).
  { intros d. rewrite E1. rewrite nth_error_app2 by lia. f_equal. lia. }
  assert (H2 : nth_error s (length pre2) = Some "<").
  { rewrite E2. rewrite nth_error_app2 by lia. now rewrite Nat.sub_diag. }
  replace (length pre2) with (length pre + (length pre2 - length pre)) in H2 by lia.
  rewrite H1 in H2.
  remember (length pre2 - length pre) as d eqn:Hd.
  assert (Hd1 : 1 <= d) by lia.
  assert (Hd2 : d < length START_TOKEN) by lia.
  clear - H2 Hd1 Hd2.
  destruct d as [|d]; [lia|].
  do 41 (destruct d as [|d]; [vm_compute in H2; discriminate|]).
  vm_compute in Hd2. lia.
Qed.

(** ** The replacement text *)

Section Substitution.
Variables matched before after : str.

Let subst := getSubstitution matched before after.

Lemma getSubstitution_plain (x y : str) :
  forallb (fun c => negb (Ascii.eqb c "$")) x = true ->
  subst (x ++ y) = x ++ subst y.
Proof.
  induction x as [|a x IH]; simpl; intros H; [reflexivity|].
  apply andb_prop in H as [Ha H]. apply negb_true_iff in Ha.
  unfold subst in *. simpl. rewrite Ha. f_equal. now apply IH.
Qed.

Lemma getSubstitution_cons (a : ascii) (t : str) :
  subst (a :: t) =
  if Ascii.eqb a "$" then
    match t with
    | c :: t' =>
        if Ascii.eqb c "$" then "$" :: subst t'
        else if Ascii.eqb c "&" then matched ++ subst t'
        else if Ascii.eqb c "`" then before ++ subst t'
        else if Ascii.eqb c "'" then after ++ subst t'
        else a :: subst t
    | [] => [a]
    end
  else a :: subst t.
Proof. reflexivity. Qed.

(** A replacement text followed by a character that no [$] pattern ends
    with is substituted on its own. *)
Lemma getSubstitution_app (c : ascii) (y : str) :
  Ascii.eqb c "$" = false -> Ascii.eqb c "&" = false ->
  Ascii.eqb c "`" = false -> Ascii.eqb c "'" = false ->
  forall x, subst (x ++ c :: y) = subst x ++ subst (c :: y).
Proof.
  intros H1 H2 H3 H4 x.
  assert (H : forall n x, length x <= n ->
              subst (x ++ c :: y) = subst x ++ subst (c :: y)).
  { clear x. induction n as [|n IH]; intros x Hlen.
    - destruct x; [reflexivity|simpl in Hlen; lia].
    - destruct x as [|a t]; [reflexivity|]. simpl in Hlen.
      rewrite <- app_comm_cons.
      rewrite (getSubstitution_cons a (t ++ c :: y)), (getSubstitution_cons a t).
      destruct (Ascii.eqb a "$") eqn:Ea.
      + destruct t as [|d t'].
        * cbn [app]. rewrite H1, H2, H3, H4. reflexivity.
        * rewrite <- app_comm_cons. simpl in Hlen.
          destruct (Ascii.eqb d "$");
            [rewrite <- app_comm_cons; f_equal; apply IH; lia|].
          destruct (Ascii.eqb d "&");
            [rewrite <- app_assoc; f_equal; apply IH; lia|].
          destruct (Ascii.eqb d "`");
            [rewrite <- app_assoc; f_equal; apply IH; lia|].
          destruct (Ascii.eqb d "'");
            [rewrite <- app_assoc; f_equal; apply IH; lia|].
          rewrite <- app_comm_cons. f_equal.
          rewrite app_comm_cons. apply IH. simpl. lia.
      + rewrite <- app_comm_cons. f_equal. apply IH. lia. }
  now apply (H (length x)).
Qed.

(** The delimiters around the generated text are copied as they are. *)
Lemma getSubstitution_delimited (autogen : str) :
  subst (START_TOKEN ++ NL ++ autogen ++ NL ++ END_TOKEN)
  = START_TOKEN ++ NL ++ subst autogen ++ NL ++ END_TOKEN.
Proof.
  rewrite getSubstitution_plain by reflexivity. f_equal.
  rewrite getSubstitution_plain by reflexivity. f_equal.
  unfold NL at 1. cbn [app].
  rewrite getSubstitution_app by reflexivity. reflexivity.
Qed.
End Substitution.

(** ** The splice *)

Lemma splice_no_match (docsContent autogen : str) :
  exec TOKEN_PATTERN docsContent = None ->
  splice docsContent autogen = docsContent.
Proof. unfold splice, String_replace. now intros ->. Qed.

Lemma splice_match (docsContent autogen pre mid suf : str) :
  exec TOKEN_PATTERN docsContent = Some (pre, [START_TOKEN; mid; END_TOKEN], suf) ->
  splice docsContent autogen
  = pre ++ (START_TOKEN ++ NL ++
            getSubstitution (START_TOKEN ++ mid ++ END_TOKEN) pre suf autogen ++
            NL ++ END_TOKEN) ++ suf.
Proof.
  unfold splice, String_replace. intros ->.
  rewrite getSubstitution_delimited. cbn [concat]. now rewrite app_nil_r.
Qed.

(** The document around the first start token and the last end token. *)
Lemma region_split (s : str) (i j : nat) :
  In i (occurrences START_TOKEN s) -> In j (occurrences END_TOKEN s) ->
  i < j ->
  exists mid,
    s = firstn i s ++ START_TOKEN ++ mid ++ END_TOKEN
          ++ skipn (j + length END_TOKEN) s /\
    length (firstn i s) = i /\
    length (firstn i s ++ START_TOKEN ++ mid) = j.
Proof.
  intros Hi Hj Hlt.
  pose proof (tokens_do_not_overlap s i j Hi Hj Hlt) as Hsep.
  apply In_occurrences in Hi as (pre & r1 & E1 & <-).
  apply In_occurrences in Hj as (pre2 & r2 & E2 & <-).
  assert (E : (pre ++ START_TOKEN) ++ r1 = pre2 ++ END_TOKEN ++ r2)
    by (rewrite <- app_assoc; congruence).
  apply app_eq_split in E as (mid & Hp & Hr); [|rewrite length_app; lia].
  exists mid. subst pre2 r1.
  assert (F : firstn (length pre) s = pre)
    by (rewrite E1, firstn_app, Nat.sub_diag, firstn_all; simpl; apply app_nil_r).
  assert (S : skipn (length ((pre ++ START_TOKEN) ++ mid) + length END_TOKEN) s = r2).
  { rewrite E2, <- length_app, app_assoc.
    rewrite skipn_app, Nat.sub_diag, skipn_all. reflexivity. }
  rewrite F, S. repeat split.
  - rewrite E1 at 1. reflexivity.
  - now rewrite <- app_assoc.
Qed.

Lemma splice_region (s autogen : str) (i j : nat) :
  In i (occurrences START_TOKEN s) ->
  (forall n, In n (occurrences START_TOKEN s) -> i <= n) ->
  In j (occurrences END_TOKEN s) ->
  (forall n, In n (occurrences END_TOKEN s) -> n <= j) ->
  i < j ->
  splice s autogen
  = firstn i s ++
    (START_TOKEN ++ NL ++
     getSubstitution (firstn (j + length END_TOKEN - i) (skipn i s))
       (firstn i s) (skipn (j + length END_TOKEN) s) autogen ++
     NL ++ END_TOKEN) ++
    skipn (j + length END_TOKEN) s.
Proof.
  intros Hi Hfirst Hj Hlast Hlt.
  destruct (region_split s i j Hi Hj Hlt) as (mid & Hs & Hpre & Hmid).
  set (pre := firstn i s) in *. set (suf := skipn (j + length END_TOKEN) s) in *.
  assert (Hm : firstn (j + length END_TOKEN - i) (skipn i s)
               = START_TOKEN ++ mid ++ END_TOKEN).
  { rewrite Hs. rewrite <- Hpre at 2.
    rewrite skipn_app, Nat.sub_diag, skipn_all. cbn [skipn app].
    replace (START_TOKEN ++ mid ++ END_TOKEN ++ suf)
      with ((START_TOKEN ++ mid ++ END_TOKEN) ++ suf)
      by now rewrite <- !app_assoc.
    rewrite !length_app in Hmid.
    rewrite firstn_app.
    replace (j + length END_TOKEN - i)
      with (length (START_TOKEN ++ mid ++ END_TOKEN))
      by (rewrite !length_app; lia).
    rewrite firstn_all, Nat.sub_diag. cbn [firstn]. apply app_nil_r. }
  rewrite Hm. apply splice_match. rewrite Hs.
  apply exec_TOKEN_PATTERN; rewrite <- Hs.
  - intros n Hn. rewrite Hpre. now apply Hfirst.
  - intros n Hn. rewrite Hmid. now apply Hlast.
Qed.

(** ** Rendering *)

Lemma bind_ok {A B} (r : result A) (k : A -> result B) (b : B) :
  bind r k = Ok b -> exists a, r = Ok a /\ k a = Ok b.
Proof. destruct r as [a|e]; simpl; intros H; [now exists a|discriminate]. Qed.

Lemma Ok_inj {A} (a b : A) : Ok a = Ok b -> a = b.
Proof. intros H. now injection H. Qed.


Lemma mapM_ok {A B} (f : A -> result B) (l : list A) (l' : list B) :
  mapM f l = Ok l' <-> Forall2 (fun a b => f a = Ok b) l l'.
Proof.
  revert l'. induction l as [|a l IH]; simpl; intros l'.
  - split; intros H; [injection H as <-; constructor|now inversion H].
  - split; intros H.
    + apply bind_ok in H as (b & Hb & H). apply bind_ok in H as (bs & Hbs & H).
      injection H as <-. constructor; [exact Hb|now apply IH].
    + inversion H as [|? b ? bs Hb Hbs]; subst. rewrite Hb. cbn [bind].
      apply IH in Hbs. now rewrite Hbs.
Qed.

(** The conversion of an array is the join of its elements with a comma. *)
Lemma toString_VArray (elems : list value) (named : list (str * value)) :
  toString (VArray elems named) = Array_join (lit ",") elems.
Proof.
  unfold Array_join. cbn [toString]. f_equal.
  induction elems as [|x l IH]; [reflexivity|].
  cbn [mapM]. rewrite <- IH. reflexivity.
Qed.

Lemma join_text_strings (l : list str) :
  mapM join_text (map VString l) = Ok l.
Proof. induction l as [|x l IH]; simpl; [reflexivity|now rewrite IH]. Qed.

(** An array of strings in a template literal: its elements as they are,
    separated by a comma. *)
Lemma toString_strings (l : list str) :
  toString (strings l) = Ok (join (lit ",") l).
Proof.
  unfold strings. rewrite toString_VArray. unfold Array_join.
  now rewrite join_text_strings.
Qed.

Lemma list_text_strings (l : list str) :
  list_text (strings l) = Ok (join (lit ",") l).
Proof. unfold list_text. cbn [truthy strings]. apply toString_strings. Qed.

(** A sort that returns gives the elements in the order of the comparator. *)
Lemma Array_sort_ok (elems sorted : list value) :
  Array_sort elems = Ok sorted -> sorted = sort value_ltb elems.
Proof.
  unfold Array_sort.
  destruct (filter defined elems) as [|a [|b l]]; intros H;
    try (now injection H as <-).
  apply bind_ok in H as (? & _ & H). now injection H as <-.
Qed.


(** ** Sorting *)

Section SortFacts.
Context {A : Type} (lt : A -> A -> bool).

Lemma insert_perm (x : A) (l : list A) : Permutation (x :: l) (insert lt x l).
Proof.
  induction l as [|y l IH]; simpl; [reflexivity|].
  destruct (lt y x); [|reflexivity].
  rewrite perm_swap. now constructor.
Qed.

Lemma sort_perm (l : list A) : Permutation l (sort lt l).
Proof.
  induction l as [|x l IH]; simpl; [reflexivity|].
  rewrite <- insert_perm. now constructor.
Qed.

Lemma sort_In (x : A) (l : list A) : In x (sort lt l) <-> In x l.
Proof.
  split; apply Permutation_in; [symmetry|]; apply sort_perm.
Qed.

Lemma sort_Forall (P : A -> Prop) (l : list A) :
  Forall P l -> Forall P (sort lt l).
Proof.
  rewrite !Forall_forall. intros H x Hx. now apply H, sort_In.
Qed.
End SortFacts.

Section SortSorted.
Context {A : Type} (lt : A -> A -> bool).
Hypothesis lt_asym : forall x y, lt x y = true -> lt y x = false.

Let le (a b : A) : Prop := lt b a = false.

Lemma insert_HdRel (x y : A) (l : list A) :
  lt x y = false -> HdRel le y l -> HdRel le y (insert lt x l).
Proof.
  intros Hxy H. destruct l as [|z l]; cbn [insert].
  - constructor. exact Hxy.
  - destruct (lt z x); constructor; [now inversion H|exact Hxy].
Qed.

Lemma insert_Sorted (x : A) (l : list A) :
  Sorted le l -> Sorted le (insert lt x l).
Proof.
  induction l as [|y l IH]; cbn [insert]; intros H.
  - repeat constructor.
  - inversion H as [|? ? Hs Hhd]; subst.
    destruct (lt y x) eqn:E.
    + constructor; [now apply IH|]. apply insert_HdRel; [|assumption].
      now apply lt_asym.
    + constructor; [assumption|]. constructor. exact E.
Qed.

Lemma sort_Sorted (l : list A) : Sorted le (sort lt l).
Proof.
  induction l as [|x l IH]; cbn [sort]; [constructor|].
  now apply insert_Sorted.
Qed.
End SortSorted.

(** ** Properties of objects *)

Lemma lookup_In (k : str) (ps : list (str * value)) (v : value) :
  lookup k ps = Some v -> In k (map fst ps).
Proof.
  induction ps as [|[k' v'] ps IH]; simpl; [discriminate|].
  destruct (str_eqb k k') eqn:E; [|auto].
  apply str_eqb_eq in E. auto.
Qed.

Lemma lookup_None (k : str) (ps : list (str * value)) :
  lookup k ps = None <-> ~ In k (map fst ps).
Proof.
  induction ps as [|[k' v'] ps IH]; simpl; [tauto|].
  destruct (str_eqb k k') eqn:E.
  - apply str_eqb_eq in E. split; [discriminate|]. intros H. exfalso. auto.
  - apply str_eqb_neq in E. rewrite IH. split; [|tauto].
    intros H [H'|H']; [congruence|tauto].
Qed.

Lemma lookup_NoDup (k : str) (v : value) (ps : list (str * value)) :
  NoDup (map fst ps) -> In (k, v) ps -> lookup k ps = Some v.
Proof.
  induction ps as [|[k' v'] ps IH]; simpl; intros Hnd Hin; [destruct Hin|].
  inversion Hnd as [|? ? Hni Hnd']; subst.
  destruct Hin as [E|Hin].
  - injection E as -> ->. now rewrite str_eqb_refl.
  - destruct (str_eqb k k') eqn:E; [|auto].
    apply str_eqb_eq in E. subst k'. exfalso. apply Hni.
    apply in_map_iff. now exists (k, v).
Qed.

Lemma lookup_replace_same (k : str) (x : value) (ps : list (str * value)) :
  lookup k (replace_entry k x ps) = Some x.
Proof.
  induction ps as [|[k' v'] ps IH]; simpl.
  - now rewrite str_eqb_refl.
  - destruct (str_eqb k k') eqn:E; simpl; now rewrite E.
Qed.

Lemma lookup_replace_other (k k' : str) (x : value) (ps : list (str * value)) :
  k' <> k -> lookup k' (replace_entry k x ps) = lookup k' ps.
Proof.
  intros Hne. induction ps as [|[k0 v0] ps IH]; simpl.
  - apply str_eqb_neq in Hne. now rewrite Hne.
  - destruct (str_eqb k k0) eqn:E; simpl; [|now rewrite IH].
    apply str_eqb_eq in E. subst k0. apply str_eqb_neq in Hne.
    now rewrite Hne.
Qed.

Lemma replace_entry_present (k : str) (x : value) (ps : list (str * value)) :
  lookup k ps <> None -> map fst (replace_entry k x ps) = map fst ps.
Proof.
  induction ps as [|[k0 v0] ps IH]; simpl; [congruence|].
  destruct (str_eqb k k0) eqn:E; simpl; [reflexivity|].
  intros H. now rewrite IH.
Qed.

Lemma replace_entry_absent (k : str) (x : value) (ps : list (str * value)) :
  lookup k ps = None -> replace_entry k x ps = ps ++ [(k, x)].
Proof.
  induction ps as [|[k0 v0] ps IH]; simpl; [reflexivity|].
  destruct (str_eqb k k0) eqn:E; [discriminate|].
  intros H. now rewrite IH.
Qed.

Lemma replace_entry_same_value (k : str) (x : value) (ps : list (str * value)) :
  lookup k ps = Some x -> replace_entry k x ps = ps.
Proof.
  induction ps as [|[k0 v0] ps IH]; simpl; [discriminate|].
  destruct (str_eqb k k0) eqn:E.
  - intros H. now injection H as ->.
  - intros H. now rewrite IH.
Qed.

(** ** The key lists *)

Lemma getTruthyKeys_VObject (own : list (str * value)) :
  getTruthyKeys (VObject own)
  = Ok (map (fun key => if truthy (prop (VObject own) key) then key else strike key)
          (filter (fun key => negb (startsWith key (lit "__exp"))) (map fst own))).
Proof. reflexivity. Qed.

Lemma strike_not_experimental (key : str) : not_experimental (strike key).
Proof. reflexivity. Qed.

(** Text that follows a key, and starts with a character that is not in
    the prefix, does not make the key experimental. *)
Lemma startsWith_app_other (p : str) (c : ascii) :
  ~ In c p ->
  forall key r, startsWith key p = false -> startsWith (key ++ c :: r) p = false.
Proof.
  unfold startsWith. intros Hc.
  induction p as [|a p IH]; intros key r; simpl; [discriminate|].
  destruct key as [|b key]; simpl.
  - intros _. destruct (Ascii.eqb a c) eqn:E; [|reflexivity].
    apply Ascii.eqb_eq in E. subst c. exfalso. apply Hc. now left.
  - destruct (Ascii.eqb a b); [|reflexivity].
    apply IH. intros H. apply Hc. now right.
Qed.

Lemma getTruthyKeys_not_experimental (obj : value) (keys : list str) :
  getTruthyKeys obj = Ok keys -> Forall not_experimental keys.
Proof.
  unfold getTruthyKeys. intros H. apply bind_ok in H as (ks & _ & H).
  injection H as <-. apply Forall_forall. intros e He.
  apply in_map_iff in He as (key & <- & Hk).
  apply filter_In in Hk as [_ Hk]. apply negb_true_iff in Hk.
  destruct (truthy (prop obj key)); [exact Hk|apply strike_not_experimental].
Qed.

(** What [processObjWithInnerKeys] pushes for a key. *)
Lemma innerKeysEntry_shape (obj : value) (key e : str) :
  innerKeysEntry obj key = Ok e ->
  e = key \/
  (exists elems named texts,
     prop obj key = VArray elems named /\
     mapM join_text (sort value_ltb elems) = Ok texts /\
     e = key ++ lit " (" ++ join (lit ", ") texts ++ lit ")") \/
  (exists innerKeys,
     getTruthyKeys (prop obj key) = Ok innerKeys /\
     e = key ++ lit " (" ++ join (lit ", ") (sort str_ltb innerKeys) ++ lit ")").
Proof.
  unfold innerKeysEntry.
  destruct (prop obj key) as [| |b|n|s|elems named|own] eqn:E; simpl; intros H;
    try (injection H as <-; now left).
  - discriminate.
  - apply bind_ok in H as (sorted & Hs & H).
    apply bind_ok in H as (joined & Hj & H). injection H as <-.
    apply Array_sort_ok in Hs. subst sorted. unfold Array_join in Hj.
    apply bind_ok in Hj as (texts & Ht & Hj). injection Hj as <-.
    right; left. now exists elems, named, texts.
  - injection H as <-. right; right. eexists. split; reflexivity.
Qed.

Lemma innerKeysLoop_entries (obj : value) (kvs l : list str) :
  innerKeysLoop obj kvs = Ok l ->
  Forall2 (fun key e => innerKeysEntry obj key = Ok e) kvs l.
Proof.
  revert l. induction kvs as [|key kvs IH]; simpl; intros l H.
  - injection H as <-. constructor.
  - apply bind_ok in H as (e & He & H). apply bind_ok in H as (rtn & Hr & H).
    injection H as <-. constructor; auto.
Qed.

Lemma innerKeysEntry_not_experimental (obj : value) (key e : str) :
  not_experimental key -> innerKeysEntry obj key = Ok e -> not_experimental e.
Proof.
  intros Hk H.
  assert (Happ : forall r, not_experimental (key ++ lit " (" ++ r)).
  { intros r. apply startsWith_app_other; [|exact Hk].
    simpl. intros [H0|[H0|[H0|[H0|[H0|[]]]]]]; discriminate. }
  apply innerKeysEntry_shape in H as [->|[(? & ? & ? & _ & _ & ->)|(? & _ & ->)]];
    [exact Hk|apply Happ|apply Happ].
Qed.

Lemma processObjWithInnerKeys_not_experimental (obj : value) (l : list str) :
  processObjWithInnerKeys obj = Ok l -> Forall not_experimental l.
Proof.
  unfold processObjWithInnerKeys. intros H.
  apply bind_ok in H as (kvs & Hk & H).
  apply getTruthyKeys_not_experimental in Hk.
  apply innerKeysLoop_entries in H.
  induction H as [|key e kvs l He _ IH]; constructor.
  - inversion Hk; subst. eapply innerKeysEntry_not_experimental; eauto.
  - apply IH. now inversion Hk.
Qed.

Lemma innerKeysEntry_ok (obj : value) (key : str) :
  prop obj key <> VNull -> isArray (prop obj key) = false ->
  exists e, innerKeysEntry obj key = Ok e.
Proof.
  unfold innerKeysEntry.
  destruct (prop obj key) as [| |b|n|s|elems named|own]; simpl; intros H Ha;
    try congruence; eexists; reflexivity.
Qed.

Lemma innerKeysLoop_ok (obj : value) (kvs : list str) :
  (forall key, In key kvs ->
     prop obj key <> VNull /\ isArray (prop obj key) = false) ->
  exists l, innerKeysLoop obj kvs = Ok l.
Proof.
  induction kvs as [|key kvs IH]; simpl; intros H; [now eexists|].
  destruct (innerKeysEntry_ok obj key) as [e He];
    [now apply H; left|now apply H; left|].
  destruct IH as [l Hl]; [intros k Hk; apply H; now right|].
  rewrite He, Hl. simpl. now eexists.
Qed.

(** [processObjWithInnerKeys] returns on an object none of whose values is
    [null] or an array. *)
Lemma processObjWithInnerKeys_ok (own : list (str * value)) :
  (forall k v, lookup k own = Some v -> v <> VNull /\ isArray v = false) ->
  exists l, processObjWithInnerKeys (VObject own) = Ok l.
Proof.
  intros H. unfold processObjWithInnerKeys. rewrite getTruthyKeys_VObject.
  cbn [bind]. apply innerKeysLoop_ok. intros key _.
  unfold prop. cbn [own_entries].
  destruct (lookup key own) as [v|] eqn:E; [now apply (H key)|].
  split; [discriminate|reflexivity].
Qed.

Lemma Forall2_In_l {A B} (R : A -> B -> Prop) (l1 : list A) (l2 : list B) (a : A) :
  Forall2 R l1 l2 -> In a l1 -> exists b, In b l2 /\ R a b.
Proof.
  induction 1 as [|x y l1 l2 Hxy _ IH]; simpl; intros Hin; [destruct Hin|].
  destruct Hin as [->|Hin].
  - exists y. auto.
  - destruct (IH Hin) as (b & Hb & Hr). exists b. auto.
Qed.

(** A key with a truthy value that is not experimental is in the list. *)
Lemma getTruthyKeys_In (own : list (str * value)) (k : str) (v : value) :
  lookup k own = Some v -> truthy v = true -> not_experimental k ->
  exists keys, getTruthyKeys (VObject own) = Ok keys /\ In k keys.
Proof.
  intros Hl Ht Hk. rewrite getTruthyKeys_VObject. eexists. split; [reflexivity|].
  apply in_map_iff. exists k. split.
  - unfold prop. cbn [own_entries]. now rewrite Hl, Ht.
  - apply filter_In. split; [now apply lookup_In in Hl|].
    now apply negb_true_iff.
Qed.

Lemma lookup_app (k : str) (ps qs : list (str * value)) :
  lookup k (ps ++ qs)
  = match lookup k ps with Some v => Some v | None => lookup k qs end.
Proof.
  induction ps as [|[k0 v0] ps IH]; simpl; [reflexivity|].
  destruct (str_eqb k k0); [reflexivity|exact IH].
Qed.

(** ** [augmentSupports] *)

Lemma defaultColorKey_object (color : list (str * value)) (k : str) :
  defaultColorKey (VObject color) k = Ok (VObject (withDefault k color)).
Proof.
  unfold defaultColorKey, has, withDefault.
  cbn [typeof jstype_eqb own_entries bind].
  destruct (lookup k color) eqn:E; cbn [negb set]; [reflexivity|].
  now rewrite replace_entry_absent.
Qed.

Lemma lookup_withDefault_new (k : str) (ps : list (str * value)) :
  lookup k ps = None -> lookup k (withDefault k ps) = Some (VBool true).
Proof.
  intros H. unfold withDefault. rewrite H, lookup_app, H. cbn [lookup].
  now rewrite str_eqb_refl.
Qed.

Lemma lookup_withDefault_keep (k k' : str) (v : value) (ps : list (str * value)) :
  lookup k' ps = Some v -> lookup k' (withDefault k ps) = Some v.
Proof.
  intros H. unfold withDefault.
  destruct (lookup k ps); [exact H|]. now rewrite lookup_app, H.
Qed.

Lemma lookup_withDefault_other (k k' : str) (ps : list (str * value)) :
  k' <> k -> lookup k' (withDefault k ps) = lookup k' ps.
Proof.
  intros H. apply str_eqb_neq in H. unfold withDefault.
  destruct (lookup k ps); [reflexivity|]. rewrite lookup_app. cbn [lookup].
  rewrite H. now destruct (lookup k' ps).
Qed.

Lemma augmentSupports_object (own color : list (str * value)) :
  lookup (lit "color") own = Some (VObject color) ->
  augmentSupports (VObject own)
  = (color1 <- defaultColorKey (VObject color) (lit "background") ;;
     color2 <- defaultColorKey color1 (lit "text") ;;
     Ok (VObject (replace_entry (lit "color") color2 own))).
Proof.
  intros H. unfold augmentSupports, has, prop.
  cbn [truthy own_entries bind]. rewrite H. reflexivity.
Qed.

(** ** The extraction scripts *)

Lemma any_char_all (x : str) : forallb any_char x = true.
Proof. apply forallb_forall. reflexivity. Qed.

Lemma accepts_releaseRegex (ps : list str) :
  Forall2 accepts releaseRegex ps <->
  exists x major minor,
    ps = [RELEASE_QUESTION; x; NL; major; lit "."; minor] /\
    number major /\ number minor.
Proof.
  split.
  - intros H. unfold releaseRegex in H.
    repeat match goal with
           | H : Forall2 _ (_ :: _) _ |- _ => inversion H; clear H; subst
           | H : Forall2 _ [] _ |- _ => inversion H; clear H; subst
           end.
    cbn [accepts] in *. subst. eexists _, _, _. split; [reflexivity|].
    split; assumption.
  - intros (x & major & minor & -> & Hmaj & Hmin).
    repeat constructor; cbn [accepts]; try apply Hmaj; try apply Hmin.
    apply any_char_all.
Qed.

Lemma accepts_prRegex (ps : list str) :
  Forall2 accepts prRegex ps <->
  exists x owner repo n,
    ps = [PR_QUESTION; x; NL; lit "https://github.com/"; owner; lit "/";
          repo; lit "/pull/"; n] /\
    name owner /\ name repo /\ number n.
Proof.
  split.
  - intros H. unfold prRegex in H.
    repeat match goal with
           | H : Forall2 _ (_ :: _) _ |- _ => inversion H; clear H; subst
           | H : Forall2 _ [] _ |- _ => inversion H; clear H; subst
           end.
    cbn [accepts] in *. subst. eexists _, _, _, _. split; [reflexivity|].
    repeat split; solve [apply H3 | apply H4 | apply H5 | assumption | tauto].
  - intros (x & owner & repo & n & -> & Ho & Hr & Hn).
    repeat constructor; cbn [accepts];
      try apply Ho; try apply Hr; try apply Hn.
    apply any_char_all.
Qed.

Lemma has_match_releaseRegex (body : str) :
  has_match releaseRegex body <-> release_pattern body.
Proof.
  unfold has_match, release_pattern. split.
  - intros (pre & ps & rest & -> & H).
    apply accepts_releaseRegex in H as (x & major & minor & -> & Hmaj & Hmin).
    exists pre, x, major, minor, rest. split; [|auto].
    cbn [concat]. now rewrite app_nil_r, <- !app_assoc.
  - intros (pre & x & major & minor & rest & -> & Hmaj & Hmin).
    exists pre, [RELEASE_QUESTION; x; NL; major; lit "."; minor], rest. split.
    + cbn [concat]. now rewrite app_nil_r, <- !app_assoc.
    + apply accepts_releaseRegex. now exists x, major, minor.
Qed.

Lemma has_match_prRegex (body : str) :
  has_match prRegex body <-> pr_pattern body.
Proof.
  unfold has_match, pr_pattern. split.
  - intros (pre & ps & rest & -> & H).
    apply accepts_prRegex in H as (x & owner & repo & n & -> & Ho & Hr & Hn).
    exists pre, x, owner, repo, n, rest. split; [|auto].
    cbn [concat]. now rewrite app_nil_r, <- !app_assoc.
  - intros (pre & x & owner & repo & n & rest & -> & Ho & Hr & Hn).
    exists pre,
      [PR_QUESTION; x; NL; lit "https://github.com/"; owner; lit "/";
       repo; lit "/pull/"; n], rest. split.
    + cbn [concat]. now rewrite app_nil_r, <- !app_assoc.
    + apply accepts_prRegex. now exists x, owner, repo, n.
Qed.

(** A pattern that ends with [c+] leaves no character of [c] behind it. *)
Lemma rmatch_ends_plus (c : ascii -> bool) (r : regex) :
  forall s ps rest,
    rmatch (r ++ [Plus c]) s = Some (ps, rest) ->
    match rest with
    | a :: _ => c a = false
    | [] => True
    end.
Proof.
  induction r as [|atom r IH]; intros s ps rest H.
  - cbn [app rmatch] in H. destruct s as [|a0 s]; [discriminate|].
    destruct (c a0); [|discriminate].
    apply push_some in H as (p & ps' & -> & H).
    apply star_sound in H as Hs.
    destruct Hs as (p1 & ps1 & t & E & Hall & -> & Hk).
    injection E as <- <-. cbn [rmatch] in Hk. injection Hk as _ ->.
    destruct rest as [|a rest']; [exact I|].
    destruct (c a) eqn:Ha; [|reflexivity]. exfalso.
    assert (Hlen : length (p ++ [a]) <= length p).
    { eapply star_greedy_longest; [exact H| | |].
      - now rewrite <- app_assoc.
      - rewrite forallb_app, Hall. cbn. now rewrite Ha.
      - discriminate. }
    rewrite length_app in Hlen. cbn in Hlen. lia.
  - rewrite <- app_comm_cons in H. cbn [rmatch] in H.
    destruct atom as [l|g c'|c'].
    + destruct (strip_prefix l s); [|discriminate].
      apply piece_some in H as (ps' & _ & H). now apply IH in H.
    + apply star_sound in H as (p1 & ps1 & t & _ & _ & _ & H).
      now apply IH in H.
    + destruct s as [|a0 s]; [discriminate|].
      destruct (c' a0); [|discriminate].
      apply push_some in H as (p & ps' & _ & H).
      apply star_sound in H as (p1 & ps1 & t & _ & _ & _ & H).
      now apply IH in H.
Qed.

(** A pattern that is a question, then [.*?], then a tail: the match starts
    at the first occurrence of the question, and the tail is matched at the
    first place after it where it can be. *)
Lemma exec_question_first (q : str) (tail : regex) (body pre rest : str)
    (ps : list str) :
  exec (Lit q :: Star false any_char :: tail) body = Some (pre, ps, rest) ->
  exists x ts,
    ps = q :: x :: ts /\
    Forall2 accepts tail ts /\
    body = pre ++ q ++ x ++ concat ts ++ rest /\
    (forall n, In n (occurrences q body) -> length pre <= n) /\
    (forall x2 ts2 rest2,
       x ++ concat ts ++ rest = x2 ++ concat ts2 ++ rest2 ->
       Forall2 accepts tail ts2 -> length x <= length x2).
Proof.
  intros E. pose proof (exec_leftmost _ _ _ _ _ E) as Hleft.
  apply exec_inv in E as (s' & Hbody & Hm).
  apply rmatch_sound in Hm as Hs. destruct Hs as [-> Hacc].
  destruct ps as [|p1 [|x ts]];
    [inversion Hacc|inversion Hacc as [|? ? ? ? ? H']; inversion H'|].
  apply Forall2_cons_iff in Hacc as [H1 Hacc].
  apply Forall2_cons_iff in Hacc as [_ Hts].
  cbn [accepts] in H1. rewrite H1 in *. clear H1 p1.
  cbn [concat] in *. rewrite <- !app_assoc in *.
  exists x, ts. split; [reflexivity|]. split; [exact Hts|].
  split; [exact Hbody|]. split.
  - intros n Hn. apply In_occurrences in Hn as (p1 & r & Hn & <-).
    destruct (le_lt_dec (length pre) (length p1)) as [|Hlt]; [assumption|].
    exfalso. rewrite Hbody in Hn. symmetry in Hn.
    apply app_eq_split in Hn as (m & Hpre & Hr); [|lia].
    assert (Hm' : m <> []).
    { intros ->. rewrite app_nil_r in Hpre. subst p1. lia. }
    specialize (Hleft p1 m Hpre Hm'). rewrite <- Hr in Hleft.
    replace (m ++ q ++ x ++ concat ts ++ rest)
      with ((m ++ q ++ x) ++ concat ts ++ rest) in Hr
      by now rewrite <- !app_assoc.
    apply app_eq_split in Hr as (w & _ & Hr); [|rewrite !length_app; lia].
    rewrite Hr in Hleft. revert Hleft.
    replace (q ++ w ++ concat ts ++ rest)
      with (concat (q :: w :: ts) ++ rest)
      by (cbn [concat]; now rewrite <- !app_assoc).
    apply rmatch_complete. constructor; [reflexivity|].
    constructor; [apply any_char_all|exact Hts].
  - intros x2 ts2 rest2 Hx Hts2.
    cbn [rmatch] in Hm. rewrite strip_prefix_app in Hm.
    apply piece_some in Hm as (ps' & Eps & Hm). injection Eps as <-.
    eapply star_lazy_shortest; [exact Hm|exact Hx|].
    now apply rmatch_complete.
Qed.

(** What [extract-release] ends with. *)
Lemma extract_release_cases (body : str) :
  (release_pattern body /\
   exists pre x major minor rest,
     body = pre ++ RELEASE_QUESTION ++ x ++ NL ++
            (major ++ lit "." ++ minor) ++ rest /\
     number major /\ number minor /\
     extract_release (Some body)
     = SetOutput (lit "RELEASE_NUMBER") (major ++ lit "." ++ minor)) \/
  (~ release_pattern body /\ extract_release (Some body) = SetFailed NO_RELEASE).
Proof.
  unfold extract_release.
  destruct (exec releaseRegex body) as [[[pre ps] rest]|] eqn:E.
  - left. split; [apply has_match_releaseRegex, exec_some_iff; congruence|].
    apply exec_sound in E as [-> H].
    apply accepts_releaseRegex in H as (x & major & minor & -> & Hmaj & Hmin).
    exists pre, x, major, minor, rest.
    split; [cbn [concat]; now rewrite app_nil_r, <- !app_assoc|].
    split; [assumption|]. split; [assumption|].
    unfold capture. cbn [skipn firstn concat]. rewrite app_nil_r.
    destruct Hmaj as [Hne _]. destruct major; [congruence|reflexivity].
  - right. split; [|reflexivity].
    intros H. apply has_match_releaseRegex, exec_some_iff in H. congruence.
Qed.

(** What [extract-pr] ends with. *)
Lemma extract_pr_cases (body : str) :
  (pr_pattern body /\
   exists pre x owner repo n rest,
     body = pre ++ PR_QUESTION ++ x ++ NL ++
            lit "https://github.com/" ++ owner ++ lit "/" ++ repo ++
            lit "/pull/" ++ n ++ rest /\
     name owner /\ name repo /\ number n /\
     extract_pr (Some body) = SetOutput (lit "PR_NUMBER") n) \/
  (~ pr_pattern body /\ extract_pr (Some body) = SetFailed NO_PR).
Proof.
  unfold extract_pr.
  destruct (exec prRegex body) as [[[pre ps] rest]|] eqn:E.
  - left. split; [apply has_match_prRegex, exec_some_iff; congruence|].
    apply exec_sound in E as [-> H].
    apply accepts_prRegex in H as (x & owner & repo & n & -> & Ho & Hr & Hn).
    exists pre, x, owner, repo, n, rest.
    split; [cbn [concat]; now rewrite app_nil_r, <- !app_assoc|].
    repeat (split; [assumption|]).
    unfold capture. cbn [skipn firstn concat]. rewrite app_nil_r.
    destruct Hn as [Hne _]. destruct n; [congruence|reflexivity].
  - right. split; [|reflexivity].
    intros H. apply has_match_prRegex, exec_some_iff in H. congruence.
Qed.

Lemma extract_release_iff (body : str) :
  (exists releaseNumber,
     extract_release (Some body) = SetOutput (lit "RELEASE_NUMBER") releaseNumber) <->
  release_pattern body.
Proof.
  destruct (extract_release_cases body)
    as [(Hrel & _ & _ & major & minor & _ & _ & _ & _ & Hout)|(Hrel & Hout)];
    rewrite Hout; split; intros H; try assumption.
  - now eexists.
  - destruct H as [? H]. discriminate.
  - contradiction.
Qed.


Lemma extract_pr_iff (body : str) :
  (exists prNumber, extract_pr (Some body) = SetOutput (lit "PR_NUMBER") prNumber) <->
  pr_pattern body.
Proof.
  destruct (extract_pr_cases body)
    as [(Hpr & _ & _ & _ & _ & n & _ & _ & _ & _ & _ & Hout)|(Hpr & Hout)];
    rewrite Hout; split; intros H; try assumption.
  - now eexists.
  - destruct H as [? H]. discriminate.
  - contradiction.
Qed.

Lemma extract_release_failed (body : str) :
  ~ release_pattern body -> extract_release (Some body) = SetFailed NO_RELEASE.
Proof.
  intros H. destruct (extract_release_cases body) as [(Hrel & _)|(_ & Hout)];
    [contradiction|assumption].
Qed.

Lemma extract_pr_failed (body : str) :
  ~ pr_pattern body -> extract_pr (Some body) = SetFailed NO_PR.
Proof.
  intros H. destruct (extract_pr_cases body) as [(Hpr & _)|(_ & Hout)];
    [contradiction|assumption].
Qed.

Lemma prep_approved (ev : event) :
  expr_eq (label_name ev) (lit "CFE Approved") = true ->
  prep ev
  = match extract_release (issue_body ev) with
    | SetOutput _ releaseNumber =>
        {| job_conclusion := Success; job_actions := [];
           job_outputs := [(lit "release_number", releaseNumber)] |}
    | SetFailed message =>
        {| job_conclusion := Failure message; job_actions := [];
           job_outputs := [] |}
    | Unhandled e =>
        {| job_conclusion := Errored e; job_actions := [];
           job_outputs := [] |}
    end.
Proof. intros H. unfold prep. rewrite H. reflexivity. Qed.

(** ** Extraction, with the place of the number in the body *)

Lemma extract_release_found (body output releaseNumber : str) :
  extract_release (Some body) = SetOutput output releaseNumber ->
  output = lit "RELEASE_NUMBER" /\
  exists pre x major minor rest,
    body = pre ++ RELEASE_QUESTION ++ x ++ NL ++ releaseNumber ++ rest /\
    releaseNumber = major ++ lit "." ++ minor /\
    number major /\ number minor /\
    match rest with
    | a :: _ => digit a = false
    | [] => True
    end /\
    (forall n, In n (occurrences RELEASE_QUESTION body) -> length pre <= n) /\
    (forall x2 major2 minor2 rest2,
       x ++ NL ++ releaseNumber ++ rest
       = x2 ++ NL ++ major2 ++ lit "." ++ minor2 ++ rest2 ->
       number major2 -> number minor2 -> length x <= length x2).
Proof.
  unfold extract_release.
  destruct (exec releaseRegex body) as [[[pre ps] rest]|] eqn:E; [|discriminate].
  assert (Hend : match rest with
                 | a :: _ => digit a = false
                 | [] => True
                 end).
  { apply exec_inv in E as (s' & _ & Hm).
    change releaseRegex
      with ([Lit RELEASE_QUESTION; Star false any_char; Lit NL;
             Plus digit; Lit (lit ".")] ++ [Plus digit]) in Hm.
    now apply rmatch_ends_plus in Hm. }
  apply exec_question_first in E as (x & ts & -> & Hts & Hbody & Hfirst & Hlazy).
  assert (Hacc : Forall2 accepts releaseRegex (RELEASE_QUESTION :: x :: ts)).
  { constructor; [reflexivity|]. constructor; [apply any_char_all|exact Hts]. }
  apply accepts_releaseRegex in Hacc as (x' & major & minor & Eps & Hmaj & Hmin).
  injection Eps as <- ->.
  unfold capture. cbn [skipn firstn concat] in *. rewrite app_nil_r in *.
  destruct (truthy _); [|discriminate]. intros H. injection H as <- <-.
  split; [reflexivity|].
  exists pre, x, major, minor, rest.
  split; [rewrite Hbody, <- ?app_assoc; reflexivity|]. split; [reflexivity|].
  split; [exact Hmaj|]. split; [exact Hmin|]. split; [exact Hend|].
  split; [exact Hfirst|].
  intros x2 major2 minor2 rest2 Hx Hmaj2 Hmin2.
  apply (Hlazy x2 [NL; major2; lit "."; minor2] rest2).
  - cbn [concat]. rewrite app_nil_r, <- ?app_assoc. rewrite <- Hx.
    rewrite <- ?app_assoc. reflexivity.
  - repeat constructor; cbn [accepts]; try apply Hmaj2; try apply Hmin2.
Qed.

Lemma extract_pr_found (body output prNumber : str) :
  extract_pr (Some body) = SetOutput output prNumber ->
  output = lit "PR_NUMBER" /\
  exists pre x owner repo rest,
    body = pre ++ PR_QUESTION ++ x ++ NL ++ lit "https://github.com/" ++
           owner ++ lit "/" ++ repo ++ lit "/pull/" ++ prNumber ++ rest /\
    name owner /\ name repo /\ number prNumber /\
    match rest with
    | a :: _ => digit a = false
    | [] => True
    end /\
    (forall n, In n (occurrences PR_QUESTION body) -> length pre <= n) /\
    (forall x2 owner2 repo2 n2 rest2,
       x ++ NL ++ lit "https://github.com/" ++
         owner ++ lit "/" ++ repo ++ lit "/pull/" ++ prNumber ++ rest
       = x2 ++ NL ++ lit "https://github.com/" ++
         owner2 ++ lit "/" ++ repo2 ++ lit "/pull/" ++ n2 ++ rest2 ->
       name owner2 -> name repo2 -> number n2 -> length x <= length x2).
Proof.
  unfold extract_pr.
  destruct (exec prRegex body) as [[[pre ps] rest]|] eqn:E; [|discriminate].
  assert (Hend : match rest with
                 | a :: _ => digit a = false
                 | [] => True
                 end).
  { apply exec_inv in E as (s' & _ & Hm).
    change prRegex
      with ([Lit PR_QUESTION; Star false any_char; Lit NL;
             Lit (lit "https://github.com/"); Plus name_char; Lit (lit "/");
             Plus name_char; Lit (lit "/pull/")] ++ [Plus digit]) in Hm.
    now apply rmatch_ends_plus in Hm. }
  apply exec_question_first in E as (x & ts & -> & Hts & Hbody & Hfirst & Hlazy).
  assert (Hacc : Forall2 accepts prRegex (PR_QUESTION :: x :: ts)).
  { constructor; [reflexivity|]. constructor; [apply any_char_all|exact Hts]. }
  apply accepts_prRegex in Hacc as (x' & owner & repo & n & Eps & Ho & Hr & Hn).
  injection Eps as <- ->.
  unfold capture. cbn [skipn firstn concat] in *. rewrite app_nil_r in *.
  destruct (truthy _); [|discriminate]. intros H. injection H as <- <-.
  split; [reflexivity|].
  exists pre, x, owner, repo, rest.
  split; [rewrite Hbody, <- ?app_assoc; reflexivity|].
  split; [exact Ho|]. split; [exact Hr|]. split; [exact Hn|].
  split; [exact Hend|]. split; [exact Hfirst|].
  intros x2 owner2 repo2 n2 rest2 Hx Ho2 Hr2 Hn2.
  apply (Hlazy x2 [NL; lit "https://github.com/"; owner2; lit "/"; repo2;
                   lit "/pull/"; n2] rest2).
  - cbn [concat]. rewrite app_nil_r, <- ?app_assoc. rewrite <- Hx.
    rewrite <- ?app_assoc. reflexivity.
  - repeat constructor; cbn [accepts];
      try apply Ho2; try apply Hr2; try apply Hn2.
Qed.

(** ** Labels *)

(** A label that compares equal to one literal compares with every text as
    that literal does. *)
Lemma expr_eq_trans (a b c : str) :
  expr_eq a b = true -> expr_eq a c = expr_eq b c.
Proof.
  unfold expr_eq. intros H. apply str_eqb_eq in H. now rewrite H.
Qed.

(** ** The keys of a parsed object *)

Lemma startsWith_firstn (k p : str) :
  startsWith k p = str_eqb (firstn (length p) k) p.
Proof.
  destruct (startsWith k p) eqn:E1; symmetry.
  - apply startsWith_true in E1 as [r ->]. apply str_eqb_eq.
    rewrite firstn_app, Nat.sub_diag, firstn_all. cbn [firstn]. apply app_nil_r.
  - apply str_eqb_neq. intros H.
    assert (E : startsWith k p = true).
    { apply startsWith_true. exists (skipn (length p) k).
      rewrite <- H at 1. symmetry. apply firstn_skipn. }
    congruence.
Qed.

Lemma not_experimental_prefix (e : str) :
  not_experimental e <-> ~ has_prefix (lit "__exp") e.
Proof.
  unfold not_experimental, has_prefix. rewrite <- startsWith_true.
  destruct (startsWith e (lit "__exp")); split; congruence.
Qed.

Lemma truthy_key_list_keys (own l : list (str * value)) :
  (forall kv, In kv l -> prop (VObject own) (fst kv) = snd kv) ->
  map (fun key => if truthy (prop (VObject own) key) then key else strike key)
    (filter (fun key => negb (startsWith key (lit "__exp"))) (map fst l))
  = truthy_key_list l.
Proof.
  unfold truthy_key_list.
  induction l as [|[k v] l IH]; intros H; [reflexivity|].
  cbn [map filter flat_map fst snd].
  rewrite startsWith_firstn. change (length (lit "__exp")) with 5.
  specialize (IH (fun kv Hin => H kv (or_intror Hin))).
  destruct (str_eqb (firstn 5 k) (lit "__exp")); cbn [negb app]; [exact IH|].
  pose proof (H (k, v) (or_introl eq_refl)) as Hk. cbn [fst snd] in Hk.
  cbn [map]. rewrite IH, Hk.
  destruct (truthy v); reflexivity.
Qed.

(** On an object, whose keys are distinct, [getTruthyKeys] computes the
    list of the specification over the entries as they are enumerated. *)
Lemma getTruthyKeys_truthy_key_list (own : list (str * value)) :
  NoDup (map fst own) ->
  getTruthyKeys (VObject own) = Ok (truthy_key_list own).
Proof.
  intros Hnd. rewrite getTruthyKeys_VObject. f_equal.
  apply truthy_key_list_keys. intros [k v] Hin. cbn [fst snd].
  unfold prop. cbn [own_entries]. now rewrite (lookup_NoDup k v own Hnd Hin).
Qed.

Lemma replace_entry_NoDup (k : str) (x : value) (ps : list (str * value)) :
  NoDup (map fst ps) -> NoDup (map fst (replace_entry k x ps)).
Proof.
  intros Hnd. destruct (lookup k ps) as [v|] eqn:E.
  - rewrite replace_entry_present; [exact Hnd|congruence].
  - rewrite replace_entry_absent by exact E. rewrite map_app. cbn [map fst].
    apply (Permutation_NoDup (Permutation_cons_append (map fst ps) k)).
    constructor; [now apply lookup_None|exact Hnd].
Qed.

Lemma created_NoDup (members : list (str * value)) :
  forall own, NoDup (map fst own) ->
    NoDup (map fst (fold_left (fun own kv => replace_entry (fst kv) (snd kv) own)
                      members own)).
Proof.
  induction members as [|[k v] members IH]; intros own Hnd; [exact Hnd|].
  cbn [fold_left fst snd]. apply IH. now apply replace_entry_NoDup.
Qed.

(** Members with distinct names are created one after the other. *)
Lemma created_distinct (members : list (str * value)) :
  forall own, NoDup (map fst (own ++ members)) ->
    fold_left (fun own kv => replace_entry (fst kv) (snd kv) own) members own
    = own ++ members.
Proof.
  induction members as [|[k v] members IH]; intros own Hnd.
  - cbn [fold_left]. now rewrite app_nil_r.
  - cbn [fold_left fst snd].
    assert (Hk : lookup k own = None).
    { apply lookup_None. intros Hin. rewrite map_app in Hnd. cbn [map fst] in Hnd.
      apply NoDup_remove_2 in Hnd. apply Hnd, in_or_app. now left. }
    rewrite (replace_entry_absent k v own Hk), IH, <- app_assoc; [reflexivity|].
    now rewrite <- app_assoc.
Qed.

Lemma filter_partition {A : Type} (f : A -> bool) (l : list A) :
  Permutation l (filter f l ++ filter (fun x => negb (f x)) l).
Proof.
  induction l as [|a l IH]; [constructor|].
  cbn [filter]. destruct (f a); cbn [negb app].
  - now constructor.
  - now apply Permutation_cons_app.
Qed.

Lemma JSON_object_NoDup (members : list (str * value)) :
  NoDup (map fst (JSON_object members)).
Proof.
  unfold JSON_object.
  set (created := fold_left _ members []).
  assert (Hnd : NoDup (map fst created)) by (apply created_NoDup; constructor).
  refine (Permutation_NoDup _ Hnd). apply Permutation_map.
  etransitivity; [apply (filter_partition is_index)|].
  apply Permutation_app_tail, sort_perm.
Qed.

Lemma index_ltb_asym (a b : str * value) :
  index_ltb a b = true -> index_ltb b a = false.
Proof.
  unfold index_ltb.
  destruct (array_index (fst a)) as [i|], (array_index (fst b)) as [j|];
    try discriminate; try reflexivity.
  intros H. apply N.ltb_lt in H. apply N.ltb_ge. lia.
Qed.

(** The enumeration of an object whose text has distinct names: the
    members whose name is an array index, in ascending order, then the other
    members in the order of the text. *)
Lemma JSON_object_distinct (members : list (str * value)) :
  NoDup (map fst members) ->
  JSON_object members
  = sort index_ltb (filter is_index members) ++
    filter (fun kv => negb (is_index kv)) members.
Proof.
  intros Hnd. unfold JSON_object.
  now rewrite (created_distinct members []).
Qed.

Lemma filter_no_index (members : list (str * value)) :
  Forall (fun kv => array_index (fst kv) = None) members ->
  filter is_index members = [] /\
  filter (fun kv => negb (is_index kv)) members = members.
Proof.
  induction 1 as [|kv l Hkv _ [IH1 IH2]]; [now split|].
  assert (E : is_index kv = false) by (unfold is_index; now rewrite Hkv).
  cbn [filter]. rewrite E. cbn [negb].
  split; [exact IH1|now rewrite IH2].
Qed.

Lemma falsy_values (v : value) :
  truthy v = false <->
  v = VUndefined \/ v = VNull \/ v = VBool false \/ v = VNumber Zero \/
  v = VString [].
Proof.
  split.
  - destruct v as [| |[|]|[| |]|[|]| |]; cbn [truthy]; intros H;
      try discriminate; auto 6.
  - intros [->|[->|[->|[->| ->]]]]; reflexivity.
Qed.

(** * The specified properties *)

Lemma marked_iff_match (s : str) : marked s <-> has_match TOKEN_PATTERN s.
Proof.
  split.
  - intros (pre & mid & suf & ->). exists pre, [START_TOKEN; mid; END_TOKEN], suf.
    split.
    + cbn [concat]. now rewrite app_nil_r, <- !app_assoc.
    + repeat constructor. simpl. apply forallb_forall. reflexivity.
  - intros (pre & ps & suf & -> & H).
    apply accepts_TOKEN_PATTERN in H as [mid ->].
    exists pre, mid, suf. cbn [concat]. now rewrite app_nil_r, <- !app_assoc.
Qed.

(** C2.  In a document with exactly one start token, at [i], and exactly one
    end token, at [j], the start before the end, the splice leaves the text
    before position [i] and the text after the end token as they are: the
    result is that prefix, then the delimited replacement, then that suffix.
    The replacement is the generated text between the two tokens, with the
    [$] patterns of [String.prototype.replace] substituted. *)
Theorem splice_preserves_outside (docsContent autogen : str) (i j : nat) :
  occurrences START_TOKEN docsContent = [i] ->
  occurrences END_TOKEN docsContent = [j] ->
  i < j ->
  splice docsContent autogen
  = firstn i docsContent ++
    (START_TOKEN ++ NL ++
     getSubstitution
       (firstn (j + length END_TOKEN - i) (skipn i docsContent))
       (firstn i docsContent)
       (skipn (j + length END_TOKEN) docsContent) autogen ++
     NL ++ END_TOKEN) ++
    skipn (j + length END_TOKEN) docsContent.
Proof.
  intros Hi Hj Hlt. apply splice_region; rewrite ?Hi, ?Hj; try assumption.
  - now left.
  - intros n [<-|[]]. lia.
  - now left.
  - intros n [<-|[]]. lia.
Qed.

Lemma splice_preserves_outside_witness :
  let docsContent :=
    lit "# Blocks" ++ NL ++ START_TOKEN ++ lit "old" ++ END_TOKEN ++ NL ++ lit "Footer" in
  occurrences START_TOKEN docsContent = [9] /\
  occurrences END_TOKEN docsContent = [54] /\
  9 < 54 /\
  splice docsContent (lit "new")
  = lit "# Blocks" ++ NL ++
    (START_TOKEN ++ NL ++ lit "new" ++ NL ++ END_TOKEN) ++ NL ++ lit "Footer".
Proof.
  intros docsContent.
  assert (Hi : occurrences START_TOKEN docsContent = [9]) by reflexivity.
  assert (Hj : occurrences END_TOKEN docsContent = [54]) by reflexivity.
  assert (Hlt : 9 < 54) by lia.
  split; [exact Hi|]. split; [exact Hj|]. split; [exact Hlt|].
  exact (splice_preserves_outside docsContent (lit "new") 9 54 Hi Hj Hlt).
Defined.

(** C8.  A document without a start token followed by an end token is
    returned by the splice as it is. *)
Theorem splice_without_region (docsContent autogen : str) :
  ~ marked docsContent -> splice docsContent autogen = docsContent.
Proof.
  intros H. apply splice_no_match.
  destruct (exec TOKEN_PATTERN docsContent) eqn:E; [|reflexivity].
  exfalso. apply H, marked_iff_match, exec_some_iff. congruence.
Qed.

Lemma splice_without_region_witness :
  ~ marked (lit "# Blocks" ++ NL ++ END_TOKEN ++ lit "x" ++ START_TOKEN) /\
  splice (lit "# Blocks" ++ NL ++ END_TOKEN ++ lit "x" ++ START_TOKEN) (lit "new")
  = lit "# Blocks" ++ NL ++ END_TOKEN ++ lit "x" ++ START_TOKEN.
Proof.
  assert (H : ~ marked (lit "# Blocks" ++ NL ++ END_TOKEN ++ lit "x" ++ START_TOKEN)).
  { intros Hm. apply marked_iff_match, exec_some_iff in Hm.
    apply Hm. reflexivity. }
  split; [exact H|].
  exact (splice_without_region _ (lit "new") H).
Defined.

(** C10.  In a document with two marked regions and some text [between]
    them, where the first start token of the document is the one after [pre]
    and its last end token the one before [suf], the splice replaces the one
    span from that start token to that end token: what is left of the
    document is [pre] and [suf], and [between] is part of the replaced
    text. *)
Theorem splice_spans_regions (pre a between b suf autogen : str)
    (starts ends : list nat) :
  let docsContent :=
    pre ++ START_TOKEN ++ a ++ END_TOKEN ++ between ++
    START_TOKEN ++ b ++ END_TOKEN ++ suf in
  occurrences START_TOKEN docsContent = length pre :: starts ->
  occurrences END_TOKEN docsContent
  = ends ++ [length (pre ++ START_TOKEN ++ a ++ END_TOKEN ++ between ++
                     START_TOKEN ++ b)] ->
  splice docsContent autogen
  = pre ++
    (START_TOKEN ++ NL ++
     getSubstitution
       (START_TOKEN ++ a ++ END_TOKEN ++ between ++ START_TOKEN ++ b ++ END_TOKEN)
       pre suf autogen ++
     NL ++ END_TOKEN) ++
    suf.
Proof.
  intros docsContent Hi Hj.
  set (mid := a ++ END_TOKEN ++ between ++ START_TOKEN ++ b).
  assert (E : docsContent = pre ++ START_TOKEN ++ mid ++ END_TOKEN ++ suf)
    by (unfold docsContent, mid; now rewrite <- !app_assoc).
  replace (START_TOKEN ++ a ++ END_TOKEN ++ between ++ START_TOKEN ++ b ++ END_TOKEN)
    with (START_TOKEN ++ mid ++ END_TOKEN)
    by (unfold mid; now rewrite <- !app_assoc).
  apply splice_match. rewrite E.
  apply exec_TOKEN_PATTERN; rewrite <- E.
  - intros n Hn. eapply occurrences_first; eauto.
  - intros n Hn. eapply occurrences_last; eauto.
Qed.

Lemma splice_spans_regions_witness :
  let docsContent :=
    lit "Intro" ++ START_TOKEN ++ lit "one" ++ END_TOKEN ++ lit "KEEP" ++
    START_TOKEN ++ lit "two" ++ END_TOKEN ++ lit "Outro" in
  occurrences START_TOKEN docsContent = 5 :: [94] /\
  occurrences END_TOKEN docsContent = [50] ++ [139] /\
  splice docsContent (lit "new")
  = lit "Intro" ++ (START_TOKEN ++ NL ++ lit "new" ++ NL ++ END_TOKEN) ++ lit "Outro".
Proof.
  intros docsContent.
  assert (Hi : occurrences START_TOKEN docsContent = 5 :: [94]) by reflexivity.
  assert (Hj : occurrences END_TOKEN docsContent = [50] ++ [139]) by reflexivity.
  split; [exact Hi|]. split; [exact Hj|].
  exact (splice_spans_regions (lit "Intro") (lit "one") (lit "KEEP") (lit "two")
           (lit "Outro") (lit "new") [94] [50] Hi Hj).
Defined.


(** C4.  A descriptor with a name and no title: the heading shows the text
    [undefined] where the title goes; the other absent fields are empty. *)
Theorem readBlockJSON_without_title :
  readBlockJSON (VObject [(lit "name", VString (lit "woo/x"))])
  = Ok (NL ++ lit "## undefined - woo/x" ++ NL ++
        NL ++
        NL ++
        NL ++
        lit "-" ++ TAB ++ lit "**Name:** woo/x" ++ NL ++
        lit "-" ++ TAB ++ lit "**Category:** " ++ NL ++
        lit "-   **Ancestor:** " ++ NL ++
        lit "-   **Parent:** " ++ NL ++
        lit "-" ++ TAB ++ lit "**Supports:** " ++ NL ++
        lit "-" ++ TAB ++ lit "**Attributes:** " ++ NL).
Proof. reflexivity. Qed.

(** C1.  A descriptor with the attributes [b] and [a], in this order: the
    bullet shows them in the order of the object and separated by a comma
    alone, neither sorted nor joined with a comma and a space. *)
Theorem readBlockJSON_attributes_unsorted :
  readBlockJSON
    (VObject [(lit "name", VString (lit "woo/x"));
              (lit "title", VString (lit "X"));
              (lit "attributes",
               VObject [(lit "b", VBool true); (lit "a", VBool true)])])
  = Ok (NL ++ lit "## X - woo/x" ++ NL ++
        NL ++
        NL ++
        NL ++
        lit "-" ++ TAB ++ lit "**Name:** woo/x" ++ NL ++
        lit "-" ++ TAB ++ lit "**Category:** " ++ NL ++
        lit "-   **Ancestor:** " ++ NL ++
        lit "-   **Parent:** " ++ NL ++
        lit "-" ++ TAB ++ lit "**Supports:** " ++ NL ++
        lit "-" ++ TAB ++ lit "**Attributes:** b,a" ++ NL).
Proof. reflexivity. Qed.

(** C3.  With a descriptor whose description is the text [$&], a second run
    over the document written by the first one writes a different document:
    the replacement pattern [$&] stands for the region that is replaced,
    which the first run has changed. *)
Theorem run_twice_differs :
  let files := [VObject [(lit "name", VString (lit "woo/x"));
                         (lit "description", VString (lit "$&"))]] in
  let docsContent := START_TOKEN ++ END_TOKEN in
  exists once twice,
    run files docsContent = Ok once /\
    run files once = Ok twice /\
    once <> twice.
Proof.
  intros files docsContent.
  eexists. eexists.
  split; [vm_compute; reflexivity|].
  split; [vm_compute; reflexivity|].
  intros H. apply (f_equal (@length ascii)) in H.
  vm_compute in H. discriminate.
Qed.

(** C6, as the code has it.  On every object that [JSON.parse] makes of
    the members of an object text, [getTruthyKeys] gives the truthy-key list
    of the specification over the entries in the order of [Object.keys]: an
    entry whose key starts with [__exp] gives nothing, whatever its value,
    another one gives its key when its value is truthy and the key between
    two [~~] when it is falsy, the falsy values being [undefined], [null],
    [false], [0] and the empty string.  When the names of the text are
    distinct, that order is: the members whose name is an array index, in
    ascending numeric order, then the other members in the order of the
    text; so it is the order of the text when no name is an array index.  No
    element of an Attributes list, no element of a Supports list and no
    inner key listed for a nested object starts with [__exp]. *)
Theorem getTruthyKeys_object (members : list (str * value)) :
  let own := JSON_object members in
  getTruthyKeys (VObject own) = Ok (truthy_key_list own) /\
  (forall v, truthy v = false <->
     v = VUndefined \/ v = VNull \/ v = VBool false \/ v = VNumber Zero \/
     v = VString []) /\
  (NoDup (map fst members) ->
   exists indices,
     own = indices ++ filter (fun kv => negb (is_index kv)) members /\
     Permutation indices (filter is_index members) /\
     Sorted (fun a b => index_ltb b a = false) indices) /\
  (NoDup (map fst members) ->
   Forall (fun kv => array_index (fst kv) = None) members ->
   own = members /\
   getTruthyKeys (VObject own) = Ok (truthy_key_list members)) /\
  (forall attributes, getTruthyKeys (VObject own) = Ok attributes ->
     Forall (fun e => ~ has_prefix (lit "__exp") e) attributes) /\
  (forall supportsList, processObjWithInnerKeys (VObject own) = Ok supportsList ->
     Forall (fun e => ~ has_prefix (lit "__exp") e) supportsList) /\
  (forall key inner e,
     prop (VObject own) key = VObject inner ->
     innerKeysEntry (VObject own) key = Ok e ->
     exists innerKeys,
       getTruthyKeys (VObject inner) = Ok innerKeys /\
       e = key ++ lit " (" ++ join (lit ", ") (sort str_ltb innerKeys) ++ lit ")" /\
       Forall (fun e => ~ has_prefix (lit "__exp") e) (sort str_ltb innerKeys)).
Proof.
  intros own.
  assert (H1 : getTruthyKeys (VObject own) = Ok (truthy_key_list own))
    by apply getTruthyKeys_truthy_key_list, JSON_object_NoDup.
  assert (Hprefix : forall l, Forall not_experimental l ->
                    Forall (fun e => ~ has_prefix (lit "__exp") e) l).
  { intros l. apply Forall_impl. intros e. apply not_experimental_prefix. }
  split; [exact H1|]. split; [exact falsy_values|].
  split; [|split; [|split; [|split]]].
  - intros Hnd. exists (sort index_ltb (filter is_index members)).
    split; [now apply JSON_object_distinct|].
    split; [apply Permutation_sym, sort_perm|].
    apply sort_Sorted, index_ltb_asym.
  - intros Hnd Hno.
    assert (E : own = members).
    { unfold own. rewrite (JSON_object_distinct members Hnd).
      destruct (filter_no_index members Hno) as [-> ->]. reflexivity. }
    split; [exact E|]. now rewrite H1, E.
  - intros attributes H. now apply Hprefix, (getTruthyKeys_not_experimental (VObject own)).
  - intros supportsList H.
    now apply Hprefix, (processObjWithInnerKeys_not_experimental (VObject own)).
  - intros key inner e Hp He. unfold innerKeysEntry in He. rewrite Hp in He.
    cbn [typeof jstype_eqb] in He. rewrite getTruthyKeys_VObject in He.
    cbn [bind] in He. injection He as <-.
    eexists. split; [apply getTruthyKeys_VObject|]. split; [reflexivity|].
    apply Hprefix, sort_Forall.
    apply (getTruthyKeys_not_experimental (VObject inner)), getTruthyKeys_VObject.
Qed.

(** C6, as the specification words it, fails on a name that is an array
    index.  The object text with the members [b], [10], [9] (falsy) and [a],
    in this order, has the truthy-key list [~~9~~], [10], [b], [a]: the list
    does not follow the order in which the keys were inserted. *)
Lemma getTruthyKeys_not_insertion_order :
  let members := [(lit "b", VBool true); (lit "10", VBool true);
                  (lit "9", VBool false); (lit "a", VBool true)] in
  getTruthyKeys (VObject (JSON_object members))
  = Ok [lit "~~9~~"; lit "10"; lit "b"; lit "a"] /\
  truthy_key_list members = [lit "b"; lit "10"; lit "~~9~~"; lit "a"] /\
  getTruthyKeys (VObject (JSON_object members)) <> Ok (truthy_key_list members).
Proof.
  intros members.
  split; [reflexivity|]. split; [reflexivity|].
  intros H. vm_compute in H. discriminate H.
Qed.

(** C5, as the code has it.  When [supports.color] is an object,
    [augmentSupports] returns [supports] with that object updated in its
    place: [background] is set to [true] if the object has no [background],
    [text] is set to [true] if it has no [text], the keys it has keep their
    values and no other key is added; the other keys of [supports], and the
    order of its keys, are as they were.  When both keys are missing, the
    entry that is pushed for [color] is [color (...)], with [background] and
    [text], not struck out, among the inner keys in the parentheses; every
    Supports list that is produced has this entry, and one is produced when
    no value of [supports] is [null] or an array. *)
Theorem augmentSupports_color (own color : list (str * value)) :
  lookup (lit "color") own = Some (VObject color) ->
  exists color',
    let supportsAugmented :=
      VObject (replace_entry (lit "color") (VObject color') own) in
    augmentSupports (VObject own) = Ok supportsAugmented /\
    (lookup (lit "background") color = None ->
     lookup (lit "background") color' = Some (VBool true)) /\
    (lookup (lit "text") color = None ->
     lookup (lit "text") color' = Some (VBool true)) /\
    (forall k v, lookup k color = Some v -> lookup k color' = Some v) /\
    (forall k, k <> lit "background" -> k <> lit "text" ->
               lookup k color' = lookup k color) /\
    (forall k, k <> lit "color" ->
               prop supportsAugmented k = prop (VObject own) k) /\
    Object_keys supportsAugmented = Object_keys (VObject own) /\
    (lookup (lit "background") color = None ->
     lookup (lit "text") color = None ->
     exists innerKeys,
       getTruthyKeys (VObject color') = Ok innerKeys /\
       In (lit "background") innerKeys /\
       In (lit "text") innerKeys /\
       innerKeysEntry supportsAugmented (lit "color")
       = Ok (lit "color (" ++ join (lit ", ") (sort str_ltb innerKeys) ++ lit ")") /\
       (forall supportsList,
          processObjWithInnerKeys supportsAugmented = Ok supportsList ->
          In (lit "color (" ++ join (lit ", ") (sort str_ltb innerKeys) ++ lit ")")
             supportsList) /\
       ((forall k v, lookup k own = Some v -> v <> VNull /\ isArray v = false) ->
        exists supportsList,
          processObjWithInnerKeys supportsAugmented = Ok supportsList)).
Proof.
  intros Hcolor.
  set (color2 := withDefault (lit "text") (withDefault (lit "background") color)).
  assert (Hbg : lookup (lit "background") color = None ->
                lookup (lit "background") color2 = Some (VBool true)).
  { intros H. apply lookup_withDefault_keep. now apply lookup_withDefault_new. }
  assert (Htext : lookup (lit "text") color = None ->
                  lookup (lit "text") color2 = Some (VBool true)).
  { intros H. apply lookup_withDefault_new.
    rewrite lookup_withDefault_other; [exact H|].
    intros E. vm_compute in E. discriminate. }
  assert (Hkeep : forall k v, lookup k color = Some v -> lookup k color2 = Some v).
  { intros k v H. now apply lookup_withDefault_keep, lookup_withDefault_keep. }
  assert (Hother : forall k, k <> lit "background" -> k <> lit "text" ->
                             lookup k color2 = lookup k color).
  { intros k H1 H2. unfold color2.
    now rewrite !lookup_withDefault_other. }
  exists color2. cbv zeta.
  split; [|split; [exact Hbg|split; [exact Htext|split; [exact Hkeep|
           split; [exact Hother|split; [|split]]]]]].
  - rewrite (augmentSupports_object own color Hcolor).
    rewrite defaultColorKey_object. cbn [bind].
    rewrite defaultColorKey_object. reflexivity.
  - intros k Hk. unfold prop. cbn [own_entries].
    now rewrite lookup_replace_other.
  - cbn [Object_keys own_entries]. f_equal.
    apply replace_entry_present. congruence.
  - intros Hnb Hnt.
    set (own' := replace_entry (lit "color") (VObject color2) own).
    assert (Hc' : lookup (lit "color") own' = Some (VObject color2))
      by apply lookup_replace_same.
    assert (Hin : forall k, lookup k color2 = Some (VBool true) ->
                  not_experimental k ->
                  In k (map (fun key => if truthy (prop (VObject color2) key)
                                        then key else strike key)
                          (filter (fun key => negb (startsWith key (lit "__exp")))
                             (map fst color2)))).
    { intros k Hk Hne.
      destruct (getTruthyKeys_In color2 k (VBool true) Hk eq_refl Hne)
        as (keys & E & Hin).
      rewrite getTruthyKeys_VObject in E. now injection E as <-. }
    assert (Hentry : innerKeysEntry (VObject own') (lit "color")
                     = Ok (lit "color (" ++
                           join (lit ", ")
                             (sort str_ltb
                                (map (fun key => if truthy (prop (VObject color2) key)
                                                 then key else strike key)
                                   (filter (fun key => negb (startsWith key (lit "__exp")))
                                      (map fst color2)))) ++ lit ")")).
    { unfold innerKeysEntry, prop. cbn [own_entries]. rewrite Hc'.
      cbn [typeof jstype_eqb]. rewrite getTruthyKeys_VObject. reflexivity. }
    eexists. split; [apply getTruthyKeys_VObject|].
    split; [apply Hin; [now apply Hbg|reflexivity]|].
    split; [apply Hin; [now apply Htext|reflexivity]|].
    split; [exact Hentry|]. split.
    + intros supportsList Hl. unfold processObjWithInnerKeys in Hl.
      apply bind_ok in Hl as (kvs & Hk & Hl).
      apply innerKeysLoop_entries in Hl.
      destruct (getTruthyKeys_In own' (lit "color") (VObject color2) Hc' eq_refl eq_refl)
        as (kvs' & Hk' & Hin').
      rewrite Hk in Hk'. injection Hk' as <-.
      destruct (Forall2_In_l _ _ _ _ Hl Hin') as (e & He & Hentry').
      rewrite Hentry in Hentry'. now injection Hentry' as <-.
    + intros Hvalues. apply processObjWithInnerKeys_ok. intros k v Hl.
      destruct (list_eq_dec ascii_dec k (lit "color")) as [->|Hne].
      * rewrite Hc' in Hl. injection Hl as <-.
        split; [discriminate|reflexivity].
      * unfold own' in Hl. rewrite lookup_replace_other in Hl by exact Hne.
        now apply (Hvalues k).
Qed.

Lemma augmentSupports_color_witness :
  let supports :=
    [(lit "align", VBool true);
     (lit "color", VObject [(lit "link", VBool true)])] in
  lookup (lit "color") supports = Some (VObject [(lit "link", VBool true)]) /\
  exists color' supportsList,
    augmentSupports (VObject supports)
    = Ok (VObject [(lit "align", VBool true); (lit "color", VObject color')]) /\
    lookup (lit "background") color' = Some (VBool true) /\
    lookup (lit "text") color' = Some (VBool true) /\
    lookup (lit "link") color' = Some (VBool true) /\
    processObjWithInnerKeys
      (VObject [(lit "align", VBool true); (lit "color", VObject color')])
    = Ok supportsList /\
    In (lit "color (background, link, text)") supportsList.
Proof.
  intros supports. split; [reflexivity|].
  destruct (augmentSupports_color supports [(lit "link", VBool true)] eq_refl)
    as (color' & Haug & Hbg & Htext & Hkeep & _ & _ & _ & Hrender).
  destruct (Hrender eq_refl eq_refl)
    as (innerKeys & Hk & _ & _ & _ & Hin & Hok).
  destruct Hok as (supportsList & Hl).
  { intros k v. unfold supports. cbn [lookup].
    destruct (str_eqb k (lit "align")).
    - intros E. injection E as <-. split; [discriminate|reflexivity].
    - destruct (str_eqb k (lit "color")); [|discriminate].
      intros E. injection E as <-. split; [discriminate|reflexivity]. }
  exists color', supportsList. split; [exact Haug|].
  split; [now apply Hbg|]. split; [now apply Htext|].
  split; [now apply Hkeep|]. split; [exact Hl|].
  specialize (Hin supportsList Hl).
  cbv in Haug. injection Haug as Haug. subst color'.
  cbv in Hk. injection Hk as Hk. subst innerKeys. exact Hin.
Defined.

(** C5, as the specification words it, fails: [background] and [text] are
    not entries of the Supports list.  For [supports] with the one key
    [color], bound to an object with the one key [link], the list has the
    single entry [color (background, link, text)], and the descriptor renders
    with that entry alone in its Supports bullet. *)
Lemma augmentSupports_color_nested :
  let supports := VObject [(lit "color", VObject [(lit "link", VBool true)])] in
  let supportsList := [lit "color (background, link, text)"] in
  (supportsAugmented <- augmentSupports supports ;;
   processObjWithInnerKeys supportsAugmented) = Ok supportsList /\
  ~ In (lit "background") supportsList /\
  ~ In (lit "text") supportsList /\
  readBlockJSON (VObject [(lit "name", VString (lit "woo/x"));
                          (lit "title", VString (lit "X"));
                          (lit "supports", supports)])
  = Ok (NL ++ lit "## X - woo/x" ++ NL ++
        NL ++
        NL ++
        NL ++
        lit "-" ++ TAB ++ lit "**Name:** woo/x" ++ NL ++
        lit "-" ++ TAB ++ lit "**Category:** " ++ NL ++
        lit "-   **Ancestor:** " ++ NL ++
        lit "-   **Parent:** " ++ NL ++
        lit "-" ++ TAB ++ lit "**Supports:** color (background, link, text)" ++ NL ++
        lit "-" ++ TAB ++ lit "**Attributes:** " ++ NL).
Proof.
  intros supports supportsList.
  split; [reflexivity|].
  split; [intros [H|[]]; vm_compute in H; discriminate H|].
  split; [intros [H|[]]; vm_compute in H; discriminate H|].
  reflexivity.
Qed.

(** C9, as the code has it.  On an issue labeled [CFE Approved], in any
    case of the letters, whose body is a text: the release number is
    extracted exactly when the body has the question about the release and,
    at the start of a later line, [MAJOR.MINOR]; the number that is output
    is then the one that stands in the body at the start of the first such
    line after the first occurrence of the question, with all the digits of
    [MINOR].  The pull request number is extracted exactly when the body has
    the question about the pull request and, at the start of a later line,
    the address of a pull request, and it is the number at the end of the
    first such address.  Without the first the run fails with the message of
    [extract-release], without the second with the message of [extract-pr],
    and no command runs.  With both, the pull request of that number gets
    the label [cherry pick to trunk], the issue the milestone made of the
    release number and [.0], then the comment and the notification. *)
Theorem cfe_approved_run (ev : event) (body : str) :
  expr_eq (label_name ev) (lit "CFE Approved") = true ->
  issue_body ev = Some body ->
  ((exists releaseNumber,
      extract_release (Some body) = SetOutput (lit "RELEASE_NUMBER") releaseNumber) <->
   release_pattern body) /\
  (forall output releaseNumber,
     extract_release (Some body) = SetOutput output releaseNumber ->
     output = lit "RELEASE_NUMBER" /\
     exists pre x major minor rest,
       body = pre ++ RELEASE_QUESTION ++ x ++ NL ++ releaseNumber ++ rest /\
       releaseNumber = major ++ lit "." ++ minor /\
       number major /\ number minor /\
       match rest with
       | a :: _ => digit a = false
       | [] => True
       end /\
       (forall n, In n (occurrences RELEASE_QUESTION body) -> length pre <= n) /\
       (forall x2 major2 minor2 rest2,
          x ++ NL ++ releaseNumber ++ rest
          = x2 ++ NL ++ major2 ++ lit "." ++ minor2 ++ rest2 ->
          number major2 -> number minor2 -> length x <= length x2)) /\
  ((exists prNumber,
      extract_pr (Some body) = SetOutput (lit "PR_NUMBER") prNumber) <->
   pr_pattern body) /\
  (forall output prNumber,
     extract_pr (Some body) = SetOutput output prNumber ->
     output = lit "PR_NUMBER" /\
     exists pre x owner repo rest,
       body = pre ++ PR_QUESTION ++ x ++ NL ++ lit "https://github.com/" ++
              owner ++ lit "/" ++ repo ++ lit "/pull/" ++ prNumber ++ rest /\
       name owner /\ name repo /\ number prNumber /\
       match rest with
       | a :: _ => digit a = false
       | [] => True
       end /\
       (forall n, In n (occurrences PR_QUESTION body) -> length pre <= n) /\
       (forall x2 owner2 repo2 n2 rest2,
          x ++ NL ++ lit "https://github.com/" ++
            owner ++ lit "/" ++ repo ++ lit "/pull/" ++ prNumber ++ rest
          = x2 ++ NL ++ lit "https://github.com/" ++
            owner2 ++ lit "/" ++ repo2 ++ lit "/pull/" ++ n2 ++ rest2 ->
          name owner2 -> name repo2 -> number n2 -> length x <= length x2)) /\
  (~ release_pattern body ->
   run_conclusion ev = Failure NO_RELEASE /\ run_commands ev = []) /\
  (release_pattern body -> ~ pr_pattern body ->
   run_conclusion ev = Failure NO_PR /\ run_commands ev = []) /\
  (forall o1 o2 releaseNumber prNumber,
     extract_release (Some body) = SetOutput o1 releaseNumber ->
     extract_pr (Some body) = SetOutput o2 prNumber ->
     run_conclusion ev = Success /\
     run_commands ev
     = [Gh (PrAddLabel (repository_owner ev ++ lit "/" ++ repository_name ev)
              prNumber (lit "cherry pick to trunk"));
        Gh (IssueMilestone (issue_html_url ev) (releaseNumber ++ lit ".0"));
        Gh (IssueComment (issue_html_url ev)
              (lit "This request has been approved. Please merge the PR to release branch."));
        Gh (NotifySlack (lit ":white_check_mark: CFE request approved: " ++
                         issue_title ev ++ NL ++ issue_html_url ev ++ NL))]).
Proof.
  intros Hlabel Hbody.
  pose proof (prep_approved ev Hlabel) as Hprep. rewrite Hbody in Hprep.
  split; [apply extract_release_iff|].
  split; [intros o v E; now apply extract_release_found in E|].
  split; [apply extract_pr_iff|].
  split; [intros o v E; now apply extract_pr_found in E|].
  unfold run_commands, cfe_created, cfe_rejected, run_conclusion, cfe_approved.
  rewrite !(expr_eq_trans _ _ _ Hlabel), Hbody, Hprep.
  change (expr_eq (lit "CFE Approved") (lit "CFE Approved")) with true.
  change (expr_eq (lit "CFE Approved") (lit "code freeze exception")) with false.
  change (expr_eq (lit "CFE Approved") (lit "CFE Rejected")) with false.
  cbv iota.
  split; [|split].
  - intros H. apply extract_release_failed in H. rewrite H. now split.
  - intros Hrel Hpr. apply extract_release_iff in Hrel as [v Hrel].
    apply extract_pr_failed in Hpr. rewrite Hrel, Hpr. now split.
  - intros o1 o2 releaseNumber prNumber E1 E2. rewrite E1, E2.
    split; reflexivity.
Qed.

Lemma cfe_approved_run_witness :
  let body := lit "Which release does this request apply to?" ++ NL ++
              lit "6.7" ++ NL ++
              lit "Which PR needs to be included?" ++ NL ++
              lit "https://github.com/org/repo/pull/1234" in
  let ev := {| label_name := lit "CFE approved";
               issue_body := Some body;
               issue_title := lit "Fix";
               issue_html_url := lit "https://github.com/org/repo/issues/9";
               repository_owner := lit "org";
               repository_name := lit "repo" |} in
  expr_eq (label_name ev) (lit "CFE Approved") = true /\
  issue_body ev = Some body /\
  run_conclusion ev = Success /\
  run_commands ev
  = [Gh (PrAddLabel (lit "org/repo") (lit "1234") (lit "cherry pick to trunk"));
     Gh (IssueMilestone (lit "https://github.com/org/repo/issues/9") (lit "6.7.0"));
     Gh (IssueComment (lit "https://github.com/org/repo/issues/9")
           (lit "This request has been approved. Please merge the PR to release branch."));
     Gh (NotifySlack (lit ":white_check_mark: CFE request approved: " ++
                      lit "Fix" ++ NL ++
                      lit "https://github.com/org/repo/issues/9" ++ NL))].
Proof.
  intros body ev. split; [reflexivity|]. split; [reflexivity|].
  destruct (cfe_approved_run ev body eq_refl eq_refl)
    as (_ & _ & _ & _ & _ & _ & H).
  exact (H (lit "RELEASE_NUMBER") (lit "PR_NUMBER") (lit "6.7") (lit "1234")
           eq_refl eq_refl).
Defined.

(** C9, as the specification words it, fails on a number or an address
    that is not at the start of a line.  In this body the question about the
    release is followed on a later line by [6.7], and the question about the
    pull request by the address of a pull request; neither is extracted. *)
Lemma extraction_needs_line_start :
  let body := RELEASE_QUESTION ++ NL ++ lit "Release 6.7" ++ NL ++
              PR_QUESTION ++ lit " https://github.com/org/repo/pull/1234" in
  release_wording body /\
  extract_release (Some body) = SetFailed NO_RELEASE /\
  pr_wording body /\
  extract_pr (Some body) = SetFailed NO_PR.
Proof.
  intros body. split; [|split; [reflexivity|split; [|reflexivity]]].
  - exists [], [], (lit "Release "), (lit "6"), (lit "7"),
      (NL ++ PR_QUESTION ++ lit " https://github.com/org/repo/pull/1234").
    split; [reflexivity|]. split; split; (discriminate || reflexivity).
  - exists (RELEASE_QUESTION ++ NL ++ lit "Release 6.7" ++ NL), (lit " "),
      (lit "org"), (lit "repo"), (lit "1234"), [].
    split; [reflexivity|].
    split; [|split]; split; (discriminate || reflexivity).
Qed.

(** * Further properties *)

(** ** The splice on any marked document *)

(** What a match of the pattern says about the document: it starts at the
    first start token and ends with the last end token. *)
Lemma exec_TOKEN_PATTERN_inv (s pre suf : str) (ps : list str) :
  exec TOKEN_PATTERN s = Some (pre, ps, suf) ->
  exists mid,
    ps = [START_TOKEN; mid; END_TOKEN] /\
    s = pre ++ START_TOKEN ++ mid ++ END_TOKEN ++ suf /\
    (forall n, In n (occurrences START_TOKEN s) -> length pre <= n) /\
    (forall n, In n (occurrences END_TOKEN s) ->
               n <= length (pre ++ START_TOKEN ++ mid)).
Proof.
  intros E.
  pose proof (exec_leftmost _ _ _ _ _ E) as Hleft.
  apply exec_inv in E as (s' & Hs & Hm).
  apply rmatch_sound in Hm as Hsound. destruct Hsound as [-> Hacc].
  apply accepts_TOKEN_PATTERN in Hacc as [mid ->].
  cbn [concat] in *. rewrite app_nil_r in *. rewrite <- !app_assoc in *.
  exists mid. split; [reflexivity|]. split; [exact Hs|]. split.
  - intros n Hn. apply In_occurrences in Hn as (p1 & r & Hn & <-).
    destruct (le_lt_dec (length pre) (length p1)) as [|Hlt]; [assumption|].
    exfalso. rewrite Hs in Hn. symmetry in Hn.
    apply app_eq_split in Hn as (m & Hpre & Hr); [|lia].
    assert (Hm' : m <> []).
    { intros ->. rewrite app_nil_r in Hpre. subst p1. lia. }
    specialize (Hleft p1 m Hpre Hm').
    rewrite <- Hr in Hleft.
    replace (m ++ START_TOKEN ++ mid ++ END_TOKEN ++ suf)
      with ((m ++ START_TOKEN ++ mid) ++ END_TOKEN ++ suf) in Hr
      by now rewrite <- !app_assoc.
    apply app_eq_split in Hr as (w & _ & Hr);
      [|rewrite !length_app; lia].
    rewrite Hr in Hleft. revert Hleft. apply TOKEN_PATTERN_matches.
  - intros n Hn. apply In_occurrences in Hn as (q & r & Hn & <-).
    destruct (le_lt_dec (length q) (length (pre ++ START_TOKEN ++ mid)))
      as [|Hlt]; [assumption|].
    exfalso. rewrite Hs in Hn.
    replace (pre ++ START_TOKEN ++ mid ++ END_TOKEN ++ suf)
      with ((pre ++ START_TOKEN) ++ mid ++ END_TOKEN ++ suf) in Hn
      by now rewrite <- !app_assoc.
    rewrite !length_app in Hlt.
    apply app_eq_split in Hn as (p2 & Hq & Hrest);
      [|rewrite !length_app; lia].
    unfold TOKEN_PATTERN in Hm. cbn [rmatch] in Hm.
    rewrite strip_prefix_app in Hm.
    apply piece_some in Hm as (ps' & Eps & Hm). injection Eps as <-.
    assert (Hlen : length p2 <= length mid).
    { eapply star_greedy_longest; [exact Hm|exact Hrest|..].
      - apply any_char_all.
      - cbn [rmatch]. rewrite strip_prefix_app. discriminate. }
    subst q. rewrite !length_app in Hlt. lia.
Qed.

(** A text without [$] is its own substitution. *)
Lemma getSubstitution_no_dollar (matched before after autogen : str) :
  forallb (fun c => negb (Ascii.eqb c "$")) autogen = true ->
  getSubstitution matched before after autogen = autogen.
Proof.
  intros H. rewrite <- (app_nil_r autogen) at 1.
  rewrite getSubstitution_plain by assumption. apply app_nil_r.
Qed.

(** X1.  On every document with a marked region the splice keeps the text
    before the matched start token and the text after the matched end token,
    and puts the delimiters back around the replacement: the result has a
    marked region again. *)
Theorem splice_keeps_region (docsContent autogen : str) :
  marked docsContent ->
  exists pre mid suf,
    docsContent = pre ++ START_TOKEN ++ mid ++ END_TOKEN ++ suf /\
    splice docsContent autogen
    = pre ++ START_TOKEN ++
      (NL ++ getSubstitution (START_TOKEN ++ mid ++ END_TOKEN) pre suf autogen
          ++ NL) ++
      END_TOKEN ++ suf /\
    marked (splice docsContent autogen).
Proof.
  intros H. apply marked_iff_match, exec_some_iff in H.
  destruct (exec TOKEN_PATTERN docsContent) as [[[pre ps] suf]|] eqn:E;
    [|congruence].
  apply exec_TOKEN_PATTERN_inv in E as E'.
  destruct E' as (mid & -> & Hs & _). exists pre, mid, suf.
  assert (Hsplice : splice docsContent autogen
    = pre ++ START_TOKEN ++
      (NL ++ getSubstitution (START_TOKEN ++ mid ++ END_TOKEN) pre suf autogen
          ++ NL) ++
      END_TOKEN ++ suf).
  { rewrite (splice_match _ _ _ _ _ E). now rewrite <- !app_assoc. }
  split; [exact Hs|]. split; [exact Hsplice|].
  rewrite Hsplice. eexists _, _, _. reflexivity.
Qed.

Lemma splice_keeps_region_witness :
  marked (lit "a" ++ START_TOKEN ++ lit "old" ++ END_TOKEN ++ lit "z") /\
  marked (splice (lit "a" ++ START_TOKEN ++ lit "old" ++ END_TOKEN ++ lit "z")
            (lit "costs $$5")).
Proof.
  assert (H : marked (lit "a" ++ START_TOKEN ++ lit "old" ++ END_TOKEN ++ lit "z"))
    by (now exists (lit "a"), (lit "old"), (lit "z")).
  split; [exact H|].
  destruct (splice_keeps_region _ (lit "costs $$5") H) as (? & ? & ? & _ & _ & Hm).
  exact Hm.
Defined.

Lemma splice_twice (docsContent autogen : str) :
  forallb (fun c => negb (Ascii.eqb c "$")) autogen = true ->
  splice (splice docsContent autogen) autogen = splice docsContent autogen.
Proof.
  intros Hplain.
  destruct (exec TOKEN_PATTERN docsContent) as [[[pre ps] suf]|] eqn:E.
  2:{ rewrite (splice_no_match _ _ E). now apply splice_no_match. }
  apply exec_TOKEN_PATTERN_inv in E as E'.
  destruct E' as (mid & -> & Hs & Hfirst & Hlast).
  rewrite (splice_match _ _ _ _ _ E).
  rewrite getSubstitution_no_dollar by assumption.
  set (mid' := NL ++ autogen ++ NL).
  replace (pre ++ (START_TOKEN ++ NL ++ autogen ++ NL ++ END_TOKEN) ++ suf)
    with (pre ++ START_TOKEN ++ mid' ++ END_TOKEN ++ suf)
    by (unfold mid'; now rewrite <- !app_assoc).
  assert (E2 : exec TOKEN_PATTERN (pre ++ START_TOKEN ++ mid' ++ END_TOKEN ++ suf)
               = Some (pre, [START_TOKEN; mid'; END_TOKEN], suf)).
  { apply exec_TOKEN_PATTERN.
    - intros n Hn. apply In_occurrences in Hn as (p1 & r & Hn & <-).
      destruct (le_lt_dec (length pre) (length p1)) as [|Hlt]; [assumption|].
      apply Hfirst, In_occurrences. symmetry in Hn.
      apply app_eq_split in Hn as (m & Hpre & Hr); [|lia].
      replace (m ++ START_TOKEN ++ mid' ++ END_TOKEN ++ suf)
        with ((m ++ START_TOKEN) ++ mid' ++ END_TOKEN ++ suf) in Hr
        by now rewrite <- !app_assoc.
      apply app_eq_split in Hr as (z & Hz & _); [|rewrite length_app; lia].
      exists p1, (z ++ mid ++ END_TOKEN ++ suf). split; [|reflexivity].
      rewrite Hs, Hpre, <- !app_assoc.
      rewrite (app_assoc m), Hz, <- !app_assoc. reflexivity.
    - intros n Hn. apply In_occurrences in Hn as (q & r & Hn & <-).
      destruct (le_lt_dec (length q) (length (pre ++ START_TOKEN ++ mid')))
        as [|Hlt]; [assumption|].
      exfalso.
      replace (pre ++ START_TOKEN ++ mid' ++ END_TOKEN ++ suf)
        with ((pre ++ START_TOKEN ++ mid') ++ END_TOKEN ++ suf) in Hn
        by now rewrite <- !app_assoc.
      apply app_eq_split in Hn as (w & Hq & Hw); [|lia].
      assert (Hin : In (length ((pre ++ START_TOKEN ++ mid) ++ w))
                      (occurrences END_TOKEN docsContent)).
      { apply In_occurrences. exists ((pre ++ START_TOKEN ++ mid) ++ w), r.
        split; [|reflexivity]. rewrite Hs, <- !app_assoc.
        do 3 f_equal. exact Hw. }
      apply Hlast in Hin. subst q. rewrite !length_app in *. lia. }
  rewrite (splice_match _ _ _ _ _ E2).
  rewrite getSubstitution_no_dollar by assumption.
  unfold mid'. now rewrite <- !app_assoc.
Qed.

(** X2.  When the generated text has no [$], the splice puts it between the
    delimiters as it is, and a second splice of the same text changes
    nothing: on such text the splice is idempotent, on every document. *)
Theorem splice_idempotent (docsContent autogen : str) :
  forallb (fun c => negb (Ascii.eqb c "$")) autogen = true ->
  splice (splice docsContent autogen) autogen = splice docsContent autogen.
Proof. apply splice_twice. Qed.

Lemma splice_idempotent_witness :
  let docsContent := lit "a" ++ START_TOKEN ++ lit "old" ++ END_TOKEN ++ lit "z" in
  forallb (fun c => negb (Ascii.eqb c "$")) (lit "## X - woo/x") = true /\
  splice (splice docsContent (lit "## X - woo/x")) (lit "## X - woo/x")
  = lit "a" ++ START_TOKEN ++ NL ++ lit "## X - woo/x" ++ NL ++ END_TOKEN ++ lit "z".
Proof.
  intros docsContent. split; [reflexivity|].
  rewrite (splice_idempotent docsContent (lit "## X - woo/x") eq_refl).
  reflexivity.
Defined.

(** ** Named properties of objects and arrays *)

Lemma nat_to_str_digit (n : nat) :
  exists c r, nat_to_str n = c :: r /\ digit c = true.
Proof.
  unfold nat_to_str, NilZero.string_of_uint, lit.
  destruct (Nat.to_uint n); cbn; eexists _, _; split; reflexivity.
Qed.

Lemma lookup_index_entries (k : str) (elems : list value) :
  named_key k = true -> forall i, lookup k (index_entries i elems) = None.
Proof.
  intros Hk. induction elems as [|e elems IH]; intros i; cbn [index_entries lookup];
    [reflexivity|].
  destruct (str_eqb k (nat_to_str i)) eqn:E; [|apply IH].
  apply str_eqb_eq in E. destruct (nat_to_str_digit i) as (c & r & Hc & Hd).
  rewrite E, Hc in Hk. cbn in Hk. rewrite Hd in Hk. discriminate.
Qed.

(** The named properties of an object or an array. *)
Lemma lookup_own_entries (k : str) (v : value) :
  named_key k = true ->
  lookup k (own_entries v)
  = match v with
    | VObject own => lookup k own
    | VArray _ named => lookup k named
    | VString _ => None
    | _ => None
    end.
Proof.
  intros Hk. destruct v as [| |b|n|s|elems named|own]; cbn [own_entries];
    try reflexivity.
  - now apply lookup_index_entries.
  - rewrite lookup_app. now rewrite lookup_index_entries.
Qed.

Lemma has_set_same (v : value) (k : str) (x : value) :
  isObject v = true -> named_key k = true ->
  has k (set v k x) = Ok true /\ prop (set v k x) k = x.
Proof.
  intros Hv Hk. unfold has, prop.
  destruct v; try discriminate; cbn [set]; rewrite lookup_own_entries by assumption;
    rewrite lookup_replace_same; now split.
Qed.

Lemma has_set_other (v : value) (k k' : str) (x : value) :
  isObject v = true -> named_key k = true -> named_key k' = true -> k <> k' ->
  has k (set v k' x) = has k v /\ prop (set v k' x) k = prop v k.
Proof.
  intros Hv Hk Hk' Hne. unfold has, prop.
  destruct v; try discriminate; cbn [set];
    rewrite !lookup_own_entries by assumption;
    rewrite lookup_replace_other by assumption; now split.
Qed.

Lemma set_same_value (v : value) (k : str) :
  isObject v = true -> named_key k = true -> has k v = Ok true ->
  set v k (prop v k) = v.
Proof.
  intros Hv Hk. unfold has, prop.
  destruct v; try discriminate; cbn [set];
    rewrite !lookup_own_entries by assumption;
    match goal with |- context [lookup k ?ps] => destruct (lookup k ps) eqn:E end;
    try discriminate; intros _; now rewrite replace_entry_same_value.
Qed.

Lemma isObject_set (v : value) (k : str) (x : value) :
  isObject (set v k x) = isObject v.
Proof. now destruct v. Qed.

Lemma typeof_isObject (v : value) :
  jstype_eqb (typeof v) TyObject = true <-> isObject v = true \/ v = VNull.
Proof.
  destruct v; cbn; split; intros H; try discriminate; auto;
    destruct H as [H|H]; discriminate.
Qed.

Lemma has_isObject (k : str) (v : value) :
  isObject v = true ->
  has k v = Ok (match lookup k (own_entries v) with Some _ => true | None => false end).
Proof. now destruct v. Qed.

Lemma has_not_isObject (k : str) (v : value) :
  isObject v = false -> has k v = Throw TypeError.
Proof. now destruct v. Qed.

(** What [defaultColorKey] does, by the kind of [color]. *)
Lemma defaultColorKey_cases (color : value) (k : str) :
  (isObject color = true /\
   defaultColorKey color k
   = Ok (match has k color with
         | Ok true => color
         | _ => set color k (VBool true)
         end)) \/
  (color = VNull /\ defaultColorKey color k = Throw TypeError) \/
  (typeof color <> TyObject /\ defaultColorKey color k = Ok color).
Proof.
  unfold defaultColorKey.
  destruct color as [| |b|n|s|elems named|own]; cbn [typeof jstype_eqb];
    try (right; right; split; [discriminate|reflexivity]).
  - right; left. now split.
  - left. split; [reflexivity|]. rewrite has_isObject by reflexivity.
    cbn [bind]. now destruct (lookup k _).
  - left. split; [reflexivity|]. rewrite has_isObject by reflexivity.
    cbn [bind]. now destruct (lookup k _).
Qed.

(** On an object or array, [defaultColorKey] leaves an object or array that
    has the key, and keeps the keys that were there. *)
Lemma defaultColorKey_isObject (color : value) (k : str) :
  isObject color = true -> named_key k = true ->
  exists color',
    defaultColorKey color k = Ok color' /\
    isObject color' = true /\
    has k color' = Ok true /\
    (forall k', named_key k' = true -> has k' color = Ok true ->
                has k' color' = Ok true) /\
    (has k color = Ok true -> color' = color).
Proof.
  intros Hc Hk.
  destruct (defaultColorKey_cases color k) as [(_ & E)|[(-> & _)|(Hty & _)]];
    [|discriminate|destruct color; try discriminate; now contradiction Hty].
  rewrite E. eexists. split; [reflexivity|].
  rewrite (has_isObject k color Hc).
  destruct (lookup k (own_entries color)) eqn:El.
  - split; [assumption|]. split; [now rewrite has_isObject, El|]. now split.
  - split; [now rewrite isObject_set|].
    split; [now apply has_set_same|]. split; [|discriminate].
    intros k' Hk' Hhas. destruct (list_eq_dec ascii_dec k' k) as [->|Hne].
    + now apply has_set_same.
    + now rewrite (proj1 (has_set_other color k' k (VBool true) Hc Hk' Hk Hne)).
Qed.

(** ** [augmentSupports] on every value *)

Lemma isObject_truthy (v : value) : isObject v = true -> truthy v = true.
Proof. now destruct v. Qed.

Lemma typeof_not_object (v : value) :
  typeof v <> TyObject -> jstype_eqb (typeof v) TyObject = false.
Proof. destruct v; cbn; intros H; try reflexivity; now contradiction H. Qed.

Lemma defaultColorKey_not_object (color : value) (k : str) :
  typeof color <> TyObject -> defaultColorKey color k = Ok color.
Proof.
  intros H. unfold defaultColorKey. now rewrite typeof_not_object.
Qed.

Lemma augmentSupports_unchanged (supports : value) :
  isObject supports = true ->
  typeof (prop supports (lit "color")) <> TyObject ->
  augmentSupports supports = Ok supports.
Proof.
  intros Hobj Hty. unfold augmentSupports.
  rewrite (isObject_truthy _ Hobj).
  destruct (has (lit "color") supports) as [[|]|e] eqn:Ehas; cbn [bind];
    [|reflexivity|rewrite has_isObject in Ehas by assumption; discriminate].
  rewrite (defaultColorKey_not_object _ _ Hty). cbn [bind].
  rewrite (defaultColorKey_not_object _ _ Hty). cbn [bind].
  now rewrite set_same_value.
Qed.

(** X3.  When [supports] is an object (or an array) whose [color] is absent
    or is not itself an object, such as [true] or the string [link],
    [augmentSupports] returns [supports] as it is: no [background] and no
    [text] is added anywhere. *)
Theorem augmentSupports_plain_color (supports : value) :
  isObject supports = true ->
  typeof (prop supports (lit "color")) <> TyObject ->
  augmentSupports supports = Ok supports.
Proof. apply augmentSupports_unchanged. Qed.

Lemma augmentSupports_plain_color_witness :
  let supports := VObject [(lit "align", VBool true);
                           (lit "color", VString (lit "link"))] in
  isObject supports = true /\
  typeof (prop supports (lit "color")) <> TyObject /\
  augmentSupports supports = Ok supports.
Proof.
  intros supports.
  assert (H1 : isObject supports = true) by reflexivity.
  assert (H2 : typeof (prop supports (lit "color")) <> TyObject)
    by (cbn; discriminate).
  split; [exact H1|]. split; [exact H2|].
  exact (augmentSupports_plain_color supports H1 H2).
Defined.

(** What [augmentSupports] returns on an object or array whose [color] is
    an object or array. *)
Lemma augmentSupports_isObject (supports : value) :
  isObject supports = true ->
  has (lit "color") supports = Ok true ->
  isObject (prop supports (lit "color")) = true ->
  exists color',
    augmentSupports supports = Ok (set supports (lit "color") color') /\
    isObject color' = true /\
    has (lit "background") color' = Ok true /\
    has (lit "text") color' = Ok true.
Proof.
  intros Hobj Hhas Hcolor. unfold augmentSupports.
  rewrite (isObject_truthy _ Hobj), Hhas. cbn [bind].
  destruct (defaultColorKey_isObject _ (lit "background") Hcolor eq_refl)
    as (c1 & E1 & Ho1 & Hb1 & _ & _).
  destruct (defaultColorKey_isObject _ (lit "text") Ho1 eq_refl)
    as (c2 & E2 & Ho2 & Ht2 & Hkeep & _).
  rewrite E1. cbn [bind]. rewrite E2. cbn [bind].
  exists c2. split; [reflexivity|]. split; [assumption|].
  split; [now apply Hkeep|assumption].
Qed.

Lemma augmentSupports_fixed (supports supports' : value) :
  augmentSupports supports = Ok supports' ->
  augmentSupports supports' = Ok supports'.
Proof.
  intros H.
  destruct (truthy supports) eqn:Ht.
  2:{ unfold augmentSupports in H. rewrite Ht in H. injection H as <-.
      unfold augmentSupports. now rewrite Ht. }
  destruct (isObject supports) eqn:Hobj.
  2:{ unfold augmentSupports in H.
      rewrite Ht, has_not_isObject in H by assumption. discriminate. }
  destruct (has (lit "color") supports) as [[|]|e] eqn:Ehas.
  3:{ rewrite has_isObject in Ehas by assumption. discriminate. }
  2:{ unfold augmentSupports in H. rewrite Ht, Ehas in H. cbn [bind] in H.
      injection H as <-. unfold augmentSupports. now rewrite Ht, Ehas. }
  destruct (defaultColorKey_cases (prop supports (lit "color")) (lit "background"))
    as [(Hc & _)|[(Hnull & E)|(Hty & _)]].
  - destruct (augmentSupports_isObject supports Hobj Ehas Hc)
      as (c2 & E & Ho2 & Hb2 & Ht2).
    rewrite E in H. injection H as <-.
    set (s' := set supports (lit "color") c2).
    assert (Hobj' : isObject s' = true) by (unfold s'; now rewrite isObject_set).
    destruct (has_set_same supports (lit "color") c2 Hobj eq_refl) as [Hhas' Hprop'].
    fold s' in Hhas', Hprop'.
    unfold augmentSupports. rewrite (isObject_truthy _ Hobj'), Hhas'. cbn [bind].
    rewrite Hprop'.
    destruct (defaultColorKey_isObject c2 (lit "background") Ho2 eq_refl)
      as (c3 & E3 & _ & _ & _ & Hsame3).
    rewrite (Hsame3 Hb2) in E3. rewrite E3. cbn [bind].
    destruct (defaultColorKey_isObject c2 (lit "text") Ho2 eq_refl)
      as (c4 & E4 & _ & _ & _ & Hsame4).
    rewrite (Hsame4 Ht2) in E4. rewrite E4. cbn [bind].
    rewrite <- Hprop' at 1. now rewrite set_same_value.
  - unfold augmentSupports in H. rewrite Ht, Ehas in H. cbn [bind] in H.
    rewrite E in H. discriminate.
  - rewrite (augmentSupports_unchanged supports Hobj Hty) in H.
    injection H as <-. now apply augmentSupports_unchanged.
Qed.

(** X4.  [augmentSupports] is idempotent: augmenting what it returned gives
    the same value again, and where it throws it throws. *)
Theorem augmentSupports_idempotent (supports : value) :
  (supportsAugmented <- augmentSupports supports ;;
   augmentSupports supportsAugmented)
  = augmentSupports supports.
Proof.
  destruct (augmentSupports supports) as [s'|e] eqn:E; cbn [bind];
    [|reflexivity].
  exact (augmentSupports_fixed supports s' E).
Qed.

(** X5.  [augmentSupports] throws exactly on a truthy value that is not an
    object ([true], a number other than 0, a string that is not empty) and
    on an object whose [color] is [null]; on everything else, the falsy
    values included, it returns. *)
Theorem augmentSupports_throws (supports : value) :
  augmentSupports supports = Throw TypeError <->
  (truthy supports = true /\ isObject supports = false) \/
  (isObject supports = true /\ prop supports (lit "color") = VNull).
Proof.
  split.
  - intros H. destruct (truthy supports) eqn:Ht.
    2:{ unfold augmentSupports in H. rewrite Ht in H. discriminate. }
    destruct (isObject supports) eqn:Hobj; [right|left; now split].
    split; [reflexivity|].
    destruct (has (lit "color") supports) as [[|]|e] eqn:Ehas.
    + destruct (defaultColorKey_cases (prop supports (lit "color")) (lit "background"))
        as [(Hc & _)|[(Hnull & _)|(Hty & _)]].
      * destruct (augmentSupports_isObject supports Hobj Ehas Hc) as (? & E & _).
        rewrite E in H. discriminate.
      * assumption.
      * rewrite (augmentSupports_unchanged supports Hobj Hty) in H.
        discriminate.
    + unfold augmentSupports in H. rewrite Ht, Ehas in H. discriminate.
    + rewrite has_isObject in Ehas by assumption. discriminate.
  - intros [[Ht Hobj]|[Hobj Hnull]]; unfold augmentSupports.
    + now rewrite Ht, has_not_isObject.
    + rewrite (isObject_truthy _ Hobj), has_isObject by assumption.
      unfold prop in Hnull.
      destruct (lookup (lit "color") (own_entries supports)) eqn:El;
        [|discriminate].
      cbn [bind]. unfold prop. rewrite El. subst v. reflexivity.
Qed.

(** ** [readBlockJSON] on unusual descriptors *)

Lemma get_not_null (v : value) (k : str) :
  v <> VNull -> v <> VUndefined -> get v k = Ok (prop v k).
Proof. destruct v; cbn; intros H1 H2; try reflexivity; congruence. Qed.

Lemma prop_null (k : str) : prop VNull k = VUndefined.
Proof. reflexivity. Qed.

(** The template reads six properties of the descriptor. *)
Lemma template_ext (b1 b2 supportsList attributes : value) :
  (forall k, In k [lit "title"; lit "name"; lit "description";
                   lit "category"; lit "ancestor"; lit "parent"] ->
             prop b1 k = prop b2 k) ->
  template b1 supportsList attributes = template b2 supportsList attributes.
Proof.
  intros H. unfold template.
  rewrite (H (lit "title")), (H (lit "name")), (H (lit "description")),
    (H (lit "category")), (H (lit "ancestor")), (H (lit "parent"));
    cbn [In]; auto 10.
Qed.

Lemma lookup_filter_other (k k0 : str) (own : list (str * value)) :
  lookup k (filter (fun kv => negb (str_eqb (fst kv) k0)) own)
  = if str_eqb k k0 then None else lookup k own.
Proof.
  induction own as [|[k' v'] own IH]; cbn [filter lookup fst].
  - now destruct (str_eqb k k0).
  - destruct (str_eqb k' k0) eqn:E0; cbn [negb lookup].
    + rewrite IH. destruct (str_eqb k k0) eqn:E; [reflexivity|].
      destruct (str_eqb k k') eqn:E'; [|reflexivity].
      apply str_eqb_eq in E0, E'. apply str_eqb_neq in E. congruence.
    + rewrite IH. destruct (str_eqb k k') eqn:E'; [|reflexivity].
      apply str_eqb_eq in E'. subst k'. now rewrite E0.
Qed.

(** X6.  A descriptor whose [supports] is falsy ([null], [false], [0] or
    the empty string), wherever it stands among the keys, renders as the
    same descriptor without [supports]. *)
Theorem readBlockJSON_falsy_supports (own : list (str * value)) :
  truthy (prop (VObject own) (lit "supports")) = false ->
  readBlockJSON (VObject own)
  = readBlockJSON
      (VObject (filter (fun kv => negb (str_eqb (fst kv) (lit "supports"))) own)).
Proof.
  intros Hv.
  set (own' := filter (fun kv => negb (str_eqb (fst kv) (lit "supports"))) own).
  assert (Hother : forall k, k <> lit "supports" ->
            prop (VObject own') k = prop (VObject own) k).
  { intros k Hk. unfold prop, own'. cbn [own_entries].
    rewrite lookup_filter_other. apply str_eqb_neq in Hk. now rewrite Hk. }
  assert (Hnone : prop (VObject own') (lit "supports") = VUndefined).
  { unfold prop, own'. cbn [own_entries].
    now rewrite lookup_filter_other, str_eqb_refl. }
  unfold readBlockJSON. cbn [get].
  rewrite (Hother (lit "name")) by discriminate.
  rewrite (Hother (lit "attributes")) by discriminate.
  rewrite Hnone. cbn [bind].
  destruct (jstype_eqb (typeof (prop (VObject own) (lit "name"))) TyUndefined);
    [reflexivity|].
  generalize dependent (prop (VObject own) (lit "supports")). intros v Hv.
  assert (Hs : (if negb (jstype_eqb (typeof v) TyUndefined)
                then supportsAugmented <- augmentSupports v ;;
                     if truthy supportsAugmented
                     then processObjWithInnerKeys supportsAugmented
                     else Ok []
                else Ok []) = Ok []).
  { destruct (negb (jstype_eqb (typeof v) TyUndefined)); [|reflexivity].
    unfold augmentSupports. rewrite Hv. cbn [bind]. now rewrite Hv. }
  rewrite Hs. clear Hs. cbn [typeof jstype_eqb negb bind].
  match goal with
  | |- bind ?x _ = _ => destruct x as [attributes|e]
  end; cbn [bind]; [|reflexivity].
  symmetry. apply template_ext. intros k Hk. apply Hother.
  cbn [In] in Hk. intros ->.
  repeat (destruct Hk as [Hk|Hk]; [discriminate|]). exact Hk.
Qed.

Lemma readBlockJSON_falsy_supports_witness :
  let own := [(lit "supports", VNumber Zero);
              (lit "name", VString (lit "woo/x"));
              (lit "title", VString (lit "X"))] in
  truthy (prop (VObject own) (lit "supports")) = false /\
  readBlockJSON (VObject own)
  = readBlockJSON (VObject [(lit "name", VString (lit "woo/x"));
                            (lit "title", VString (lit "X"))]).
Proof.
  intros own. split; [reflexivity|].
  exact (readBlockJSON_falsy_supports own eq_refl).
Defined.

(** X7.  A descriptor that has a name and whose [attributes] is [null]
    makes [readBlockJSON] throw, whatever its other fields are. *)
Theorem readBlockJSON_null_attributes (blockjson : value) :
  typeof (prop blockjson (lit "name")) <> TyUndefined ->
  prop blockjson (lit "attributes") = VNull ->
  readBlockJSON blockjson = Throw TypeError.
Proof.
  intros Hname Hattr. unfold readBlockJSON.
  rewrite get_not_null; [|intros ->; now apply Hname..].
  cbn [bind].
  destruct (jstype_eqb (typeof (prop blockjson (lit "name"))) TyUndefined) eqn:E.
  { destruct (prop blockjson (lit "name")); try discriminate. now contradiction Hname. }
  rewrite Hattr.
  match goal with
  | |- bind ?x _ = _ => destruct x as [supportsList|[]]
  end; reflexivity.
Qed.

Lemma readBlockJSON_null_attributes_witness :
  let blockjson := VObject [(lit "name", VString (lit "woo/x"));
                            (lit "attributes", VNull)] in
  typeof (prop blockjson (lit "name")) <> TyUndefined /\
  prop blockjson (lit "attributes") = VNull /\
  readBlockJSON blockjson = Throw TypeError.
Proof.
  intros blockjson.
  assert (H1 : typeof (prop blockjson (lit "name")) <> TyUndefined)
    by (cbn; discriminate).
  split; [exact H1|]. split; [reflexivity|].
  exact (readBlockJSON_null_attributes blockjson H1 eq_refl).
Defined.

(** ** The inner lists are sorted *)

Lemma sort_map {A B : Type} (f : A -> B) (lt1 : A -> A -> bool)
    (lt2 : B -> B -> bool) (l : list A) :
  (forall x y, lt2 (f x) (f y) = lt1 x y) ->
  sort lt2 (map f l) = map f (sort lt1 l).
Proof.
  intros H. induction l as [|x l IH]; cbn [map sort]; [reflexivity|].
  rewrite IH. generalize (sort lt1 l). intros s.
  induction s as [|y s IHs]; cbn [map insert]; [reflexivity|].
  rewrite H. destruct (lt1 y x); cbn [map]; [now rewrite IHs|reflexivity].
Qed.

Lemma str_ltb_asym (a b : str) : str_ltb a b = true -> str_ltb b a = false.
Proof.
  revert b. induction a as [|x a IH]; intros [|y b]; cbn [str_ltb];
    try reflexivity; try discriminate.
  destruct (nat_of_ascii x <? nat_of_ascii y)%nat eqn:E1;
    destruct (nat_of_ascii y <? nat_of_ascii x)%nat eqn:E2;
    try reflexivity; try discriminate.
  - apply Nat.ltb_lt in E1, E2. lia.
  - apply IH.
Qed.

Lemma sort_str_Sorted (l : list str) :
  Sorted (fun a b => str_leb a b = true) (sort str_ltb l).
Proof.
  pose proof (sort_Sorted str_ltb str_ltb_asym l) as H.
  eapply Sorted_ind with (P := fun l => Sorted (fun a b => str_leb a b = true) l);
    [constructor| |exact H].
  intros a s _ IH Hhd. constructor; [exact IH|].
  destruct Hhd as [|b s' Hab]; constructor.
  unfold str_leb. now rewrite Hab.
Qed.

(** X8.  For a key whose value is a nested object, the entry of the
    Supports list is the key followed by the inner keys of that object in
    ascending order, separated by a comma and a space: the inner list is
    sorted, unlike the list itself. *)
Theorem innerKeysEntry_object_sorted (obj : value) (key : str)
    (inner : list (str * value)) :
  prop obj key = VObject inner ->
  exists keys innerKeys,
    innerKeysEntry obj key
    = Ok (key ++ lit " (" ++ join (lit ", ") keys ++ lit ")") /\
    getTruthyKeys (VObject inner) = Ok innerKeys /\
    Permutation innerKeys keys /\
    Sorted (fun a b => str_leb a b = true) keys.
Proof.
  intros H. unfold innerKeysEntry. rewrite H. cbn [typeof jstype_eqb].
  rewrite getTruthyKeys_VObject. cbn [bind].
  eexists _, _. split; [reflexivity|]. split; [reflexivity|].
  split; [apply sort_perm|apply sort_str_Sorted].
Qed.

Lemma innerKeysEntry_object_sorted_witness :
  let obj := VObject [(lit "spacing",
                       VObject [(lit "padding", VBool true);
                                (lit "margin", VBool true);
                                (lit "blockGap", VBool false)])] in
  prop obj (lit "spacing")
  = VObject [(lit "padding", VBool true); (lit "margin", VBool true);
             (lit "blockGap", VBool false)] /\
  exists keys innerKeys,
    innerKeysEntry obj (lit "spacing")
    = Ok (lit "spacing" ++ lit " (" ++ join (lit ", ") keys ++ lit ")") /\
    getTruthyKeys (VObject [(lit "padding", VBool true); (lit "margin", VBool true);
                            (lit "blockGap", VBool false)]) = Ok innerKeys /\
    Permutation innerKeys keys /\
    Sorted (fun a b => str_leb a b = true) keys.
Proof.
  intros obj. split; [reflexivity|].
  exact (innerKeysEntry_object_sorted obj (lit "spacing") _ eq_refl).
Defined.

Lemma mapM_toString_strings (l : list str) :
  mapM toString (map VString l) = Ok l.
Proof. induction l as [|x l IH]; simpl; [reflexivity|now rewrite IH]. Qed.

(** Sorting an array of strings sorts the strings. *)
Lemma Array_sort_strings (items : list str) :
  Array_sort (map VString items) = Ok (map VString (sort str_ltb items)).
Proof.
  unfold Array_sort.
  assert (E : filter defined (map VString items) = map VString items)
    by (induction items as [|x l IH]; simpl; [reflexivity|now rewrite IH]).
  rewrite E, (sort_map VString str_ltb value_ltb) by reflexivity.
  destruct (map VString items) as [|a [|b l]] eqn:E'; try reflexivity.
  rewrite <- E', mapM_toString_strings. reflexivity.
Qed.

(** X9.  For a key whose value is an array of strings, the entry is the key
    followed by those strings in ascending order, separated by a comma and a
    space. *)
Theorem innerKeysEntry_array_sorted (obj : value) (key : str)
    (items : list str) (named : list (str * value)) :
  prop obj key = VArray (map VString items) named ->
  exists sorted,
    innerKeysEntry obj key
    = Ok (key ++ lit " (" ++ join (lit ", ") sorted ++ lit ")") /\
    Permutation items sorted /\
    Sorted (fun a b => str_leb a b = true) sorted.
Proof.
  intros H. unfold innerKeysEntry. rewrite H.
  exists (sort str_ltb items). split.
  - rewrite Array_sort_strings. cbn [bind]. unfold Array_join.
    now rewrite join_text_strings.
  - split; [apply sort_perm|apply sort_str_Sorted].
Qed.

Lemma innerKeysEntry_array_sorted_witness :
  let obj := VObject [(lit "align",
                       VArray [VString (lit "wide"); VString (lit "full")] [])] in
  prop obj (lit "align")
  = VArray (map VString [lit "wide"; lit "full"]) [] /\
  exists sorted,
    innerKeysEntry obj (lit "align")
    = Ok (lit "align" ++ lit " (" ++ join (lit ", ") sorted ++ lit ")") /\
    Permutation [lit "wide"; lit "full"] sorted /\
    Sorted (fun a b => str_leb a b = true) sorted.
Proof.
  intros obj. split; [reflexivity|].
  exact (innerKeysEntry_array_sorted obj (lit "align")
           [lit "wide"; lit "full"] [] eq_refl).
Defined.

(** ** The Supports list, entry by entry *)

(** X10.  When [processObjWithInnerKeys] returns, its list has one entry for
    each element of the truthy-key list, in the same order, and each entry
    is that element, alone or followed by a list in parentheses. *)
Theorem processObjWithInnerKeys_entries (obj : value) (supportsList : list str) :
  processObjWithInnerKeys obj = Ok supportsList ->
  exists kvs,
    getTruthyKeys obj = Ok kvs /\
    Forall2 (fun key e =>
               e = key \/
               exists inner, e = key ++ lit " (" ++ inner ++ lit ")")
      kvs supportsList.
Proof.
  unfold processObjWithInnerKeys. intros H.
  apply bind_ok in H as (kvs & Hk & H). exists kvs. split; [exact Hk|].
  apply innerKeysLoop_entries in H. clear Hk.
  induction H as [|key e kvs' l He _ IH]; [constructor|].
  constructor; [|exact IH].
  apply innerKeysEntry_shape in He as [->|[(? & ? & ? & _ & _ & ->)|(? & _ & ->)]];
    [now left|right; now eexists..].
Qed.

Lemma processObjWithInnerKeys_entries_witness :
  let obj := VObject [(lit "html", VBool false);
                      (lit "align", VArray [VString (lit "wide")] [])] in
  processObjWithInnerKeys obj = Ok [lit "~~html~~"; lit "align (wide)"] /\
  exists kvs,
    getTruthyKeys obj = Ok kvs /\
    Forall2 (fun key e =>
               e = key \/
               exists inner, e = key ++ lit " (" ++ inner ++ lit ")")
      kvs [lit "~~html~~"; lit "align (wide)"].
Proof.
  intros obj.
  assert (H : processObjWithInnerKeys obj = Ok [lit "~~html~~"; lit "align (wide)"])
    by reflexivity.
  split; [exact H|].
  exact (processObjWithInnerKeys_entries obj _ H).
Defined.

(** ** The generated text *)

(** X11.  The generated text is there exactly when [readBlockJSON] returns
    on every file, and it is the fragments of the files, in their order, one
    after the other. *)
Theorem generate_ok (files : list value) (autogen : str) :
  generate files = Ok autogen <->
  exists fragments,
    Forall2 (fun file markup => readBlockJSON file = Ok markup) files fragments /\
    autogen = concat fragments.
Proof.
  revert autogen. induction files as [|file files IH]; intros autogen; cbn [generate].
  - split.
    + intros H. injection H as <-. exists []. split; [constructor|reflexivity].
    + intros (fragments & H & ->). inversion H. reflexivity.
  - split.
    + intros H. apply bind_ok in H as (markup & Hm & H).
      apply bind_ok in H as (rest & Hr & H). injection H as <-.
      apply IH in Hr as (fragments & HF & ->).
      exists (markup :: fragments). split; [now constructor|reflexivity].
    + intros (fragments & H & ->). inversion H as [|? markup ? rest Hm HF]; subst.
      rewrite Hm. cbn [bind].
      assert (Hr : generate files = Ok (concat rest))
        by (apply IH; now exists rest).
      rewrite Hr. reflexivity.
Qed.

Lemma forEachFile_ok (d : disk) (files : list str) :
  forall autogen0 autogen,
    forEachFile d files autogen0 = inr autogen <->
    exists values generated,
      Forall2 (fun file blockjson => required d file = Some blockjson)
        files values /\
      generate values = Ok generated /\
      autogen = autogen0 ++ generated.
Proof.
  induction files as [|file files IH]; intros autogen0 autogen; cbn [forEachFile].
  - split.
    + intros H. injection H as <-. exists [], [].
      split; [constructor|]. split; [reflexivity|now rewrite app_nil_r].
    + intros (values & generated & HF & Hg & ->). inversion HF; subst.
      cbn [generate] in Hg. injection Hg as <-. now rewrite app_nil_r.
  - split.
    + destruct (required d file) as [blockjson|] eqn:Er; [|discriminate].
      destruct (readBlockJSON blockjson) as [markup|e] eqn:Em; [|discriminate].
      intros H. apply IH in H as (values & generated & HF & Hg & ->).
      exists (blockjson :: values), (markup ++ generated).
      split; [now constructor|]. cbn [generate]. rewrite Em, Hg. cbn [bind].
      split; [reflexivity|now rewrite app_assoc].
    + intros (values & generated & HF & Hg & ->).
      inversion HF as [|? blockjson ? values' Er HF']; subst.
      rewrite Er. cbn [generate] in Hg.
      apply bind_ok in Hg as (markup & Em & Hg).
      apply bind_ok in Hg as (rest & Hrest & Hg). injection Hg as <-.
      rewrite Em. apply IH. exists values', rest.
      split; [exact HF'|]. split; [exact Hrest|now rewrite app_assoc].
Qed.

(** X12.  The script writes the documentation file exactly when the walk,
    every [require], every [readBlockJSON], the read of the documentation
    file and the write succeed; what it writes is then the splice of the
    generated text into the text it read.  In every other case an exception
    ends the run before anything is written. *)
Theorem main_writes (path_join : str -> str -> str)
    (path_extname : str -> str) (BLOCK_LIBRARY_DIR : str)
    (d : disk) (written : str) :
  main path_join path_extname BLOCK_LIBRARY_DIR d = inr written <->
  exists entries values docsContent,
    blocks d = Some entries /\
    Forall2 (fun file blockjson => required d file = Some blockjson)
      (getFiles path_join path_extname BLOCK_LIBRARY_DIR entries []
         (lit ".json"))
      values /\
    docs d = Some docsContent /\
    docs_writable d = true /\
    run values docsContent = Ok written.
Proof.
  unfold main. split.
  - destruct (blocks d) as [entries|]; [|discriminate].
    destruct (forEachFile d _ []) as [e|autogen] eqn:E; [discriminate|].
    destruct (docs d) as [docsContent|]; [|discriminate].
    destruct (docs_writable d) eqn:W; [|discriminate].
    intros H. injection H as <-.
    apply forEachFile_ok in E as (values & generated & HF & Hg & ->).
    exists entries, values, docsContent.
    split; [reflexivity|]. split; [exact HF|]. split; [reflexivity|].
    split; [reflexivity|]. unfold run. now rewrite Hg.
  - intros (entries & values & docsContent & Hb & HF & Hd & Hw & Hrun).
    rewrite Hb. unfold run in Hrun.
    apply bind_ok in Hrun as (autogen & Hg & Hrun). injection Hrun as <-.
    assert (E : forEachFile d
                  (getFiles path_join path_extname BLOCK_LIBRARY_DIR entries []
                     (lit ".json")) []
                = inr autogen)
      by (apply forEachFile_ok; now exists values, autogen).
    rewrite E, Hd, Hw. reflexivity.
Qed.

(** ** The walk over the directory *)

Lemma fsnode_induction (P : fsnode -> Prop) :
  (forall name, P (FsFile name)) ->
  (forall name entries, Forall P entries -> P (FsDir name entries)) ->
  forall file, P file.
Proof.
  intros Hfile Hdir. fix IH 1. intros [name|name entries].
  - apply Hfile.
  - apply Hdir. induction entries as [|e entries IHe]; constructor.
    + apply IH.
    + exact IHe.
Qed.

Lemma slashes_no_backslash (filePath : str) : ~ In "\"%char (slashes filePath).
Proof.
  unfold slashes. intros H. apply in_map_iff in H as (c & H & _).
  destruct (Ascii.eqb c "\") eqn:E; [discriminate|].
  apply Ascii.eqb_neq in E. congruence.
Qed.

Section WalkFacts.
Variable path_join : str -> str -> str.
Variable path_extname : str -> str.
Variable fileExtension : str.

Let entry dir file filesArray :=
  getFilesEntry path_join path_extname dir file filesArray fileExtension.
Let walk dir entries filesArray :=
  getFiles path_join path_extname dir entries filesArray fileExtension.

Lemma getFilesEntry_dir (dir name : str) (entries : list fsnode)
    (filesArray : list str) :
  entry dir (FsDir name entries) filesArray
  = walk (path_join dir name) entries filesArray.
Proof.
  unfold entry, walk, getFiles. cbn [getFilesEntry].
  revert filesArray. induction entries as [|e entries IH]; intros filesArray;
    cbn [fold_left]; [reflexivity|]. apply IH.
Qed.

Lemma getFiles_cons (dir : str) (e : fsnode) (entries : list fsnode)
    (filesArray : list str) :
  walk dir (e :: entries) filesArray
  = walk dir entries (entry dir e filesArray).
Proof. reflexivity. Qed.

Lemma getFiles_acc_from (dir : str) (entries : list fsnode) :
  Forall (fun e => forall dir filesArray,
            entry dir e filesArray = filesArray ++ entry dir e []) entries ->
  forall filesArray,
    walk dir entries filesArray = filesArray ++ walk dir entries [].
Proof.
  induction 1 as [|e entries He _ IH]; intros filesArray.
  - unfold walk, getFiles. cbn [fold_left]. now rewrite app_nil_r.
  - rewrite !getFiles_cons, IH, (IH (entry dir e [])), He.
    now rewrite app_assoc.
Qed.

Lemma getFilesEntry_acc (file : fsnode) :
  forall dir filesArray,
    entry dir file filesArray = filesArray ++ entry dir file [].
Proof.
  induction file as [name|name entries IH] using fsnode_induction;
    intros dir filesArray.
  - unfold entry. cbn [getFilesEntry].
    destruct (str_eqb (path_extname name) fileExtension);
      [reflexivity|now rewrite app_nil_r].
  - rewrite !getFilesEntry_dir. now apply getFiles_acc_from.
Qed.

Lemma getFiles_acc (dir : str) (entries : list fsnode) (filesArray : list str) :
  walk dir entries filesArray = filesArray ++ walk dir entries [].
Proof.
  apply getFiles_acc_from, Forall_forall. intros e _. apply getFilesEntry_acc.
Qed.

Lemma getFiles_app (dir : str) (entries1 entries2 : list fsnode) :
  walk dir (entries1 ++ entries2) []
  = walk dir entries1 [] ++ walk dir entries2 [].
Proof.
  unfold walk, getFiles. rewrite fold_left_app.
  apply (getFiles_acc dir entries2).
Qed.

Lemma getFiles_In_entry (dir : str) (entries : list fsnode) (p : str) :
  In p (walk dir entries []) <->
  exists e, In e entries /\ In p (entry dir e []).
Proof.
  induction entries as [|e entries IH].
  - split; [intros []|intros (e & [] & _)].
  - rewrite getFiles_cons, getFiles_acc, in_app_iff, IH. split.
    + intros [H|(e' & He' & H)]; [exists e|exists e']; cbn [In]; auto.
    + intros (e' & [<-|He'] & H); [now left|right; now exists e'].
Qed.

Lemma getFilesEntry_In (file : fsnode) :
  forall dir p,
    In p (entry dir file []) <->
    exists d name,
      file_at path_join dir file d name /\
      path_extname name = fileExtension /\
      p = slashes (path_join d name).
Proof.
  induction file as [name|name entries IH] using fsnode_induction; intros dir p.
  - unfold entry. cbn [getFilesEntry]. split.
    + destruct (str_eqb (path_extname name) fileExtension) eqn:E;
        [|intros []]. apply str_eqb_eq in E.
      intros [<-|[]]. exists dir, name. split; [constructor|now split].
    + intros (d & n & Hat & Hext & ->). inversion Hat; subst.
      rewrite str_eqb_refl. now left.
  - rewrite getFilesEntry_dir, getFiles_In_entry.
    rewrite Forall_forall in IH. split.
    + intros (e & He & Hp). apply (IH e He) in Hp as (d & n & Hat & Hext & ->).
      exists d, n. split; [|now split]. now apply at_dir with (e := e).
    + intros (d & n & Hat & Hext & ->). inversion Hat; subst.
      exists e. split; [assumption|]. apply (IH e); [assumption|].
      now exists d, n.
Qed.
End WalkFacts.

(** X13.  [getFiles] only appends to the array it is given, and it lists
    the entries of a directory one after the other, in their order. *)
Theorem getFiles_appends (path_join : str -> str -> str)
    (path_extname : str -> str) (dir : str) (fileExtension : str) :
  (forall entries filesArray,
     getFiles path_join path_extname dir entries filesArray fileExtension
     = filesArray ++
       getFiles path_join path_extname dir entries [] fileExtension) /\
  (forall entries1 entries2,
     getFiles path_join path_extname dir (entries1 ++ entries2) [] fileExtension
     = getFiles path_join path_extname dir entries1 [] fileExtension ++
       getFiles path_join path_extname dir entries2 [] fileExtension).
Proof.
  split.
  - intros entries filesArray. apply getFiles_acc.
  - intros entries1 entries2. apply getFiles_app.
Qed.

(** X14.  The paths [getFiles] collects are those of the files, at any
    depth below the directory, whose extension is the one asked for; a
    directory is never collected, whatever its name. *)
Theorem getFiles_collects (path_join : str -> str -> str)
    (path_extname : str -> str) (dir : str) (entries : list fsnode)
    (fileExtension p : str) :
  In p (getFiles path_join path_extname dir entries [] fileExtension) <->
  exists e d name,
    In e entries /\
    file_at path_join dir e d name /\
    path_extname name = fileExtension /\
    p = slashes (path_join d name).
Proof.
  rewrite getFiles_In_entry. split.
  - intros (e & He & Hp). apply getFilesEntry_In in Hp as (d & n & H).
    now exists e, d, n.
  - intros (e & d & n & He & H). exists e. split; [assumption|].
    apply getFilesEntry_In. now exists d, n.
Qed.

(** X15.  No path that [getFiles] collects has a backslash in it. *)
Theorem getFiles_no_backslash (path_join : str -> str -> str)
    (path_extname : str -> str) (dir : str) (entries : list fsnode)
    (fileExtension : str) :
  Forall (fun p => ~ In "\"%char p)
    (getFiles path_join path_extname dir entries [] fileExtension).
Proof.
  apply Forall_forall. intros p Hp.
  apply getFiles_In_entry in Hp as (e & _ & Hp).
  apply getFilesEntry_In in Hp as (d & n & _ & _ & ->).
  apply slashes_no_backslash.
Qed.

(** ** The numbers the workflow extracts *)

(** X16.  The release number that [extract-release] outputs stands in the
    body at the start of a line, has the form [MAJOR.MINOR], and takes all
    the digits of [MINOR]: it is not followed by a digit. *)
Theorem extract_release_maximal (body output releaseNumber : str) :
  extract_release (Some body) = SetOutput output releaseNumber ->
  exists pre major minor rest,
    body = pre ++ NL ++ releaseNumber ++ rest /\
    releaseNumber = major ++ lit "." ++ minor /\
    number major /\ number minor /\
    match rest with
    | a :: _ => digit a = false
    | [] => True
    end.
Proof.
  unfold extract_release.
  destruct (exec releaseRegex body) as [[[pre ps] rest]|] eqn:E; [|discriminate].
  apply exec_inv in E as (s' & -> & Hm).
  apply rmatch_sound in Hm as Hs. destruct Hs as [-> Hacc].
  apply accepts_releaseRegex in Hacc as (x & major & minor & -> & Hmaj & Hmin).
  unfold capture. cbn [skipn firstn concat]. rewrite app_nil_r.
  destruct (truthy _); [|discriminate]. intros H. injection H as _ <-.
  exists (pre ++ RELEASE_QUESTION ++ x), major, minor, rest.
  split; [now rewrite <- !app_assoc|]. split; [reflexivity|].
  split; [assumption|]. split; [assumption|].
  change releaseRegex
    with ([Lit RELEASE_QUESTION; Star false any_char; Lit NL;
           Plus digit; Lit (lit ".")] ++ [Plus digit]) in Hm.
  now apply rmatch_ends_plus in Hm.
Qed.

Lemma extract_release_maximal_witness :
  let body := RELEASE_QUESTION ++ NL ++ lit "16.75.3" in
  extract_release (Some body) = SetOutput (lit "RELEASE_NUMBER") (lit "16.75") /\
  exists pre major minor rest,
    body = pre ++ NL ++ lit "16.75" ++ rest /\
    lit "16.75" = major ++ lit "." ++ minor /\
    number major /\ number minor /\
    match rest with
    | a :: _ => digit a = false
    | [] => True
    end.
Proof.
  intros body.
  assert (H : extract_release (Some body) = SetOutput (lit "RELEASE_NUMBER") (lit "16.75"))
    by reflexivity.
  split; [exact H|].
  exact (extract_release_maximal body _ _ H).
Defined.

(** X17.  The number that [extract-pr] outputs is the whole number at the
    end of a pull-request address that stands at the start of a line: it is
    not followed by a digit. *)
Theorem extract_pr_maximal (body output prNumber : str) :
  extract_pr (Some body) = SetOutput output prNumber ->
  exists pre owner repo rest,
    body = pre ++ NL ++ lit "https://github.com/" ++ owner ++ lit "/" ++
           repo ++ lit "/pull/" ++ prNumber ++ rest /\
    name owner /\ name repo /\ number prNumber /\
    match rest with
    | a :: _ => digit a = false
    | [] => True
    end.
Proof.
  unfold extract_pr.
  destruct (exec prRegex body) as [[[pre ps] rest]|] eqn:E; [|discriminate].
  apply exec_inv in E as (s' & -> & Hm).
  apply rmatch_sound in Hm as Hs. destruct Hs as [-> Hacc].
  apply accepts_prRegex in Hacc as (x & owner & repo & n & -> & Ho & Hr & Hn).
  unfold capture. cbn [skipn firstn concat]. rewrite app_nil_r.
  destruct (truthy _); [|discriminate]. intros H. injection H as _ <-.
  exists (pre ++ PR_QUESTION ++ x), owner, repo, rest.
  split; [now rewrite <- !app_assoc|].
  split; [assumption|]. split; [assumption|]. split; [assumption|].
  change prRegex
    with ([Lit PR_QUESTION; Star false any_char; Lit NL;
           Lit (lit "https://github.com/"); Plus name_char; Lit (lit "/");
           Plus name_char; Lit (lit "/pull/")] ++ [Plus digit]) in Hm.
  now apply rmatch_ends_plus in Hm.
Qed.

Lemma extract_pr_maximal_witness :
  let body := PR_QUESTION ++ NL ++ lit "https://github.com/org/repo/pull/1234." in
  extract_pr (Some body) = SetOutput (lit "PR_NUMBER") (lit "1234") /\
  exists pre owner repo rest,
    body = pre ++ NL ++ lit "https://github.com/" ++ owner ++ lit "/" ++
           repo ++ lit "/pull/" ++ lit "1234" ++ rest /\
    name owner /\ name repo /\ number (lit "1234") /\
    match rest with
    | a :: _ => digit a = false
    | [] => True
    end.
Proof.
  intros body.
  assert (H : extract_pr (Some body) = SetOutput (lit "PR_NUMBER") (lit "1234"))
    by reflexivity.
  split; [exact H|].
  exact (extract_pr_maximal body _ _ H).
Defined.

(** ** The rejected path and the labels *)

Lemma prep_rejected (ev : event) :
  expr_eq (label_name ev) (lit "CFE Rejected") = true ->
  prep ev
  = match extract_release (issue_body ev) with
    | SetOutput _ releaseNumber =>
        {| job_conclusion := Success; job_actions := [];
           job_outputs := [(lit "release_number", releaseNumber)] |}
    | SetFailed message =>
        {| job_conclusion := Failure message; job_actions := [];
           job_outputs := [] |}
    | Unhandled e =>
        {| job_conclusion := Errored e; job_actions := [];
           job_outputs := [] |}
    end.
Proof. intros H. unfold prep. rewrite H, orb_true_r. reflexivity. Qed.


(** X18.  On an issue labeled [CFE Rejected], in any case of the letters,
    only the release number is looked for.  When the body has it, the issue
    gets the milestone made of the release number and [.0] and is then
    closed; when the body is a text that does not have it, [prep] fails with
    the message of [extract-release] and no command runs; when the issue has
    no body, the script of [prep] throws and no command runs either.  The
    pull request is not looked at, and nothing is labeled. *)
Theorem cfe_rejected_run (ev : event) :
  expr_eq (label_name ev) (lit "CFE Rejected") = true ->
  (forall body, issue_body ev = Some body -> release_pattern body ->
   exists releaseNumber,
     extract_release (Some body)
     = SetOutput (lit "RELEASE_NUMBER") releaseNumber /\
     run_commands ev
     = [Gh (IssueMilestone (issue_html_url ev) (releaseNumber ++ lit ".0"));
        IssueClose
          (issue_html_url ev ++ lit ". Please switch the base to trunk and merge.")
          (lit "Closing issue as CFE is rejected - " ++ issue_html_url ev);
        Gh (NotifySlack (lit ":x: CFE request rejected: " ++
                         issue_title ev ++ NL ++ issue_html_url ev ++ NL))]) /\
  (forall body, issue_body ev = Some body -> ~ release_pattern body ->
   job_conclusion (prep ev) = Failure NO_RELEASE /\ run_commands ev = []) /\
  (issue_body ev = None ->
   job_conclusion (prep ev) = Errored TypeError /\ run_commands ev = []).
Proof.
  intros Hlabel.
  unfold run_commands, cfe_created, cfe_approved, cfe_rejected.
  rewrite !(expr_eq_trans _ _ _ Hlabel), (prep_rejected ev Hlabel).
  change (expr_eq (lit "CFE Rejected") (lit "CFE Rejected")) with true.
  change (expr_eq (lit "CFE Rejected") (lit "code freeze exception")) with false.
  change (expr_eq (lit "CFE Rejected") (lit "CFE Approved")) with false.
  cbv iota. cbn [snd map app job_actions].
  split; [|split].
  - intros body Hbody H. rewrite Hbody.
    apply extract_release_iff in H as [releaseNumber H].
    rewrite H. exists releaseNumber. split; reflexivity.
  - intros body Hbody H. rewrite Hbody.
    apply extract_release_failed in H. rewrite H. now split.
  - intros Hbody. rewrite Hbody. now split.
Qed.

Lemma cfe_rejected_run_witness :
  let body := RELEASE_QUESTION ++ NL ++ lit "6.7" in
  let ev := {| label_name := lit "cfe rejected";
               issue_body := Some body;
               issue_title := lit "Fix";
               issue_html_url := lit "https://github.com/org/repo/issues/9";
               repository_owner := lit "org";
               repository_name := lit "repo" |} in
  expr_eq (label_name ev) (lit "CFE Rejected") = true /\
  exists releaseNumber,
    extract_release (Some body) = SetOutput (lit "RELEASE_NUMBER") releaseNumber /\
    run_commands ev
    = [Gh (IssueMilestone (issue_html_url ev) (releaseNumber ++ lit ".0"));
       IssueClose
         (issue_html_url ev ++ lit ". Please switch the base to trunk and merge.")
         (lit "Closing issue as CFE is rejected - " ++ issue_html_url ev);
       Gh (NotifySlack (lit ":x: CFE request rejected: " ++
                        issue_title ev ++ NL ++ issue_html_url ev ++ NL))].
Proof.
  intros body ev. split; [reflexivity|].
  destruct (cfe_rejected_run ev eq_refl) as [H _].
  apply (H body eq_refl).
  apply extract_release_iff. eexists. reflexivity.
Defined.



(** ** The coupon form *)

(** X20.  Whenever the coupon form is hidden, its input is empty: in every
    state the component reaches, the link is shown only with an empty coupon
    value, so that the form opens empty again. *)
Theorem coupon_hidden_is_empty (props : TotalsCouponProps) (s : coupon_state) :
  coupon_reachable props s ->
  isCouponFormHidden s = true -> couponValue s = [].
Proof.
  induction 1 as [|current s e Hreach IH Hen]; [reflexivity|].
  destruct e as [|v| |[|]]; cbn [coupon_step].
  - discriminate.
  - unfold coupon_enabled, coupon_render in Hen. cbn.
    destruct (isCouponFormHidden s); [discriminate|]. discriminate.
  - destruct (hasOnSubmit current); [exact IH|reflexivity].
  - reflexivity.
  - exact IH.
Qed.

Lemma coupon_hidden_is_empty_witness :
  let props := {| isLoading := false; displayCouponForm := false;
                  hasOnSubmit := true |} in
  let loading := {| isLoading := true; displayCouponForm := false;
                    hasOnSubmit := true |} in
  let s := coupon_step loading
             (coupon_step props
                (coupon_step props
                   (coupon_step props (coupon_initial props) AnchorClick)
                   (Change (lit "SAVE10")))
                SubmitClick)
             (Resolved true) in
  coupon_reachable props s /\ isCouponFormHidden s = true /\ couponValue s = [].
Proof.
  intros props loading s.
  assert (Hr : coupon_reachable props s).
  { repeat (apply reach_step; [|reflexivity]). apply reach_initial. }
  assert (Hh : isCouponFormHidden s = true) by reflexivity.
  split; [exact Hr|]. split; [exact Hh|].
  exact (coupon_hidden_is_empty props s Hr Hh).
Defined.

(** X21.  When the form is rendered, the class of its wrapper is the base
    class alone: [screen-reader-text] is never on a rendered wrapper, since
    the form is rendered only when it is not hidden. *)
Theorem coupon_wrapper_class (props : TotalsCouponProps) (s : coupon_state)
    (wrapperClass value : str) (disabled : bool) :
  coupon_render props s = CouponForm wrapperClass value disabled ->
  wrapperClass = lit "wc-block-components-totals-coupon__content".
Proof.
  unfold coupon_render, formWrapperClass.
  destruct (isCouponFormHidden s); [discriminate|].
  intros H. injection H as <- _ _. reflexivity.
Qed.

Lemma coupon_wrapper_class_witness :
  let props := {| isLoading := false; displayCouponForm := true;
                  hasOnSubmit := true |} in
  coupon_render props (coupon_initial props)
  = CouponForm (lit "wc-block-components-totals-coupon__content") [] true /\
  lit "wc-block-components-totals-coupon__content"
  = lit "wc-block-components-totals-coupon__content".
Proof.
  intros props.
  assert (H : coupon_render props (coupon_initial props)
              = CouponForm (lit "wc-block-components-totals-coupon__content") [] true)
    by reflexivity.
  split; [exact H|].
  exact (coupon_wrapper_class props _ _ _ _ H).
Defined.

(** ** Descriptors without [$] *)

Lemma value_induction (P : value -> Prop) :
  P VUndefined -> P VNull -> (forall b, P (VBool b)) ->
  (forall n, P (VNumber n)) -> (forall s, P (VString s)) ->
  (forall elems named,
     Forall P elems -> Forall (fun kv => P (snd kv)) named ->
     P (VArray elems named)) ->
  (forall own, Forall (fun kv => P (snd kv)) own -> P (VObject own)) ->
  forall v, P v.
Proof.
  intros Hu Hn Hb Hz Hs Ha Ho. fix IH 1.
  intros [| |b|n|s|elems named|own].
  - exact Hu.
  - exact Hn.
  - apply Hb.
  - apply Hz.
  - apply Hs.
  - apply Ha.
    + induction elems as [|e elems IHe]; constructor; [apply IH|exact IHe].
    + induction named as [|[k x] named IHn]; constructor; [apply IH|exact IHn].
  - apply Ho.
    induction own as [|[k x] own IHo]; constructor; [apply IH|exact IHo].
Qed.

Lemma plain_app (a b : str) : plain (a ++ b) = plain a && plain b.
Proof. apply forallb_app. Qed.

Lemma plain_join (sep : str) (l : list str) :
  plain sep = true -> Forall (fun x => plain x = true) l ->
  plain (join sep l) = true.
Proof.
  intros Hsep. induction 1 as [|x l Hx Hl IH]; [reflexivity|].
  cbn [join]. destruct l as [|y l]; [exact Hx|].
  now rewrite !plain_app, Hx, Hsep, IH.
Qed.

Lemma plain_uint (d : Decimal.uint) :
  plain (lit (NilEmpty.string_of_uint d)) = true.
Proof. induction d; cbn; auto. Qed.

Lemma plain_nilzero (d : Decimal.uint) :
  plain (lit (NilZero.string_of_uint d)) = true.
Proof.
  unfold NilZero.string_of_uint.
  destruct d; try reflexivity; apply plain_uint.
Qed.

Lemma plain_nat_to_str (n : nat) : plain (nat_to_str n) = true.
Proof. apply plain_nilzero. Qed.

Lemma plain_rev (s : str) : plain (rev s) = plain s.
Proof.
  induction s as [|c s IH]; [reflexivity|].
  cbn [rev]. rewrite plain_app, IH. cbn. now rewrite andb_true_r, andb_comm.
Qed.

Lemma plain_drop_zeros (s : str) : plain s = true -> plain (drop_zeros s) = true.
Proof.
  induction s as [|c s IH]; [reflexivity|]. cbn [drop_zeros]. intros H.
  destruct (Ascii.eqb c "0"); [|exact H].
  apply IH. cbn in H. now apply andb_prop in H.
Qed.

Lemma plain_firstn_skipn (n : nat) (s : str) :
  plain s = true -> plain (firstn n s) = true /\ plain (skipn n s) = true.
Proof.
  intros H. rewrite <- (firstn_skipn n s), plain_app in H.
  now apply andb_prop in H.
Qed.

Lemma plain_firstn (n : nat) (s : str) : plain s = true -> plain (firstn n s) = true.
Proof. intros H. now apply plain_firstn_skipn. Qed.

Lemma plain_skipn (n : nat) (s : str) : plain s = true -> plain (skipn n s) = true.
Proof. intros H. now apply plain_firstn_skipn. Qed.

Lemma plain_zeros (n : nat) : plain (zeros n) = true.
Proof. induction n as [|n IH]; [reflexivity|exact IH]. Qed.

Lemma plain_significand (digits : positive) : plain (significand digits) = true.
Proof.
  unfold significand. rewrite plain_rev. apply plain_drop_zeros.
  rewrite plain_rev. apply plain_uint.
Qed.

Lemma plain_N_to_str (n : N) : plain (N_to_str n) = true.
Proof. apply plain_nilzero. Qed.

Lemma plain_Number_toString (n : jsnumber) : plain (Number_toString n) = true.
Proof.
  destruct n as [|negative|negative digits n]; cbn [Number_toString].
  - reflexivity.
  - now destruct negative.
  - pose proof (plain_significand digits) as Hs.
    match goal with
    | |- plain (?sign ++ _) = true =>
        assert (Hn : plain sign = true) by now destruct negative
    end.
    rewrite plain_app, Hn. cbn [andb].
    destruct (_ && _); [now rewrite plain_app, Hs, plain_zeros|].
    destruct (_ && _);
      [now rewrite !plain_app, plain_firstn, plain_skipn|].
    destruct (_ && _); [now rewrite !plain_app, Hs, plain_zeros|].
    match goal with
    | |- context [?sign ++ N_to_str _] =>
        assert (He : plain sign = true) by now destruct (_ <? _)%Z
    end.
    destruct (significand digits) as [|d ds]; [reflexivity|].
    assert (Hd : plain [d] = true /\ plain ds = true).
    { cbn in Hs |- *. apply andb_prop in Hs as [-> Hs]. now split. }
    destruct Hd as [Hd Hds].
    destruct ds as [|d' ds];
      now rewrite !plain_app, ?Hd, ?Hds, He, plain_N_to_str.
Qed.

Lemma Forall2_In_r {A B} (R : A -> B -> Prop) (l1 : list A) (l2 : list B) (b : B) :
  Forall2 R l1 l2 -> In b l2 -> exists a, In a l1 /\ R a b.
Proof.
  induction 1 as [|x y l1 l2 Hxy _ IH]; simpl; intros Hin; [destruct Hin|].
  destruct Hin as [->|Hin].
  - exists x. auto.
  - destruct (IH Hin) as (a & Ha & Hr). exists a. auto.
Qed.

Lemma plain_toString (v : value) :
  plain_value v = true -> forall s, toString v = Ok s -> plain s = true.
Proof.
  induction v as [| |b|n|s0|elems named IHe _|own _] using value_induction;
    intros H s E.
  - now injection E as <-.
  - now injection E as <-.
  - destruct b; now injection E as <-.
  - injection E as <-. apply plain_Number_toString.
  - injection E as <-. exact H.
  - rewrite toString_VArray in E. unfold Array_join in E.
    apply bind_ok in E as (texts & Ht & E). injection E as <-.
    cbn [plain_value] in H. apply andb_prop in H as [H _].
    apply plain_join; [reflexivity|].
    apply mapM_ok in Ht. apply Forall_forall. intros t Hin.
    destruct (Forall2_In_r _ _ _ _ Ht Hin) as (e & He & Het).
    rewrite forallb_forall in H. rewrite Forall_forall in IHe.
    specialize (IHe e He (H e He) t).
    destruct e; try (now apply IHe); now injection Het as <-.
  - cbn [toString] in E. destruct (lookup _ own); [discriminate|].
    now injection E as <-.
Qed.

Lemma plain_join_text (e : value) (t : str) :
  plain_value e = true -> join_text e = Ok t -> plain t = true.
Proof.
  intros H E.
  destruct e; try (now apply (plain_toString _ H)); now injection E as <-.
Qed.

Lemma plain_entries_forallb (ps : list (str * value)) :
  forallb (fun kv => match kv with
                     | (k, x) => plain k && plain_value x
                     end) ps = true <->
  Forall plain_entry ps.
Proof.
  rewrite forallb_forall, Forall_forall. unfold plain_entry.
  split; intros H [k x] Hin; specialize (H (k, x) Hin); cbn [fst snd] in *.
  - now apply andb_prop in H.
  - destruct H as [-> ->]. reflexivity.
Qed.

Lemma plain_index_entries (elems : list value) :
  forallb plain_value elems = true ->
  forall i, Forall plain_entry (index_entries i elems).
Proof.
  induction elems as [|e elems IH]; cbn [forallb index_entries]; intros H i;
    [constructor|].
  apply andb_prop in H as [He H]. constructor; [|now apply IH].
  split; [apply plain_nat_to_str|exact He].
Qed.

Lemma plain_own_entries (v : value) :
  plain_value v = true -> Forall plain_entry (own_entries v).
Proof.
  destruct v as [| |b|n|s|elems named|own]; cbn [plain_value own_entries];
    intros H; try constructor.
  - apply plain_index_entries. unfold plain in H.
    rewrite forallb_forall in H. apply forallb_forall.
    intros x Hx. apply in_map_iff in Hx as (c & <- & Hc).
    cbn. now rewrite (H c Hc).
  - apply andb_prop in H as [He Hn]. apply Forall_app. split.
    + now apply plain_index_entries.
    + now apply plain_entries_forallb.
  - now apply plain_entries_forallb.
Qed.

Lemma plain_lookup (k : str) (ps : list (str * value)) (x : value) :
  Forall plain_entry ps -> lookup k ps = Some x -> plain_value x = true.
Proof.
  induction 1 as [|[k0 x0] ps [_ Hx] _ IH]; cbn [lookup]; [discriminate|].
  destruct (str_eqb k k0); [|exact IH]. intros E. now injection E as <-.
Qed.

Lemma plain_prop (v : value) (k : str) :
  plain_value v = true -> plain_value (prop v k) = true.
Proof.
  intros H. unfold prop.
  destruct (lookup k (own_entries v)) eqn:E; [|reflexivity].
  eapply plain_lookup; [|exact E]. now apply plain_own_entries.
Qed.

Lemma plain_getTruthyKeys (obj : value) (keys : list str) :
  plain_value obj = true -> getTruthyKeys obj = Ok keys ->
  Forall (fun key => plain key = true) keys.
Proof.
  intros Hp H. unfold getTruthyKeys in H. apply bind_ok in H as (ks & Hk & H).
  injection H as <-.
  assert (Hks : Forall (fun key => plain key = true) ks).
  { unfold Object_keys in Hk.
    assert (ks = map fst (own_entries obj)) as ->
      by (destruct obj; try discriminate; now injection Hk as <-).
    apply Forall_forall. intros key Hin. apply in_map_iff in Hin as (kv & <- & Hin).
    apply plain_own_entries in Hp. rewrite Forall_forall in Hp.
    now apply Hp. }
  apply Forall_forall. intros e He. apply in_map_iff in He as (key & <- & Hin).
  apply filter_In in Hin as [Hin _]. rewrite Forall_forall in Hks.
  specialize (Hks key Hin).
  destruct (truthy (prop obj key)); [exact Hks|].
  unfold strike. now rewrite !plain_app, Hks.
Qed.

Lemma plain_innerKeysEntry (obj : value) (key e : str) :
  plain_value obj = true -> plain key = true ->
  innerKeysEntry obj key = Ok e -> plain e = true.
Proof.
  intros Hp Hk H. pose proof (plain_prop obj key Hp) as Hv.
  apply innerKeysEntry_shape in H
    as [->|[(elems & named & texts & E & Ht & ->)|(ks & E & ->)]];
    [exact Hk|..]; rewrite !plain_app, Hk; cbn [andb].
  - rewrite E in Hv. cbn [plain_value] in Hv. apply andb_prop in Hv as [Hv _].
    rewrite plain_join; [reflexivity..|].
    apply mapM_ok in Ht. apply Forall_forall. intros x Hx.
    destruct (Forall2_In_r _ _ _ _ Ht Hx) as (el & Hel & Hx').
    apply sort_In in Hel. rewrite forallb_forall in Hv.
    exact (plain_join_text el x (Hv el Hel) Hx').
  - rewrite plain_join; [reflexivity..|].
    apply sort_Forall. eapply plain_getTruthyKeys; eauto.
Qed.

Lemma plain_processObjWithInnerKeys (obj : value) (l : list str) :
  plain_value obj = true -> processObjWithInnerKeys obj = Ok l ->
  Forall (fun e => plain e = true) l.
Proof.
  intros Hp H. unfold processObjWithInnerKeys in H.
  apply bind_ok in H as (kvs & Hk & H).
  apply (plain_getTruthyKeys obj kvs Hp) in Hk.
  apply innerKeysLoop_entries in H.
  induction H as [|key e kvs l He _ IH]; [constructor|].
  inversion Hk; subst. constructor; [|now apply IH].
  eapply plain_innerKeysEntry; eauto.
Qed.

Lemma plain_replace_entry (k : str) (x : value) (ps : list (str * value)) :
  plain k = true -> plain_value x = true ->
  Forall plain_entry ps -> Forall plain_entry (replace_entry k x ps).
Proof.
  intros Hk Hx. induction 1 as [|[k0 x0] ps [Hk0 Hx0] Hps IH]; cbn [replace_entry].
  - repeat constructor; assumption.
  - destruct (str_eqb k k0); constructor; try assumption; now split.
Qed.

Lemma plain_set (v : value) (k : str) (x : value) :
  plain k = true -> plain_value x = true -> plain_value v = true ->
  plain_value (set v k x) = true.
Proof.
  intros Hk Hx. destruct v as [| |b|n|s|elems named|own]; cbn [set plain_value];
    auto; intros H.
  - apply andb_prop in H as [He Hn]. rewrite He. cbn [andb].
    apply plain_entries_forallb, plain_replace_entry; auto.
    now apply plain_entries_forallb.
  - apply plain_entries_forallb, plain_replace_entry; auto.
    now apply plain_entries_forallb.
Qed.

Lemma plain_defaultColorKey (color color' : value) (k : str) :
  plain k = true -> plain_value color = true ->
  defaultColorKey color k = Ok color' -> plain_value color' = true.
Proof.
  intros Hk Hp. unfold defaultColorKey.
  destruct (jstype_eqb (typeof color) TyObject);
    [|intros H; now injection H as <-].
  destruct (has k color) as [[|]|]; cbn [bind negb]; intros H;
    try discriminate; injection H as <-; [assumption|].
  now apply plain_set.
Qed.

Lemma plain_augmentSupports (supports supports' : value) :
  plain_value supports = true ->
  augmentSupports supports = Ok supports' -> plain_value supports' = true.
Proof.
  intros Hp. unfold augmentSupports.
  destruct (truthy supports); [|intros H; now injection H as <-].
  destruct (has (lit "color") supports) as [[|]|]; cbn [bind]; intros H;
    try discriminate; [|now injection H as <-].
  apply bind_ok in H as (c1 & E1 & H). apply bind_ok in H as (c2 & E2 & H).
  injection H as <-.
  apply plain_defaultColorKey in E1; [|reflexivity|now apply plain_prop].
  apply plain_defaultColorKey in E2; [|reflexivity|assumption].
  now apply plain_set.
Qed.

Lemma plain_or_else (a b : value) :
  plain_value a = true -> plain_value b = true ->
  plain_value (or_else a b) = true.
Proof. intros Ha Hb. unfold or_else. now destruct (truthy a). Qed.

Lemma plain_template (blockjson : value) (supportsList attributes : list str)
    (markup : str) :
  plain_value blockjson = true ->
  Forall (fun e => plain e = true) supportsList ->
  Forall (fun e => plain e = true) attributes ->
  template blockjson (strings supportsList) (strings attributes) = Ok markup ->
  plain markup = true.
Proof.
  intros Hp Hs Ha H. unfold template in H.
  rewrite !list_text_strings in H.
  assert (Hprop : forall k t, toString (prop blockjson k) = Ok t -> plain t = true)
    by (intros k; now apply plain_toString, plain_prop).
  assert (Hor : forall k t,
            toString (or_else (prop blockjson k) (VString [])) = Ok t ->
            plain t = true).
  { intros k. apply plain_toString, plain_or_else; [now apply plain_prop|reflexivity]. }
  apply bind_ok in H as (title & Htitle%Hprop & H).
  apply bind_ok in H as (name & Hname%Hprop & H).
  apply bind_ok in H as (description & Hdescription%Hor & H).
  apply bind_ok in H as (name' & Hname'%Hprop & H).
  apply bind_ok in H as (category & Hcategory%Hor & H).
  apply bind_ok in H as (ancestor & Hancestor%Hor & H).
  apply bind_ok in H as (parent & Hparent%Hor & H).
  cbn [bind] in H. apply Ok_inj in H. rewrite <- H.
  rewrite !plain_app, Htitle, Hname, Hdescription, Hname', Hcategory,
    Hancestor, Hparent.
  rewrite (plain_join (lit ",") supportsList eq_refl Hs).
  rewrite (plain_join (lit ",") attributes eq_refl Ha).
  reflexivity.
Qed.

Lemma plain_readBlockJSON (blockjson : value) (markup : str) :
  plain_value blockjson = true ->
  readBlockJSON blockjson = Ok markup -> plain markup = true.
Proof.
  intros Hp H. unfold readBlockJSON in H.
  apply bind_ok in H as (nm & _ & H).
  destruct (jstype_eqb (typeof nm) TyUndefined); [now injection H as <-|].
  apply bind_ok in H as (sl & Hsl & H). apply bind_ok in H as (al & Hal & H).
  apply plain_template in H; [assumption..| |].
  - clear Hal.
    destruct (negb (jstype_eqb (typeof (prop blockjson (lit "supports"))) TyUndefined));
      [|injection Hsl as <-; constructor].
    apply bind_ok in Hsl as (aug & Haug & Hsl).
    apply plain_augmentSupports in Haug; [|now apply plain_prop].
    destruct (truthy aug); [|injection Hsl as <-; constructor].
    eapply plain_processObjWithInnerKeys; eauto.
  - clear Hsl.
    destruct (negb (jstype_eqb (typeof (prop blockjson (lit "attributes"))) TyUndefined));
      [|injection Hal as <-; constructor].
    eapply plain_getTruthyKeys; [|exact Hal]. now apply plain_prop.
Qed.

Lemma plain_generate (files : list value) (autogen : str) :
  Forall (fun file => plain_value file = true) files ->
  generate files = Ok autogen -> plain autogen = true.
Proof.
  intros Hf. revert autogen. induction Hf as [|file files Hp _ IH];
    intros autogen H; cbn [generate] in H.
  - now injection H as <-.
  - apply bind_ok in H as (markup & Hm & H). apply bind_ok in H as (rest & Hr & H).
    injection H as <-. rewrite plain_app.
    now rewrite (plain_readBlockJSON file markup Hp Hm), (IH rest Hr).
Qed.

(** X22.  When no string and no property name of the descriptor files has a
    [$], a run over the document that a run has written, with the same
    files, writes that document again: on such descriptors the generator is
    idempotent, on every document. *)
Theorem run_idempotent (files : list value) (docsContent once : str) :
  Forall (fun file => plain_value file = true) files ->
  run files docsContent = Ok once ->
  run files once = Ok once.
Proof.
  intros Hf H. unfold run in *.
  apply bind_ok in H as (autogen & Hg & H). injection H as <-.
  rewrite Hg. cbn [bind]. f_equal.
  apply splice_twice. now apply (plain_generate files).
Qed.

Lemma run_idempotent_witness :
  let files := [VObject [(lit "name", VString (lit "woo/x"));
                         (lit "title", VString (lit "X"));
                         (lit "supports",
                          VObject [(lit "color", VObject [(lit "link", VBool true)])])]] in
  let docsContent := lit "Intro" ++ START_TOKEN ++ lit "old" ++ END_TOKEN in
  exists once,
    Forall (fun file => plain_value file = true) files /\
    run files docsContent = Ok once /\
    run files once = Ok once.
Proof.
  intros files docsContent.
  assert (Hf : Forall (fun file => plain_value file = true) files)
    by (repeat constructor).
  destruct (run files docsContent) as [once|] eqn:E; [|discriminate E].
  exists once. split; [exact Hf|]. split; [reflexivity|].
  exact (run_idempotent files docsContent once Hf E).
Defined.

(** ** Which number is extracted *)

(** X23.  The release number comes from the first occurrence of the
    question in the body, and from the first line after it that starts with
    [MAJOR.MINOR]: text between the question and that line, and anything
    after the number, plays no part. *)
Theorem extract_release_first (body output releaseNumber : str) :
  extract_release (Some body) = SetOutput output releaseNumber ->
  exists pre x rest,
    body = pre ++ RELEASE_QUESTION ++ x ++ NL ++ releaseNumber ++ rest /\
    (forall n, In n (occurrences RELEASE_QUESTION body) -> length pre <= n) /\
    (forall x2 major2 minor2 rest2,
       x ++ NL ++ releaseNumber ++ rest
       = x2 ++ NL ++ major2 ++ lit "." ++ minor2 ++ rest2 ->
       number major2 -> number minor2 -> length x <= length x2).
Proof.
  unfold extract_release.
  destruct (exec releaseRegex body) as [[[pre ps] rest]|] eqn:E; [|discriminate].
  apply exec_question_first in E as (x & ts & -> & Hts & Hbody & Hfirst & Hlazy).
  assert (Hacc : Forall2 accepts releaseRegex (RELEASE_QUESTION :: x :: ts)).
  { constructor; [reflexivity|]. constructor; [apply any_char_all|exact Hts]. }
  apply accepts_releaseRegex in Hacc as (x' & major & minor & Eps & Hmaj & Hmin).
  injection Eps as <- ->.
  unfold capture. cbn [skipn firstn concat] in *. rewrite app_nil_r in *.
  destruct (truthy _); [|discriminate]. intros H. injection H as _ <-.
  exists pre, x, rest.
  split; [rewrite Hbody, <- ?app_assoc; reflexivity|]. split; [exact Hfirst|].
  intros x2 major2 minor2 rest2 Hx Hmaj2 Hmin2.
  apply (Hlazy x2 [NL; major2; lit "."; minor2] rest2).
  - cbn [concat]. rewrite app_nil_r, <- ?app_assoc. rewrite <- Hx.
    rewrite <- ?app_assoc. reflexivity.
  - repeat constructor; cbn [accepts]; try apply Hmaj2; try apply Hmin2.
Qed.

Lemma extract_release_first_witness :
  let body := RELEASE_QUESTION ++ lit " (see above)" ++ NL ++ lit "n/a" ++ NL ++
              lit "6.7" ++ NL ++ lit "9.9" in
  extract_release (Some body) = SetOutput (lit "RELEASE_NUMBER") (lit "6.7") /\
  exists pre x rest,
    body = pre ++ RELEASE_QUESTION ++ x ++ NL ++ lit "6.7" ++ rest /\
    (forall n, In n (occurrences RELEASE_QUESTION body) -> length pre <= n) /\
    (forall x2 major2 minor2 rest2,
       x ++ NL ++ lit "6.7" ++ rest
       = x2 ++ NL ++ major2 ++ lit "." ++ minor2 ++ rest2 ->
       number major2 -> number minor2 -> length x <= length x2).
Proof.
  intros body.
  assert (H : extract_release (Some body) = SetOutput (lit "RELEASE_NUMBER") (lit "6.7"))
    by reflexivity.
  split; [exact H|].
  exact (extract_release_first body _ _ H).
Defined.

(** X24.  The pull request number comes from the first occurrence of the
    question about the pull request, and from the first line after it that
    starts with the address of a pull request. *)
Theorem extract_pr_first (body output prNumber : str) :
  extract_pr (Some body) = SetOutput output prNumber ->
  exists pre x owner repo rest,
    body = pre ++ PR_QUESTION ++ x ++ NL ++ lit "https://github.com/" ++
           owner ++ lit "/" ++ repo ++ lit "/pull/" ++ prNumber ++ rest /\
    (forall n, In n (occurrences PR_QUESTION body) -> length pre <= n) /\
    (forall x2 owner2 repo2 n2 rest2,
       x ++ NL ++ lit "https://github.com/" ++
         owner ++ lit "/" ++ repo ++ lit "/pull/" ++ prNumber ++ rest
       = x2 ++ NL ++ lit "https://github.com/" ++
         owner2 ++ lit "/" ++ repo2 ++ lit "/pull/" ++ n2 ++ rest2 ->
       name owner2 -> name repo2 -> number n2 -> length x <= length x2).
Proof.
  unfold extract_pr.
  destruct (exec prRegex body) as [[[pre ps] rest]|] eqn:E; [|discriminate].
  apply exec_question_first in E as (x & ts & -> & Hts & Hbody & Hfirst & Hlazy).
  assert (Hacc : Forall2 accepts prRegex (PR_QUESTION :: x :: ts)).
  { constructor; [reflexivity|]. constructor; [apply any_char_all|exact Hts]. }
  apply accepts_prRegex in Hacc as (x' & owner & repo & n & Eps & Ho & Hr & Hn).
  injection Eps as <- ->.
  unfold capture. cbn [skipn firstn concat] in *. rewrite app_nil_r in *.
  destruct (truthy _); [|discriminate]. intros H. injection H as _ <-.
  exists pre, x, owner, repo, rest.
  split; [rewrite Hbody, <- ?app_assoc; reflexivity|]. split; [exact Hfirst|].
  intros x2 owner2 repo2 n2 rest2 Hx Ho2 Hr2 Hn2.
  apply (Hlazy x2 [NL; lit "https://github.com/"; owner2; lit "/"; repo2;
                   lit "/pull/"; n2] rest2).
  - cbn [concat]. rewrite app_nil_r, <- ?app_assoc. rewrite <- Hx.
    rewrite <- ?app_assoc. reflexivity.
  - repeat constructor; cbn [accepts];
      try apply Ho2; try apply Hr2; try apply Hn2.
Qed.

Lemma extract_pr_first_witness :
  let body := PR_QUESTION ++ NL ++ lit "see https://github.com/a/b/pull/1" ++ NL ++
              lit "https://github.com/org/repo/pull/1234" ++ NL ++
              lit "https://github.com/org/repo/pull/5" in
  extract_pr (Some body) = SetOutput (lit "PR_NUMBER") (lit "1234") /\
  exists pre x owner repo rest,
    body = pre ++ PR_QUESTION ++ x ++ NL ++ lit "https://github.com/" ++
           owner ++ lit "/" ++ repo ++ lit "/pull/" ++ lit "1234" ++ rest /\
    (forall n, In n (occurrences PR_QUESTION body) -> length pre <= n) /\
    (forall x2 owner2 repo2 n2 rest2,
       x ++ NL ++ lit "https://github.com/" ++
         owner ++ lit "/" ++ repo ++ lit "/pull/" ++ lit "1234" ++ rest
       = x2 ++ NL ++ lit "https://github.com/" ++
         owner2 ++ lit "/" ++ repo2 ++ lit "/pull/" ++ n2 ++ rest2 ->
       name owner2 -> name repo2 -> number n2 -> length x <= length x2).
Proof.
  intros body.
  assert (H : extract_pr (Some body) = SetOutput (lit "PR_NUMBER") (lit "1234"))
    by reflexivity.
  split; [exact H|].
  exact (extract_pr_first body _ _ H).
Defined.


(** ** A new request *)

(** X25.  On an issue labeled [code freeze exception] the run sends the
    notification of a new request and does nothing else: [prep] is skipped,
    so the body is not read, and no other command runs. *)
Theorem cfe_created_run (ev : event) :
  label_name ev = lit "code freeze exception" ->
  job_conclusion (prep ev) = Skipped /\
  fst (cfe_created ev) = Success /\
  run_commands ev
  = [Gh (NotifySlack (lit ":arrow_right: New CFE request: " ++
                      issue_title ev ++ NL ++ issue_html_url ev ++ NL))].
Proof.
  intros H. unfold run_commands, cfe_created, cfe_approved, cfe_rejected, prep.
  rewrite H. cbn. repeat split.
Qed.

Lemma cfe_created_run_witness :
  let ev := {| label_name := lit "code freeze exception";
               issue_body := Some (lit "anything");
               issue_title := lit "Fix";
               issue_html_url := lit "u";
               repository_owner := lit "org";
               repository_name := lit "repo" |} in
  label_name ev = lit "code freeze exception" /\
  run_commands ev
  = [Gh (NotifySlack (lit ":arrow_right: New CFE request: " ++
                      lit "Fix" ++ NL ++ lit "u" ++ NL))].
Proof.
  intros ev. split; [reflexivity|].
  exact (proj2 (proj2 (cfe_created_run ev eq_refl))).
Defined.

(** ** Conversions that throw *)

Lemma throws {A} (r : result A) : (forall a, r <> Ok a) -> r = Throw TypeError.
Proof.
  destruct r as [a|[]]; intros H; [now contradiction (H a)|reflexivity].
Qed.

Lemma mapM_throws {A B} (f : A -> result B) (l : list A) (a : A) :
  In a l -> f a = Throw TypeError -> mapM f l = Throw TypeError.
Proof.
  intros Hin Hf. apply throws. intros l' H. apply mapM_ok in H.
  destruct (Forall2_In_l _ _ _ _ H Hin) as (b & _ & Hb). congruence.
Qed.

Lemma innerKeysLoop_throws (obj : value) (kvs : list str) (key : str) :
  In key kvs -> innerKeysEntry obj key = Throw TypeError ->
  innerKeysLoop obj kvs = Throw TypeError.
Proof.
  intros Hin He. apply throws. intros l H. apply innerKeysLoop_entries in H.
  destruct (Forall2_In_l _ _ _ _ H Hin) as (e & _ & Hentry). congruence.
Qed.

(** X26.  A descriptor that has a name and whose title is an object with a
    key [toString] makes [readBlockJSON] throw, whatever its other fields
    are: the template cannot convert such a title to a string. *)
Theorem readBlockJSON_title_throws (blockjson : value)
    (own : list (str * value)) :
  typeof (prop blockjson (lit "name")) <> TyUndefined ->
  prop blockjson (lit "title") = VObject own ->
  lookup (lit "toString") own <> None ->
  readBlockJSON blockjson = Throw TypeError.
Proof.
  intros Hname Htitle Hts. apply throws. intros markup H.
  unfold readBlockJSON in H. apply bind_ok in H as (nm & Hget & H).
  assert (Hnm : nm = prop blockjson (lit "name"))
    by (destruct blockjson; try discriminate; now injection Hget as <-).
  subst nm.
  destruct (jstype_eqb (typeof (prop blockjson (lit "name"))) TyUndefined) eqn:E.
  { destruct (prop blockjson (lit "name")); try discriminate.
    now contradiction Hname. }
  apply bind_ok in H as (sl & _ & H). apply bind_ok in H as (al & _ & H).
  unfold template in H. rewrite Htitle in H. cbn [toString] in H.
  destruct (lookup (lit "toString") own); [discriminate H|now contradiction Hts].
Qed.

Lemma readBlockJSON_title_throws_witness :
  let blockjson := VObject [(lit "name", VString (lit "woo/x"));
                            (lit "title", VObject [(lit "toString", VNull)])] in
  typeof (prop blockjson (lit "name")) <> TyUndefined /\
  readBlockJSON blockjson = Throw TypeError.
Proof.
  intros blockjson.
  assert (H1 : typeof (prop blockjson (lit "name")) <> TyUndefined)
    by (cbn; discriminate).
  split; [exact H1|].
  refine (readBlockJSON_title_throws blockjson [(lit "toString", VNull)]
            H1 eq_refl _).
  cbn. discriminate.
Defined.

(** X27.  For a key whose value is an array, no entry is made when an
    element of the array cannot be converted to a string, such as an object
    with a key [toString]: the join throws, and with it
    [processObjWithInnerKeys] on every object that lists the key. *)
Theorem innerKeysEntry_array_throws (obj : value) (key : str)
    (elems : list value) (named : list (str * value)) (e : value) :
  prop obj key = VArray elems named ->
  In e elems ->
  toString e = Throw TypeError ->
  innerKeysEntry obj key = Throw TypeError /\
  (forall kvs, getTruthyKeys obj = Ok kvs -> In key kvs ->
     processObjWithInnerKeys obj = Throw TypeError).
Proof.
  intros Hp Hin He.
  assert (Hentry : innerKeysEntry obj key = Throw TypeError).
  { apply throws. intros s H. unfold innerKeysEntry in H. rewrite Hp in H.
    apply bind_ok in H as (sorted & Hs & H).
    apply bind_ok in H as (joined & Hj & _).
    apply Array_sort_ok in Hs. subst sorted. unfold Array_join in Hj.
    apply bind_ok in Hj as (texts & Ht & _).
    assert (Hthrow : mapM join_text (sort value_ltb elems) = Throw TypeError).
    { apply (mapM_throws _ _ e); [now apply sort_In|].
      destruct e; try exact He; discriminate He. }
    congruence. }
  split; [exact Hentry|].
  intros kvs Hk Hkey. unfold processObjWithInnerKeys. rewrite Hk. cbn [bind].
  now apply (innerKeysLoop_throws obj kvs key).
Qed.

Lemma innerKeysEntry_array_throws_witness :
  let e := VObject [(lit "toString", VNumber (Finite false 1 1))] in
  let obj := VObject [(lit "color", VObject [(lit "link", VBool true)]);
                      (lit "align", VArray [e; VString (lit "x")] [])] in
  prop obj (lit "align") = VArray [e; VString (lit "x")] [] /\
  In e [e; VString (lit "x")] /\
  toString e = Throw TypeError /\
  innerKeysEntry obj (lit "align") = Throw TypeError /\
  processObjWithInnerKeys obj = Throw TypeError.
Proof.
  intros e obj.
  assert (Hin : In e [e; VString (lit "x")]) by (left; reflexivity).
  split; [reflexivity|]. split; [exact Hin|]. split; [reflexivity|].
  destruct (innerKeysEntry_array_throws obj (lit "align") _ [] e eq_refl Hin eq_refl)
    as [H1 H2].
  split; [exact H1|].
  apply (H2 [lit "color"; lit "align"] eq_refl). right. left. reflexivity.
Defined.
